(** * gollum: the scribe stream buffer and the file consumer

    A shallow embedding of two components of gollum,
    - [producer/scribeStreamBuffer.go]: the double-buffered batcher that
      the scribe producer appends to and flushes, and
    - [consumer/file.go]: the tailing file consumer,
    and of the token lookup and the resource creation of
    [producer/cloudwatchlogs.go], followed by the properties that the
    specification states and by further properties of the code.

    Go's fixed-width integers are integers of [Z] with the wrap-around
    written out, [nil] pointers are [None], slices are lists, and every
    effect the code has on the outside (log lines, sleeps, posted messages,
    files written) is recorded in a trace of events. *)

From Stdlib Require Import ZArith String Ascii DecimalString DecimalPos Lia Bool.
From stdpp Require Import base list gmap strings.

Open Scope Z_scope.

(** ** Machine integers *)

Module GoInt.

(** [uint32] arithmetic wraps modulo 2^32. *)
Definition u32 (z : Z) : Z := z mod 2 ^ 32.

(** [uint64(x)] of an [int64]. *)
Definition u64 (z : Z) : Z := z mod 2 ^ 64.

(** Go's [int] and [int64] (64 bit on the platforms gollum runs on):
    two's complement wrap-around. *)
Definition i64 (z : Z) : Z := (z + 2 ^ 63) mod 2 ^ 64 - 2 ^ 63.

Definition maxInt64 : Z := 2 ^ 63 - 1.
Definition minInt64 : Z := - 2 ^ 63.
Definition maxUint64 : Z := 2 ^ 64 - 1.

End GoInt.

(** ** producer/scribeStreamBuffer.go *)

Module Scribe.
Import GoInt.

Definition scribeBufferGrowSize : Z := 256.

(** [scribe.LogEntry] *)
Record LogEntry := mkLogEntry { Category : string; Message : string }.

(** [scribeMessageQueue]; a slot of [buffer] is a [*scribe.LogEntry],
    [None] being the nil pointer. *)
Record scribeMessageQueue := mkQueue {
  buffer : list (option LogEntry);
  contentLen : Z;
  doneCount : Z
}.

Definition newMessageQueue : scribeMessageQueue :=
  {| buffer := replicate (Z.to_nat scribeBufferGrowSize) None;
     contentLen := 0;
     doneCount := 0 |}.

(** [scribeStreamBuffer]. The array [queue [2]scribeMessageQueue] is the
    pair [queue0], [queue1]; [lastFlush] (a wall-clock time) is left out;
    the formatter is a parameter of the operations; the [flushing] mutex
    appears in the interleaved model below. *)
Record scribeStreamBuffer := mkBuffer {
  queue0 : scribeMessageQueue;
  queue1 : scribeMessageQueue;
  activeSet : Z;
  maxContentLen : Z
}.

(** [batch.queue[idx]] for [idx] in 0, 1. *)
Definition queue (batch : scribeStreamBuffer) (idx : Z) : scribeMessageQueue :=
  if idx =? 0 then queue0 batch else queue1 batch.

Definition setQueue (batch : scribeStreamBuffer) (idx : Z) (q : scribeMessageQueue)
  : scribeStreamBuffer :=
  if idx =? 0
  then {| queue0 := q; queue1 := queue1 batch;
          activeSet := activeSet batch; maxContentLen := maxContentLen batch |}
  else {| queue0 := queue0 batch; queue1 := q;
          activeSet := activeSet batch; maxContentLen := maxContentLen batch |}.

Definition setActiveSet (batch : scribeStreamBuffer) (a : Z) : scribeStreamBuffer :=
  {| queue0 := queue0 batch; queue1 := queue1 batch;
     activeSet := a; maxContentLen := maxContentLen batch |}.

Definition createScribeStreamBuffer (maxLen : Z) : scribeStreamBuffer :=
  {| queue0 := newMessageQueue; queue1 := newMessageQueue;
     activeSet := 0; maxContentLen := maxLen |}.

(** The two halves of the coordination word. *)
Definition sideOf (a : Z) : Z := Z.shiftr a 31.
Definition writersOf (a : Z) : Z := Z.land a 0x7FFFFFFF.

(** [shared.Formatter]: [PrepareMessage] followed by [Len] and [String]. *)
Record Formatter (Msg : Type) := mkFormatter {
  Len : Msg -> Z;
  String : Msg -> string
}.
Arguments Len {Msg} _ _.
Arguments String {Msg} _ _.

Inductive LogLine :=
| ScribeMessageTooLarge (bytes : Z).

(** What a call of [Append] gives back: the returned boolean, or a run-time
    panic (index out of range). *)
Inductive AppendReturn :=
| Returns (accepted : bool)
| Panics.

Section Append.
Context {Msg : Type} (format : Formatter Msg).

(** [atomic.AddUint32(&batch.activeSet, 1)]: the new value is both stored
    and returned. *)
Definition reserve (batch : scribeStreamBuffer) : scribeStreamBuffer * Z :=
  let a := u32 (activeSet batch + 1) in
  (setActiveSet batch a, a).

(** [make([]*scribe.LogEntry, messageIdx+scribeBufferGrowSize)] followed by
    [copy(activeQueue.buffer, temp)]. *)
Definition grow (buf : list (option LogEntry)) (messageIdx : Z) : list (option LogEntry) :=
  let n := Z.to_nat (u32 (messageIdx + scribeBufferGrowSize)) in
  take n buf ++ replicate (n - length buf)%nat None.

Definition bumpDone (q : scribeMessageQueue) : scribeMessageQueue :=
  {| buffer := buffer q; contentLen := contentLen q;
     doneCount := u32 (doneCount q + 1) |}.

(** The body of [Append] after the atomic increment returned [a]. The
    deferred [activeQueue.doneCount++] runs on every exit, a panic
    included. *)
Definition complete (batch : scribeStreamBuffer) (a : Z) (msg : Msg) (category : string)
  : scribeStreamBuffer * AppendReturn * list LogLine :=
  let activeIdx := sideOf a in
  let messageIdx := u32 (writersOf a - 1) in
  let activeQueue := queue batch activeIdx in
  let messageLength := Len format msg in
  if batch.(maxContentLen) <=? i64 (contentLen activeQueue + messageLength) then
    if batch.(maxContentLen) <? messageLength then
      (setQueue batch activeIdx (bumpDone activeQueue), Returns true,
       [ScribeMessageTooLarge messageLength])
    else
      (setQueue batch activeIdx (bumpDone activeQueue), Returns false, [])
  else
    let buf :=
      if messageIdx =? u32 (Z.of_nat (length (buffer activeQueue)))
      then grow (buffer activeQueue) messageIdx
      else buffer activeQueue in
    match buf !! Z.to_nat messageIdx with
    | None =>
        (setQueue batch activeIdx
           (bumpDone {| buffer := buf; contentLen := contentLen activeQueue;
                        doneCount := doneCount activeQueue |}),
         Panics, [])
    | Some _ =>
        let logEntry := {| Category := category; Message := String format msg |} in
        (setQueue batch activeIdx
           (bumpDone {| buffer := <[Z.to_nat messageIdx := Some logEntry]> buf;
                        contentLen := i64 (contentLen activeQueue + messageLength);
                        doneCount := doneCount activeQueue |}),
         Returns true, [])
    end.

Definition Append (batch : scribeStreamBuffer) (msg : Msg) (category : string)
  : scribeStreamBuffer * AppendReturn * list LogLine :=
  let '(batch', a) := reserve batch in
  complete batch' a msg category.

End Append.

Definition isEmpty (batch : scribeStreamBuffer) : bool :=
  Z.land (activeSet batch) 0x7FFFFFFF =? 0.

Definition reachedSizeThreshold (batch : scribeStreamBuffer) (size : Z) : bool :=
  size <=? contentLen (queue batch (sideOf (activeSet batch))).

(** The swap of [flush]: the new coordination word has the other side
    active and no writers; the old word is returned. *)
Definition swapActiveSet (batch : scribeStreamBuffer) : scribeStreamBuffer * Z :=
  let flushSet := activeSet batch in
  if Z.land (activeSet batch) 0x80000000 =? 0
  then (setActiveSet batch 0x80000000, flushSet)
  else (setActiveSet batch 0, flushSet).

(** [flushQueue.buffer[:writerCount]]: a slice expression panics when the
    bound exceeds the capacity, which for these buffers is their length. *)
Definition sliceTo (buf : list (option LogEntry)) (writerCount : Z)
  : option (list (option LogEntry)) :=
  if writerCount <=? Z.of_nat (length buf)
  then Some (take (Z.to_nat writerCount) buf)
  else None.

(** The worker that [flush] launches for the side of [flushSet]: it hands
    the slice to [scribe.Log] and clears the two counters of that side.
    [None] is the panic of the slice expression. The outcome of
    [scribe.Log] only decides whether [onError] is called. *)
Definition send (batch : scribeStreamBuffer) (flushSet : Z)
  : option (scribeStreamBuffer * list (option LogEntry)) :=
  let flushIdx := sideOf flushSet in
  let flushQueue := queue batch flushIdx in
  match sliceTo (buffer flushQueue) (writersOf flushSet) with
  | None => None
  | Some entries =>
      Some (setQueue batch flushIdx
              {| buffer := buffer flushQueue; contentLen := 0; doneCount := 0 |},
            entries)
  end.

Inductive FlushResult :=
| NothingToDo
| Sent (entries : list (option LogEntry))
| SpinsForever
| SlicePanics.

(** [flush] with no appender running at the same time and with its worker
    run to the end: the wait for the remaining writers either falls
    through at once or never ends. *)
Definition flush (batch : scribeStreamBuffer) : scribeStreamBuffer * FlushResult :=
  if isEmpty batch then (batch, NothingToDo)
  else
    let '(batch', flushSet) := swapActiveSet batch in
    if writersOf flushSet =? doneCount (queue batch' (sideOf flushSet)) then
      match send batch' flushSet with
      | Some (batch'', entries) => (batch'', Sent entries)
      | None => (batch', SlicePanics)
      end
    else (batch', SpinsForever).

(** *** Appenders and the flusher interleaved

    An appender holds, between its atomic increment and its return, the
    value the increment gave it together with its arguments; [inflight]
    lists the appenders in that window. [flushing] is the mutex: it holds
    the swapped-out coordination word while a flush waits for its writers
    and its worker runs. In this model the rest of [Append] behind the
    atomic increment is one step; the read and the write of the deferred
    increment are taken apart in the model of [raceStep] further down. *)
Record Ticket (Msg : Type) := mkTicket {
  t_set : Z;
  t_msg : Msg;
  t_category : string
}.
Arguments t_set {Msg} _.
Arguments t_msg {Msg} _.
Arguments t_category {Msg} _.

Record System (Msg : Type) := mkSystem {
  sys_batch : scribeStreamBuffer;
  sys_inflight : list (Ticket Msg);
  sys_flushing : option Z;
  sys_sunk : list (list (option LogEntry))
}.
Arguments sys_batch {Msg} _.
Arguments sys_inflight {Msg} _.
Arguments sys_flushing {Msg} _.
Arguments sys_sunk {Msg} _.

Inductive Op (Msg : Type) :=
| OpReserve (msg : Msg) (category : string)
| OpComplete (i : nat)
| OpSwap
| OpSend.
Arguments OpReserve {Msg} _ _.
Arguments OpComplete {Msg} _.
Arguments OpSwap {Msg}.
Arguments OpSend {Msg}.

Section Interleaving.
Context {Msg : Type} (format : Formatter Msg).

Definition initial (maxLen : Z) : System Msg :=
  {| sys_batch := createScribeStreamBuffer maxLen;
     sys_inflight := [];
     sys_flushing := None;
     sys_sunk := [] |}.

(** One step; [None] when the step cannot be taken (no such appender, the
    mutex is held, the writers are not done yet) or the process died in a
    panic of the worker. *)
Definition step (s : System Msg) (op : Op Msg) : option (System Msg) :=
  match op with
  | OpReserve msg category =>
      let '(b, a) := reserve (sys_batch s) in
      Some {| sys_batch := b;
              sys_inflight := sys_inflight s ++ [mkTicket Msg a msg category];
              sys_flushing := sys_flushing s;
              sys_sunk := sys_sunk s |}
  | OpComplete i =>
      match sys_inflight s !! i with
      | None => None
      | Some t =>
          let '(b, _, _) := complete format (sys_batch s) (t_set t) (t_msg t) (t_category t) in
          Some {| sys_batch := b;
                  sys_inflight := delete i (sys_inflight s);
                  sys_flushing := sys_flushing s;
                  sys_sunk := sys_sunk s |}
      end
  | OpSwap =>
      match sys_flushing s with
      | Some _ => None
      | None =>
          let '(b, flushSet) := swapActiveSet (sys_batch s) in
          Some {| sys_batch := b;
                  sys_inflight := sys_inflight s;
                  sys_flushing := Some flushSet;
                  sys_sunk := sys_sunk s |}
      end
  | OpSend =>
      match sys_flushing s with
      | None => None
      | Some flushSet =>
          if writersOf flushSet =? doneCount (queue (sys_batch s) (sideOf flushSet)) then
            match send (sys_batch s) flushSet with
            | None => None
            | Some (b, entries) =>
                Some {| sys_batch := b;
                        sys_inflight := sys_inflight s;
                        sys_flushing := None;
                        sys_sunk := sys_sunk s ++ [entries] |}
            end
          else None
      end
  end.

Fixpoint run (s : System Msg) (ops : list (Op Msg)) : option (System Msg) :=
  match ops with
  | [] => Some s
  | op :: ops' =>
      match step s op with
      | None => None
      | Some s' => run s' ops'
      end
  end.

(** No appender takes the slot that would carry the 31-bit writer count
    into the side bit. *)
Fixpoint noCarry (s : System Msg) (ops : list (Op Msg)) : bool :=
  match ops with
  | [] => true
  | op :: ops' =>
      (match op with
       | OpReserve _ _ => writersOf (activeSet (sys_batch s)) <? 0x7FFFFFFF
       | _ => true
       end)
      && match step s op with
         | None => true
         | Some s' => noCarry s' ops'
         end
  end.

(** Appenders in flight on side [idx]. *)
Definition pendingOn (idx : Z) (ts : list (Ticket Msg)) : Z :=
  Z.of_nat (length (filter (fun t => sideOf (t_set t) = idx) ts)).

(** 1 when the appender [t] holds a slot of side [idx], 0 otherwise. *)
Definition hit (idx : Z) (t : Ticket Msg) : Z :=
  if decide (sideOf (t_set t) = idx) then 1 else 0.

(** The bookkeeping the flusher relies on: on either side the writers done
    and the appenders in flight add up to the writer count of the word
    that covers the side, which is the coordination word for the active
    side and the swapped-out word for a side being flushed; a side that is
    neither active nor being flushed is idle. *)
Definition wordOk (a : Z) : Prop := 0 <= a < 2 ^ 32.

Definition balanced (s : System Msg) : Prop :=
  let b := sys_batch s in
  let act := sideOf (activeSet b) in
  wordOk (activeSet b)
  /\ Forall (fun t => wordOk (t_set t)) (sys_inflight s)
  /\ 0 <= doneCount (queue b act)
  /\ doneCount (queue b act) + pendingOn act (sys_inflight s) = writersOf (activeSet b)
  /\ match sys_flushing s with
     | None =>
         doneCount (queue b (1 - act)) = 0
         /\ pendingOn (1 - act) (sys_inflight s) = 0
     | Some flushSet =>
         wordOk flushSet
         /\ sideOf flushSet = 1 - act
         /\ 0 <= doneCount (queue b (1 - act))
         /\ doneCount (queue b (1 - act)) + pendingOn (1 - act) (sys_inflight s)
            = writersOf flushSet
     end.

End Interleaving.

(** *** Formatters to run the buffer with *)

(** The message is its own payload. *)
Definition plainFormat : Formatter string :=
  {| Len := fun msg => Z.of_nat (String.length msg); String := fun msg => msg |}.

(** Every message formats to the empty payload. *)
Definition emptyFormat : Formatter unit :=
  {| Len := fun _ => 0; String := fun _ => EmptyString |}.

(** A payload of [n] bytes. *)
Fixpoint payload (n : nat) : string :=
  match n with
  | O => EmptyString
  | S k => String.String "x" (payload k)
  end.

(** The buffer after [Append], its return value dropped. *)
Definition appended {Msg : Type} (format : Formatter Msg) (msg : Msg) (category : string)
    (batch : scribeStreamBuffer) : scribeStreamBuffer :=
  (Append format batch msg category).1.1.

(** 256 messages of one byte appended to a fresh buffer with a limit of
    1000 bytes: the slots 0 to 255 of side 0 are taken and filled. *)
Definition firstBlockStored : scribeStreamBuffer :=
  Nat.iter 256 (appended plainFormat "x" "c") (createScribeStreamBuffer 1000).

(** With [maxContentLen] 0 every empty message is refused, so that appends
    change nothing but the two counters: [refusedTimes p] is a fresh
    buffer of limit 0 after [p] of them, for [p] below 2^31. *)
Definition refusedTimes (p : Z) : scribeStreamBuffer :=
  {| queue0 := {| buffer := buffer newMessageQueue; contentLen := 0; doneCount := p |};
     queue1 := newMessageQueue;
     activeSet := p;
     maxContentLen := 0 |}.

(** *** A producer that appends a batch of messages *)

(** The entry that [Append] stores for a message. *)
Definition entryOf {Msg : Type} (format : Formatter Msg) (mc : Msg * string) : LogEntry :=
  {| Category := mc.2; Message := String format mc.1 |}.

(** One [Append] after the other, for each message with its category;
    the values returned are collected. *)
Fixpoint appendAll {Msg : Type} (format : Formatter Msg) (batch : scribeStreamBuffer)
    (msgs : list (Msg * string)) : scribeStreamBuffer * list AppendReturn :=
  match msgs with
  | [] => (batch, [])
  | mc :: rest =>
      let '(batch1, returned, _) := Append format batch mc.1 mc.2 in
      let '(batch2, returns) := appendAll format batch1 rest in
      (batch2, returned :: returns)
  end.

(** The bytes that a batch of messages formats to. *)
Definition totalLen {Msg : Type} (format : Formatter Msg) (msgs : list (Msg * string)) : Z :=
  foldr (fun mc sum => Len format mc.1 + sum) 0 msgs.

(** Side 0 is active and holds the entries [entries] in its first slots,
    one slot taken and done for each, with [bytes] bytes of content. *)
Definition filledWith (batch : scribeStreamBuffer) (entries : list LogEntry) (bytes : Z) : Prop :=
  activeSet batch = Z.of_nat (length entries)
  /\ take (length entries) (buffer (queue0 batch)) = map Some entries
  /\ (length entries <= length (buffer (queue0 batch)) <= length entries + 256)%nat
  /\ contentLen (queue0 batch) = bytes
  /\ doneCount (queue0 batch) = Z.of_nat (length entries).

(** The content length of a queue is not negative and, unless it is 0,
    below the limit. *)
Definition belowLimit (maxLen : Z) (q : scribeMessageQueue) : Prop :=
  0 <= contentLen q /\ (contentLen q = 0 \/ contentLen q < maxLen).

(** A formatter over the messages [true], of 4 bytes, and [false], of 20. *)
Definition twoSizes : Formatter bool :=
  {| Len := fun msg : bool => if msg then 4 else 20;
     String := fun msg : bool => if msg then payload 4 else payload 20 |}.

(** *** The deferred increment as a read and a write

    [activeQueue.doneCount++] is a plain read followed by a plain write of
    a field that no lock guards, so that the increments of two appenders
    can interleave. Here an appender in flight stands at one of three
    places: its slot acquired and the body of [Append] still to run; the
    body run and the deferred function still to start; the deferred
    function started, with the [doneCount] it has read. *)
Inductive Stage :=
| Acquired
| Leaving
| Loaded (d : Z).

Record Appender (Msg : Type) := mkAppender {
  ap_ticket : Ticket Msg;
  ap_stage : Stage
}.
Arguments mkAppender {Msg} _ _.
Arguments ap_ticket {Msg} _.
Arguments ap_stage {Msg} _.

Record Race (Msg : Type) := mkRace {
  race_batch : scribeStreamBuffer;
  race_inflight : list (Appender Msg);
  race_flushing : option Z
}.
Arguments mkRace {Msg} _ _ _.
Arguments race_batch {Msg} _.
Arguments race_inflight {Msg} _.
Arguments race_flushing {Msg} _.

Inductive RaceOp (Msg : Type) :=
| RaceReserve (msg : Msg) (category : string)
| RaceBody (i : nat)
| RaceLoad (i : nat)
| RaceStore (i : nat)
| RaceSwap
| RaceSend.
Arguments RaceReserve {Msg} _ _.
Arguments RaceBody {Msg} _.
Arguments RaceLoad {Msg} _.
Arguments RaceStore {Msg} _.
Arguments RaceSwap {Msg}.
Arguments RaceSend {Msg}.

(** The elements of [l] that satisfy [P], counted. *)
Definition countZ {A : Type} (P : A -> Prop) `{!forall x, Decision (P x)} (l : list A) : Z :=
  Z.of_nat (length (filter P l)).

(** [batch.queue[idx].doneCount = d] *)
Definition setDoneCount (batch : scribeStreamBuffer) (idx d : Z) : scribeStreamBuffer :=
  setQueue batch idx
    {| buffer := buffer (queue batch idx); contentLen := contentLen (queue batch idx);
       doneCount := d |}.

Section Race.
Context {Msg : Type} (format : Formatter Msg).

(** The body of [Append] between the atomic increment, which returned
    [a], and the deferred function. It is one step here: it reads and
    writes the array and the content length of its side and neither
    [doneCount] nor [activeSet], so that taking it apart further would
    not change what happens to the two counters. *)
Definition body (batch : scribeStreamBuffer) (a : Z) (msg : Msg) (category : string)
  : scribeStreamBuffer * AppendReturn * list LogLine :=
  let activeIdx := sideOf a in
  let messageIdx := u32 (writersOf a - 1) in
  let activeQueue := queue batch activeIdx in
  let messageLength := Len format msg in
  if batch.(maxContentLen) <=? i64 (contentLen activeQueue + messageLength) then
    if batch.(maxContentLen) <? messageLength then
      (batch, Returns true, [ScribeMessageTooLarge messageLength])
    else
      (batch, Returns false, [])
  else
    let buf :=
      if messageIdx =? u32 (Z.of_nat (length (buffer activeQueue)))
      then grow (buffer activeQueue) messageIdx
      else buffer activeQueue in
    match buf !! Z.to_nat messageIdx with
    | None =>
        (setQueue batch activeIdx
           {| buffer := buf; contentLen := contentLen activeQueue;
              doneCount := doneCount activeQueue |},
         Panics, [])
    | Some _ =>
        let logEntry := {| Category := category; Message := String format msg |} in
        (setQueue batch activeIdx
           {| buffer := <[Z.to_nat messageIdx := Some logEntry]> buf;
              contentLen := i64 (contentLen activeQueue + messageLength);
              doneCount := doneCount activeQueue |},
         Returns true, [])
    end.

Definition apSide (ap : Appender Msg) : Z := sideOf (t_set (ap_ticket ap)).

Definition isLoaded (ap : Appender Msg) : bool :=
  match ap_stage ap with
  | Loaded _ => true
  | _ => false
  end.

(** Appenders in flight on side [idx], and those of them that stand
    between the read and the write of their increment. *)
Definition inflightOn (idx : Z) (aps : list (Appender Msg)) : Z :=
  countZ (fun ap => apSide ap = idx) aps.

Definition loadedOn (idx : Z) (aps : list (Appender Msg)) : Z :=
  countZ (fun ap => apSide ap = idx /\ isLoaded ap = true) aps.

Definition raceInitial (maxLen : Z) : Race Msg :=
  {| race_batch := createScribeStreamBuffer maxLen;
     race_inflight := [];
     race_flushing := None |}.

(** One step; [None] when the step cannot be taken: no appender at that
    place, the mutex held, the writers not done, a panic of the worker. *)
Definition raceStep (s : Race Msg) (op : RaceOp Msg) : option (Race Msg) :=
  match op with
  | RaceReserve msg category =>
      let '(b, a) := reserve (race_batch s) in
      Some {| race_batch := b;
              race_inflight :=
                race_inflight s ++ [mkAppender (mkTicket Msg a msg category) Acquired];
              race_flushing := race_flushing s |}
  | RaceBody i =>
      match race_inflight s !! i with
      | Some (mkAppender t Acquired) =>
          let '(b, _, _) := body (race_batch s) (t_set t) (t_msg t) (t_category t) in
          Some {| race_batch := b;
                  race_inflight := <[i := mkAppender t Leaving]> (race_inflight s);
                  race_flushing := race_flushing s |}
      | _ => None
      end
  | RaceLoad i =>
      match race_inflight s !! i with
      | Some (mkAppender t Leaving) =>
          let d := doneCount (queue (race_batch s) (sideOf (t_set t))) in
          Some {| race_batch := race_batch s;
                  race_inflight := <[i := mkAppender t (Loaded d)]> (race_inflight s);
                  race_flushing := race_flushing s |}
      | _ => None
      end
  | RaceStore i =>
      match race_inflight s !! i with
      | Some (mkAppender t (Loaded d)) =>
          Some {| race_batch := setDoneCount (race_batch s) (sideOf (t_set t)) (u32 (d + 1));
                  race_inflight := delete i (race_inflight s);
                  race_flushing := race_flushing s |}
      | _ => None
      end
  | RaceSwap =>
      match race_flushing s with
      | Some _ => None
      | None =>
          let '(b, flushSet) := swapActiveSet (race_batch s) in
          Some {| race_batch := b;
                  race_inflight := race_inflight s;
                  race_flushing := Some flushSet |}
      end
  | RaceSend =>
      match race_flushing s with
      | None => None
      | Some flushSet =>
          if writersOf flushSet =? doneCount (queue (race_batch s) (sideOf flushSet)) then
            match send (race_batch s) flushSet with
            | None => None
            | Some (b, _) =>
                Some {| race_batch := b;
                        race_inflight := race_inflight s;
                        race_flushing := None |}
            end
          else None
      end
  end.

Fixpoint raceRun (s : Race Msg) (ops : list (RaceOp Msg)) : option (Race Msg) :=
  match ops with
  | [] => Some s
  | op :: ops' =>
      match raceStep s op with
      | None => None
      | Some s' => raceRun s' ops'
      end
  end.

(** What a step has to respect for the run to count as one without a
    carry of the writer count into the side bit. *)
Definition keepsCount (s : Race Msg) (op : RaceOp Msg) : bool :=
  match op with
  | RaceReserve _ _ => writersOf (activeSet (race_batch s)) <? 0x7FFFFFFF
  | _ => true
  end.

(** What a step has to respect for the increments not to overlap: no
    appender reads [doneCount] while another one on its side stands
    between its read and its write. *)
Definition keepsApart (s : Race Msg) (op : RaceOp Msg) : bool :=
  match op with
  | RaceLoad i =>
      match race_inflight s !! i with
      | Some ap => loadedOn (apSide ap) (race_inflight s) =? 0
      | None => true
      end
  | _ => true
  end.

(** Every step of the run from [s] respects [guard]. *)
Fixpoint guarded (guard : Race Msg -> RaceOp Msg -> bool) (s : Race Msg)
    (ops : list (RaceOp Msg)) : bool :=
  match ops with
  | [] => true
  | op :: ops' =>
      guard s op
      && match raceStep s op with
         | None => true
         | Some s' => guarded guard s' ops'
         end
  end.

(** The writer count that covers side [idx]: that of the coordination
    word for the active side, that of the swapped-out word for a side
    being flushed, none for an idle side. *)
Definition covering (s : Race Msg) (idx : Z) : Z :=
  if idx =? sideOf (activeSet (race_batch s)) then writersOf (activeSet (race_batch s))
  else match race_flushing s with
       | Some flushSet => writersOf flushSet
       | None => 0
       end.

(** On side [idx] the counter, and every value of it that an appender has
    read and not yet written back, is at most the number of the appenders
    that have returned. *)
Definition sideCounts (s : Race Msg) (idx : Z) : Prop :=
  let returned := covering s idx - inflightOn idx (race_inflight s) in
  0 <= doneCount (queue (race_batch s) idx) <= returned
  /\ Forall (fun ap => apSide ap = idx ->
                       forall d, ap_stage ap = Loaded d -> 0 <= d <= returned)
       (race_inflight s).

(** The same with increments that do not overlap: the counter is the
    number of the appenders that have returned. *)
Definition sideExact (s : Race Msg) (idx : Z) : Prop :=
  0 <= doneCount (queue (race_batch s) idx)
  /\ doneCount (queue (race_batch s) idx) + inflightOn idx (race_inflight s) = covering s idx
  /\ loadedOn idx (race_inflight s) <= 1
  /\ Forall (fun ap => apSide ap = idx ->
                       forall d, ap_stage ap = Loaded d ->
                                 d = doneCount (queue (race_batch s) idx))
       (race_inflight s).

Definition raceWords (s : Race Msg) : Prop :=
  wordOk (activeSet (race_batch s))
  /\ Forall (fun ap => wordOk (t_set (ap_ticket ap))) (race_inflight s)
  /\ match race_flushing s with
     | Some flushSet =>
         wordOk flushSet /\ sideOf flushSet = 1 - sideOf (activeSet (race_batch s))
     | None => True
     end.

Definition raceBalanced (s : Race Msg) : Prop :=
  raceWords s /\ sideCounts s 0 /\ sideCounts s 1.

Definition raceExact (s : Race Msg) : Prop :=
  raceWords s /\ sideExact s 0 /\ sideExact s 1.

End Race.

(** *** One goroutine that appends and flushes *)

Inductive Call (Msg : Type) :=
| CallAppend (msg : Msg) (category : string)
| CallFlush.
Arguments CallAppend {Msg} _ _.
Arguments CallFlush {Msg}.

(** The calls run one after the other, each to its end before the next
    starts. [None] when a call does not return: an [Append] that panics,
    a [flush] that waits for ever or whose worker panics. *)
Fixpoint calls {Msg : Type} (format : Formatter Msg) (batch : scribeStreamBuffer)
    (cs : list (Call Msg)) : option scribeStreamBuffer :=
  match cs with
  | [] => Some batch
  | CallAppend msg category :: rest =>
      match Append format batch msg category with
      | (batch', Returns _, _) => calls format batch' rest
      | (_, Panics, _) => None
      end
  | CallFlush :: rest =>
      match flush batch with
      | (batch', NothingToDo) => calls format batch' rest
      | (batch', Sent _) => calls format batch' rest
      | (_, SpinsForever) => None
      | (_, SlicePanics) => None
      end
  end.

End Scribe.

(** ** consumer/file.go *)

Module FileConsumer.
Import GoInt.

Definition fileBufferGrowSize : Z := 1024.
Definition fileOffsetStart : string := "Start".
Definition fileOffsetEnd : string := "End".
Definition fileOffsetContinue : string := "Current".

Inductive fileState :=
| fileStateOpen
| fileStateRead
| fileStateDone.

Definition fileState_eqb (a b : fileState) : bool :=
  match a, b with
  | fileStateOpen, fileStateOpen
  | fileStateRead, fileStateRead
  | fileStateDone, fileStateDone => true
  | _, _ => false
  end.

Definition LF : ascii := "010"%char.
Definition CR : ascii := "013"%char.
Definition TAB : ascii := "009"%char.

(** *** The plugin configuration *)

(** Modelled from the spec: [shared.PluginConfig] and its typed getters
    [HasValue] and [GetString] (package shared is not part of the sources
    at hand). The settings are a map from option name, in the form the
    reader normalised it to, to the string configured for it; [GetString]
    gives the default when the key has no value. *)
Record PluginConfig := mkConfig { Settings : gmap string string }.

Definition HasValue (conf : PluginConfig) (key : string) : bool :=
  bool_decide (is_Some (Settings conf !! key)).

Definition GetString (conf : PluginConfig) (key : string) (defaultValue : string) : string :=
  default defaultValue (Settings conf !! key).

Inductive ConfigError :=
| ConsumerError (text : string)
| BaseError (text : string).

(** *** The operating system

    What the consumer sees of the file system: the two path functions of
    [path/filepath] as they answer at this moment ([None] is an error),
    the content of every file that can be opened, and which paths can be
    written. The world changes between two looks at it when somebody
    retargets a link, rotates or appends to a file. *)
Record World := mkWorld {
  EvalSymlinks : string -> option string;
  Abs : string -> option string;
  files : gmap string string;
  writable : string -> bool
}.

(** An open [*os.File]: the path it was opened under and its offset. *)
Record OsFile := mkOsFile { f_path : string; f_pos : Z }.

(** [os.OpenFile(name, os.O_RDONLY, 0666)] *)
Definition OpenFile (w : World) (name : string) : option OsFile :=
  match files w !! name with
  | Some _ => Some {| f_path := name; f_pos := 0 |}
  | None => None
  end.

(** [Seek(offset, whence)] of an [os.File]: the new offset, or 0 together with
    an error that every caller here drops. Whence 0 is relative to the
    start, 1 to the current offset, 2 to the end. *)
Definition Seek (w : World) (f : OsFile) (offset whence : Z) : OsFile * Z :=
  let origin :=
    if whence =? 0 then Some 0
    else if whence =? 1 then Some (f_pos f)
    else if whence =? 2 then
      match files w !! f_path f with
      | Some content => Some (Z.of_nat (String.length content))
      | None => None
      end
    else None in
  match origin with
  | None => (f, 0)
  | Some o =>
      if (0 <=? o + offset) && (o + offset <=? maxInt64)
      then ({| f_path := f_path f; f_pos := o + offset |}, o + offset)
      else (f, 0)
  end.

(** [ioutil.ReadFile] *)
Definition ReadFile (w : World) (name : string) : option string := files w !! name.

(** [ioutil.WriteFile]: the new world and whether the write succeeded. *)
Definition WriteFile (w : World) (name content : string) : World * bool :=
  if writable w name
  then ({| EvalSymlinks := EvalSymlinks w; Abs := Abs w;
           files := <[name := content]> (files w); writable := writable w |}, true)
  else (w, false).

(** *** strconv *)

(** [strconv.FormatInt(i, 10)] *)
Definition FormatInt (i : Z) : string := NilZero.string_of_int (Z.to_int i).

Inductive NumError :=
| ErrSyntax
| ErrRange.

Definition digitOf (c : ascii) : option Z :=
  let n := Z.of_N (N_of_ascii c) in
  if (48 <=? n) && (n <=? 57) then Some (n - 48) else None.

(** The loop of [strconv.ParseUint(s, 10, 64)]: a character that is no
    digit is a syntax error with value 0; a value that leaves 64 bits is a
    range error with the largest value. *)
Fixpoint parseUintLoop (s : string) (n : Z) : Z * option NumError :=
  match s with
  | EmptyString => (n, None)
  | String c rest =>
      match digitOf c with
      | None => (0, Some ErrSyntax)
      | Some d =>
          if maxUint64 / 10 + 1 <=? n then (maxUint64, Some ErrRange)
          else if maxUint64 <? n * 10 + d then (maxUint64, Some ErrRange)
          else parseUintLoop rest (n * 10 + d)
      end
  end.

Definition ParseUint (s : string) : Z * option NumError :=
  match s with
  | EmptyString => (0, Some ErrSyntax)
  | _ => parseUintLoop s 0
  end.

(** [strconv.ParseInt(s, 10, 64)]: on a syntax error the value is 0, on a
    range error it is the nearest representable one. *)
Definition ParseInt (s : string) : Z * option NumError :=
  match s with
  | EmptyString => (0, Some ErrSyntax)
  | String c rest =>
      let neg := Ascii.eqb c "-" in
      let digits := if Ascii.eqb c "+" || neg then rest else s in
      match ParseUint digits with
      | (_, Some ErrSyntax) => (0, Some ErrSyntax)
      | (un, _) =>
          if negb neg && (2 ^ 63 <=? un) then (maxInt64, Some ErrRange)
          else if neg && (2 ^ 63 <? un) then (minInt64, Some ErrRange)
          else (if neg then - un else un, None)
      end
  end.

(** *** strings.Replacer *)

(** [strings.NewReplacer("\\n", "\n", "\\r", "\r", "\\t", "\t").Replace] *)
Fixpoint escapeChars (s : string) : string :=
  match s with
  | EmptyString => EmptyString
  | String c tl =>
      match tl with
      | String e rest =>
          if Ascii.eqb c "\" && Ascii.eqb e "n" then String LF (escapeChars rest)
          else if Ascii.eqb c "\" && Ascii.eqb e "r" then String CR (escapeChars rest)
          else if Ascii.eqb c "\" && Ascii.eqb e "t" then String TAB (escapeChars rest)
          else String c (escapeChars tl)
      | EmptyString => String c EmptyString
      end
  end.

(** [strings.NewReplacer("/", "_", ".", "_").Replace] *)
Fixpoint pathDelimiter (s : string) : string :=
  match s with
  | EmptyString => EmptyString
  | String c rest =>
      String (if Ascii.eqb c "/" || Ascii.eqb c "." then "_"%char else c) (pathDelimiter rest)
  end.

(** *** The consumer *)

(** [File]; the embedded [shared.ConsumerBase] shows only through the
    messages it posts and the outcome of its [Configure]. *)
Record File := mkFile {
  file : option OsFile;
  fileName : string;
  continueFileName : string;
  delimiter : string;
  seek : Z;
  seekOffset : Z;
  persistSeek : bool;
  state : fileState
}.

Definition withFile (cons : File) (f : option OsFile) : File :=
  {| file := f; fileName := fileName cons; continueFileName := continueFileName cons;
     delimiter := delimiter cons; seek := seek cons; seekOffset := seekOffset cons;
     persistSeek := persistSeek cons; state := state cons |}.

Definition withSeekOffset (cons : File) (o : Z) : File :=
  {| file := file cons; fileName := fileName cons; continueFileName := continueFileName cons;
     delimiter := delimiter cons; seek := seek cons; seekOffset := o;
     persistSeek := persistSeek cons; state := state cons |}.

Definition withContinueFileName (cons : File) (n : string) : File :=
  {| file := file cons; fileName := fileName cons; continueFileName := n;
     delimiter := delimiter cons; seek := seek cons; seekOffset := seekOffset cons;
     persistSeek := persistSeek cons; state := state cons |}.

Definition setState (cons : File) (s : fileState) : File :=
  {| file := file cons; fileName := fileName cons; continueFileName := continueFileName cons;
     delimiter := delimiter cons; seek := seek cons; seekOffset := seekOffset cons;
     persistSeek := persistSeek cons; state := s |}.

(** Everything the consumer does to the outside. *)
Inductive Event :=
| EvLogError (text : string)
| EvSleep (seconds : Z)
| EvPost (data : string) (sequence : Z)
| EvWriteFile (name content : string) (mode : Z)
| EvSeek (name : string) (offset whence : Z)
| EvOpen (name : string) (ok : bool)
| EvClose (name : string)
| EvGosched
| EvMarkAsDone.

Section Configure.
(** The outcome of [cons.ConsumerBase.Configure(conf)]. *)
Variable baseConfigure : PluginConfig -> option ConfigError.

(** The switch over the [Offset] option: its [default] clause falls
    through to the clause of [fileOffsetEnd]. *)
Definition Configure (cons : File) (conf : PluginConfig) : File * option ConfigError :=
  match baseConfigure conf with
  | Some err => (cons, Some err)
  | None =>
      if negb (HasValue conf "File")
      then (cons, Some (ConsumerError "No file configured for consumer.File"))
      else
        let name := GetString conf "File" "" in
        let delim := escapeChars (GetString conf "Delimiter" (String LF EmptyString)) in
        let offset := GetString conf "Offset" fileOffsetEnd in
        let configured (whence : Z) (persist : bool) :=
          {| file := None; fileName := name; continueFileName := continueFileName cons;
             delimiter := delim; seek := whence; seekOffset := 0;
             persistSeek := persist; state := state cons |} in
        if String.eqb offset fileOffsetEnd then (configured 2 false, None)
        else if String.eqb offset fileOffsetStart then (configured 1 false, None)
        else if String.eqb offset fileOffsetContinue then (configured 1 true, None)
        else (configured 2 false, None)
  end.

End Configure.

(** [ioutil.WriteFile(..., 0644)] *)
Definition indexFileMode : Z := 420.

(** [postAndPersist]. A nil [cons.file] makes [Seek] fail with value 0. *)
Definition postAndPersist (w : World) (cons : File) (data : string) (sequence : Z)
  : World * File * list Event :=
  let '(cons1, sought) :=
    match file cons with
    | Some f =>
        let '(f', pos) := Seek w f 0 1 in
        (withSeekOffset (withFile cons (Some f')) pos, [EvSeek (f_path f) 0 1])
    | None => (withSeekOffset cons 0, [])
    end in
  let content := FormatInt (seekOffset cons1) in
  let '(w', _) := WriteFile w (continueFileName cons1) content in
  (w', cons1,
   sought ++ [EvPost data sequence;
              EvWriteFile (continueFileName cons1) content indexFileMode]).

(** [cons.PostMessageFromSlice] as the reader's callback. *)
Definition postOnly (w : World) (cons : File) (data : string) (sequence : Z)
  : World * File * list Event :=
  (w, cons, [EvPost data sequence]).

Definition realFileName (w : World) (cons : File) : string :=
  let baseFileName :=
    match EvalSymlinks w (fileName cons) with
    | Some resolved => resolved
    | None => fileName cons
    end in
  match Abs w baseFileName with
  | Some absolute => absolute
  | None => fileName cons
  end.

Definition initFile (w : World) (cons : File) : File * list Event :=
  let '(cons1, closed) :=
    match file cons with
    | Some f => (withFile cons None, [EvClose (f_path f)])
    | None => (cons, [])
    end in
  let cons2 :=
    if persistSeek cons1 then
      let baseFileName := realFileName w cons1 in
      let named :=
        withContinueFileName cons1
          ("/tmp/gollum" ++ pathDelimiter baseFileName ++ ".idx")%string in
      let reset := withSeekOffset named 0 in
      match ReadFile w (continueFileName reset) with
      | Some fileContents => withSeekOffset reset (fst (ParseInt fileContents))
      | None => reset
      end
    else cons1 in
  (setState cons2 fileStateRead, closed).

(** *** The buffered reader *)

(** Modelled from the spec: [shared.BufferedReader] (package shared is not
    part of the sources at hand). It keeps the bytes read and not yet
    handed out and the sequence number of the next message. *)
Record BufferedReader := mkReader {
  capacity : Z;
  maxSize : Z;
  frameDelimiter : string;
  pending : string;
  sequence : Z
}.

(** Modelled from the spec: "Construct with (initialCapacity, maxSize,
    delimiter, onMessage)"; the callback is passed to [bufferRead]. *)
Definition NewBufferedReader (initialCapacity max : Z) (delim : string) : BufferedReader :=
  {| capacity := initialCapacity; maxSize := max; frameDelimiter := delim;
     pending := EmptyString; sequence := 0 |}.

(** Modelled from the spec: "Reset(sequence) discards pending data and
    sets the next emitted message's sequence to sequence". *)
Definition Reset (buf : BufferedReader) (seq : Z) : BufferedReader :=
  {| capacity := capacity buf; maxSize := maxSize buf; frameDelimiter := frameDelimiter buf;
     pending := EmptyString; sequence := seq |}.

Inductive ReadError :=
| ErrNil
| ErrEOF
| ErrOverflow
| ErrSource.

(** Modelled from the spec: the forward scan for the delimiter. It gives the
    complete frames, without their delimiters, and the partial data behind
    the last delimiter. [skip] counts the bytes of a delimiter still to be
    passed over, [cur] is the frame collected so far. *)
Fixpoint scanFrames (delim data : string) (skip : nat) (cur : string) : list string * string :=
  match data with
  | EmptyString => ([], cur)
  | String c rest =>
      match skip with
      | S k => scanFrames delim rest k cur
      | O =>
          if String.prefix delim data
          then
            let '(frames, partial) :=
              scanFrames delim rest (String.length delim - 1)%nat EmptyString in
            (cur :: frames, partial)
          else scanFrames delim rest 0%nat (cur ++ String c EmptyString)%string
      end
  end.

Definition splitFrames (delim data : string) : list string * string :=
  match delim with
  | EmptyString => ([], data)
  | _ => scanFrames delim data 0%nat EmptyString
  end.

Definition Callback : Type := World -> File -> string -> Z -> World * File * list Event.

(** Modelled from the spec: "Each complete frame (excluding the delimiter)
    is passed to onMessage with the pre-increment sequence counter", in
    file order, on the caller's goroutine. *)
Fixpoint deliver (onMessage : Callback) (w : World) (cons : File) (seq : Z)
    (frames : list string) : World * File * Z * list Event :=
  match frames with
  | [] => (w, cons, seq, [])
  | frame :: rest =>
      let '(w1, cons1, ev1) := onMessage w cons frame seq in
      let '(w2, cons2, seq2, ev2) := deliver onMessage w1 cons1 (u64 (seq + 1)) rest in
      (w2, cons2, seq2, ev1 ++ ev2)
  end.

(** Modelled from the spec: "Read(source) performs one read into the tail
    of the buffer, then scans forward [...] for occurrences of the
    delimiter"; the tail is first grown by [fileBufferGrowSize] when it is
    smaller than that ([maxSize] 0 is unbounded); a read at the end of the
    file gives [ErrEOF]. The source is the file the consumer holds; one
    read of a regular file fills the tail as far as the file reaches, and
    leaves the offset of the file behind the last byte read. *)
Definition bufferRead (onMessage : Callback) (w : World) (cons : File) (buf : BufferedReader)
  : World * File * BufferedReader * ReadError * list Event :=
  match file cons with
  | None => (w, cons, buf, ErrSource, [])
  | Some f =>
      let used := Z.of_nat (String.length (pending buf)) in
      let small := capacity buf - used <? fileBufferGrowSize in
      if small && negb (maxSize buf =? 0) && (maxSize buf <? capacity buf + fileBufferGrowSize)
      then (w, cons, buf, ErrOverflow, [])
      else
        let cap := if small then capacity buf + fileBufferGrowSize else capacity buf in
        match files w !! f_path f with
        | None => (w, cons, buf, ErrSource, [])
        | Some content =>
            let chunk := substring (Z.to_nat (f_pos f)) (Z.to_nat (cap - used)) content in
            match chunk with
            | EmptyString =>
                (w, cons,
                 {| capacity := cap; maxSize := maxSize buf;
                    frameDelimiter := frameDelimiter buf;
                    pending := pending buf; sequence := sequence buf |},
                 ErrEOF, [])
            | _ =>
                let f' := {| f_path := f_path f;
                             f_pos := f_pos f + Z.of_nat (String.length chunk) |} in
                let '(frames, partial) :=
                  splitFrames (frameDelimiter buf) (pending buf ++ chunk)%string in
                let '(w', cons', seq', events) :=
                  deliver onMessage w (withFile cons (Some f')) (sequence buf) frames in
                (w', cons',
                 {| capacity := cap; maxSize := maxSize buf;
                    frameDelimiter := frameDelimiter buf;
                    pending := partial; sequence := seq' |},
                 ErrNil, events)
            end
        end
  end.

(** *** The loop of [read] *)

(** The local state of [read]: the consumer it runs on, its buffered
    reader, which callback the reader was built with, and the flag that
    arms the log line of a failed open. *)
Record ReadLoop := mkLoop {
  loopCons : File;
  loopBuffer : BufferedReader;
  loopPersist : bool;
  printFileOpenError : bool
}.

Definition onMessageOf (persist : bool) : Callback :=
  if persist then postAndPersist else postOnly.

(** The start of [read], up to the loop. *)
Definition readEnter (cons : File) : ReadLoop :=
  {| loopCons := cons;
     loopBuffer := NewBufferedReader fileBufferGrowSize 0 (delimiter cons);
     loopPersist := persistSeek cons;
     printFileOpenError := true |}.

(** [if cons.state == fileStateOpen { ... }]: drain the file that is still
    held, then [initFile] and [buffer.Reset]. *)
Definition openStage (w : World) (l : ReadLoop) : World * ReadLoop * list Event :=
  if fileState_eqb (state (loopCons l)) fileStateOpen then
    let '(w1, cons1, buf1, ev1) :=
      match file (loopCons l) with
      | Some _ =>
          let '(w', cons', buf', _, ev) :=
            bufferRead (onMessageOf (loopPersist l)) w (loopCons l) (loopBuffer l) in
          (w', cons', buf', ev)
      | None => (w, loopCons l, loopBuffer l, [])
      end in
    let '(cons2, ev2) := initFile w1 cons1 in
    (w1,
     {| loopCons := cons2; loopBuffer := Reset buf1 (u64 (seekOffset cons2));
        loopPersist := loopPersist l; printFileOpenError := printFileOpenError l |},
     ev1 ++ ev2)
  else (w, l, []).

(** [if cons.state == fileStateRead && cons.file == nil { ... }]; the
    boolean tells whether the iteration ends here ([continue]). *)
Definition tryOpen (w : World) (l : ReadLoop) : ReadLoop * list Event * bool :=
  let cons := loopCons l in
  if fileState_eqb (state cons) fileStateRead && bool_decide (file cons = None) then
    let name := realFileName w cons in
    match OpenFile w name with
    | None =>
        ({| loopCons := cons; loopBuffer := loopBuffer l;
            loopPersist := loopPersist l; printFileOpenError := false |},
         EvOpen name false
           :: (if printFileOpenError l then [EvLogError "File open error"] else [])
           ++ [EvSleep 3],
         true)
    | Some f =>
        let '(f', pos) := Seek w f (seekOffset cons) (seek cons) in
        ({| loopCons := withSeekOffset (withFile cons (Some f')) pos;
            loopBuffer := loopBuffer l;
            loopPersist := loopPersist l; printFileOpenError := true |},
         [EvOpen name true; EvSeek name (seekOffset cons) (seek cons)],
         false)
    end
  else (l, [], false).

(** [if cons.state == fileStateRead && cons.file != nil { ... }] *)
Definition tryRead (w : World) (l : ReadLoop) : World * ReadLoop * list Event :=
  let cons := loopCons l in
  match file cons with
  | Some f =>
      if fileState_eqb (state cons) fileStateRead then
        let '(w', cons', buf', err, ev) :=
          bufferRead (onMessageOf (loopPersist l)) w cons (loopBuffer l) in
        let l' := {| loopCons := cons'; loopBuffer := buf';
                     loopPersist := loopPersist l;
                     printFileOpenError := printFileOpenError l |} in
        match err with
        | ErrNil => (w', l', ev)
        | ErrEOF => (w', l', ev ++ [EvGosched])
        | _ =>
            if fileState_eqb (state cons') fileStateRead then
              (w',
               {| loopCons := withFile cons' None; loopBuffer := buf';
                  loopPersist := loopPersist l;
                  printFileOpenError := printFileOpenError l |},
               ev ++ [EvLogError "Error reading file"; EvClose (f_path f)])
            else (w', l', ev)
        end
      else (w, l, [])
  | None => (w, l, [])
  end.

(** One pass through the body of [for cons.state != fileStateDone]. *)
Definition readIter (w : World) (l : ReadLoop) : World * ReadLoop * list Event :=
  let '(w1, l1, ev1) := openStage w l in
  let '(l2, ev2, continue) := tryOpen w1 l1 in
  if continue then (w1, l2, ev1 ++ ev2)
  else
    let '(w3, l3, ev3) := tryRead w1 l2 in
    (w3, l3, ev1 ++ ev2 ++ ev3).

(** The deferred function of [read]. *)
Definition readExit (l : ReadLoop) : ReadLoop * list Event :=
  match file (loopCons l) with
  | Some f => (l, [EvClose (f_path f); EvMarkAsDone])
  | None => (l, [EvMarkAsDone])
  end.

(** What happens around the consumer before a pass of the loop: the file
    system changes under [env], and the control loop, which runs beside
    [read], may set the state: to [fileStateOpen] on a roll, to
    [fileStateDone] when [Consume] returns. *)
Record Stimulus := mkStimulus {
  env : World -> World;
  control : option fileState
}.

Definition controlled (l : ReadLoop) (c : option fileState) : ReadLoop :=
  match c with
  | Some s =>
      {| loopCons := setState (loopCons l) s; loopBuffer := loopBuffer l;
         loopPersist := loopPersist l; printFileOpenError := printFileOpenError l |}
  | None => l
  end.

(** The loop of [read], one pass for each stimulus, until the state is
    [fileStateDone]. *)
Fixpoint readLoop (stimuli : list Stimulus) (w : World) (l : ReadLoop)
  : World * ReadLoop * list Event :=
  match stimuli with
  | [] => (w, l, [])
  | s :: rest =>
      let w0 := env s w in
      let l0 := controlled l (control s) in
      if fileState_eqb (state (loopCons l0)) fileStateDone then
        let '(l1, ev) := readExit l0 in (w0, l1, ev)
      else
        let '(w1, l1, ev1) := readIter w0 l0 in
        let '(w2, l2, ev2) := readLoop rest w1 l1 in
        (w2, l2, ev1 ++ ev2)
  end.

(** [Consume] up to the start of the goroutine that runs [read]. *)
Definition Consume (cons : File) : ReadLoop :=
  readEnter (setState cons fileStateOpen).

(** Nothing happens around the consumer. *)
Definition idle : Stimulus := {| env := fun w => w; control := None |}.

(** The file system changes, the control loop is silent. *)
Definition changed (e : World -> World) : Stimulus := {| env := e; control := None |}.

Definition isOpenErrorLog (e : Event) : bool :=
  match e with
  | EvLogError text => String.eqb text "File open error"
  | _ => false
  end.

Definition isSleep (e : Event) : bool :=
  match e with
  | EvSleep seconds => seconds =? 3
  | _ => false
  end.

Definition countOf (p : Event -> bool) (events : list Event) : nat :=
  length (List.filter p events).

(** The offset that the index file of [cons] holds for [initFile]. *)
Definition indexOffset (w : World) (cons : File) : Z :=
  match ReadFile w ("/tmp/gollum" ++ pathDelimiter (realFileName w cons) ++ ".idx")%string with
  | Some fileContents => fst (ParseInt fileContents)
  | None => 0
  end.

(** A consumer as [shared.RuntimeType] makes it: every field zero. *)
Definition zeroFile : File :=
  {| file := None; fileName := EmptyString; continueFileName := EmptyString;
     delimiter := EmptyString; seek := 0; seekOffset := 0;
     persistSeek := false; state := fileStateOpen |}.

(** The byte [c] occurs in [s]. *)
Fixpoint mentions (c : ascii) (s : string) : bool :=
  match s with
  | EmptyString => false
  | String c' rest => Ascii.eqb c' c || mentions c rest
  end.

Definition isMarkAsDone (e : Event) : bool :=
  match e with
  | EvMarkAsDone => true
  | _ => false
  end.

Definition setsDone (s : Stimulus) : bool :=
  match control s with
  | Some fileStateDone => true
  | _ => false
  end.

(** The number that the digits [d] continue from the digits read so far,
    of value [acc]. *)
Fixpoint decimalValue (d : Decimal.uint) (acc : Z) : Z :=
  match d with
  | Decimal.Nil => acc
  | Decimal.D0 l => decimalValue l (acc * 10 + 0)
  | Decimal.D1 l => decimalValue l (acc * 10 + 1)
  | Decimal.D2 l => decimalValue l (acc * 10 + 2)
  | Decimal.D3 l => decimalValue l (acc * 10 + 3)
  | Decimal.D4 l => decimalValue l (acc * 10 + 4)
  | Decimal.D5 l => decimalValue l (acc * 10 + 5)
  | Decimal.D6 l => decimalValue l (acc * 10 + 6)
  | Decimal.D7 l => decimalValue l (acc * 10 + 7)
  | Decimal.D8 l => decimalValue l (acc * 10 + 8)
  | Decimal.D9 l => decimalValue l (acc * 10 + 9)
  end.

(** *** A log file behind a link *)

(** Every consumer below is configured from a base that accepts. *)
Definition baseAccepts (conf : PluginConfig) : option ConfigError := None.

(** The consumer configured with [File: current.log] and the given
    [Offset]. *)
Definition tailing (offset : string) : File :=
  fst (Configure baseAccepts zeroFile
         {| Settings := {[ "File"%string := "current.log"%string;
                           "Offset"%string := offset ]} |}).

(** The working directory is /var/log, where the link current.log points
    to [target]; the files a.log, with two lines, and b.log, with one
    line, are there. *)
Definition logDir (target : string) (index : gmap string string) : World :=
  {| EvalSymlinks := fun name =>
       if String.eqb name "current.log" then Some target else Some name;
     Abs := fun name => Some ("/var/log/" ++ name)%string;
     files :=
       {[ "/var/log/a.log"%string := String "a" (String LF (String "b" (String LF EmptyString)));
          "/var/log/b.log"%string := String "c" (String LF EmptyString) ]} ∪ index;
     writable := fun _ => true |}.

(** Somebody removes the file [name]. *)
Definition removed (name : string) (w : World) : World :=
  {| EvalSymlinks := EvalSymlinks w; Abs := Abs w;
     files := delete name (files w); writable := writable w |}.

(** Somebody points the link to [target]. *)
Definition retarget (target : string) (w : World) : World :=
  {| EvalSymlinks := fun name =>
       if String.eqb name "current.log" then Some target else Some name;
     Abs := Abs w; files := files w; writable := writable w |}.

(** A pass of the loop of [read] comes to the open of the file with no
    file held: either the state is [fileStateOpen], where [initFile] lets
    go of a file that is held, or it is [fileStateRead] and no file is
    held. *)
Definition comesToOpen (l : ReadLoop) : Prop :=
  state (loopCons l) = fileStateOpen
  \/ (state (loopCons l) = fileStateRead /\ file (loopCons l) = None).

(** A streak of failed opens: every pass over [stimuli] comes to the open
    of the file, and the open fails in the world that the pass finds
    there. *)
Fixpoint failedOpens (stimuli : list Stimulus) (w : World) (l : ReadLoop) : Prop :=
  match stimuli with
  | [] => True
  | s :: rest =>
      let l0 := controlled l (control s) in
      let opened := openStage (env s w) l0 in
      comesToOpen l0
      /\ OpenFile opened.1.1 (realFileName opened.1.1 (loopCons opened.1.2)) = None
      /\ failedOpens rest (readIter (env s w) l0).1.1 (readIter (env s w) l0).1.2
  end.

(** The control loop rolls the file: the state is set to [fileStateOpen]. *)
Definition roll (e : World -> World) : Stimulus :=
  {| env := e; control := Some fileStateOpen |}.

(** Somebody appends [text] to the file [name]. *)
Definition appendTo (name text : string) (w : World) : World :=
  {| EvalSymlinks := EvalSymlinks w; Abs := Abs w;
     files := match files w !! name with
              | Some content => <[name := (content ++ text)%string]> (files w)
              | None => files w
              end;
     writable := writable w |}.

End FileConsumer.

(** ** producer/cloudwatchlogs.go *)

Module Cloudwatch.

(** [cloudwatchlogs.LogStream], the two fields that are read; both are
    pointers to strings, [None] being nil. *)
Record LogStream := mkLogStream {
  LogStreamName : option string;
  UploadSequenceToken : option string
}.

(** [CloudwatchLogs], without the embedded producer and the service
    client. *)
Record CloudwatchLogs := mkCloudwatchLogs {
  stream : string;
  group : string;
  token : option string
}.

Definition setToken' (prod : CloudwatchLogs) (t : option string) : CloudwatchLogs :=
  {| stream := stream prod; group := group prod; token := t |}.

(** [findToken]: the returned boolean, or [None] for the panic of
    dereferencing a nil [row.LogStreamName]. *)
Fixpoint findToken (prod : CloudwatchLogs) (rows : list LogStream)
  : CloudwatchLogs * option bool :=
  match rows with
  | [] => (prod, Some false)
  | row :: rest =>
      match LogStreamName row with
      | None => (prod, None)
      | Some name =>
          if String.eqb (stream prod) name
          then (setToken' prod (UploadSequenceToken row), Some true)
          else findToken prod rest
      end
  end.

(** [setToken] over the pages that [DescribeLogStreamsPages] hands to the
    callback one after the other for as long as the callback returns
    true; the callback returns [!findToken(prod, page)]. [None] is the
    panic within [findToken]. *)
Fixpoint setToken (prod : CloudwatchLogs) (pages : list (list LogStream))
  : option CloudwatchLogs :=
  match pages with
  | [] => Some prod
  | page :: rest =>
      match findToken prod page with
      | (_, None) => None
      | (prod', Some true) => Some prod'
      | (prod', Some false) => setToken prod' rest
      end
  end.

(** A row of another stream than the one of [prod]. *)
Definition otherStream (prod : CloudwatchLogs) (row : LogStream) : Prop :=
  exists name, LogStreamName row = Some name /\ name <> stream prod.

(** An error value: an [awserr.Error] with its code, or any other error. *)
Inductive GoError :=
| AwsError (code : string)
| OtherError (text : string).

(** The calls that reach the service. *)
Inductive ServiceCall :=
| CreateLogGroup (groupName : string)
| CreateLogStream (groupName streamName : string).

(** What is done to an error of the two create calls: the error of an
    existing resource counts as success. *)
Definition tolerated (err : option GoError) : option GoError :=
  match err with
  | Some (AwsError code) =>
      if String.eqb code "ResourceAlreadyExistsException" then None else err
  | _ => err
  end.

Section Create.
(** The answers of the service to the two calls. *)
Variable answer : ServiceCall -> option GoError.

Definition createGroup (prod : CloudwatchLogs) : option GoError * list ServiceCall :=
  (tolerated (answer (CreateLogGroup (group prod))), [CreateLogGroup (group prod)]).

Definition createStream (prod : CloudwatchLogs) : option GoError * list ServiceCall :=
  (tolerated (answer (CreateLogStream (group prod) (stream prod))),
   [CreateLogStream (group prod) (stream prod)]).

Definition create (prod : CloudwatchLogs) : option GoError * list ServiceCall :=
  match createGroup prod with
  | (Some err, calls) => (Some err, calls)
  | (None, calls) =>
      let '(err, calls') := createStream prod in
      (err, calls ++ calls')
  end.

End Create.

End Cloudwatch.

(** * Properties *)

(** ** The scribe stream buffer *)

Module ScribeFacts.
Import GoInt Scribe.

Lemma writersOf_mod a : writersOf a = a mod 2 ^ 31.
Proof. unfold writersOf. change 0x7FFFFFFF with (Z.ones 31). apply Z.land_ones. lia. Qed.

Lemma sideOf_div a : sideOf a = a / 2 ^ 31.
Proof. unfold sideOf. apply Z.shiftr_div_pow2. lia. Qed.

Lemma u32_small z : 0 <= z < 2 ^ 32 -> u32 z = z.
Proof. intros. unfold u32. apply Z.mod_small. lia. Qed.

Lemma sideOf_cases a : 0 <= a < 2 ^ 32 -> sideOf a = 0 \/ sideOf a = 1.
Proof. rewrite sideOf_div. intros. Z.to_euclidean_division_equations. lia. Qed.

Lemma land_topbit a :
  Z.land a 0x80000000 = if Z.odd (sideOf a) then 0x80000000 else 0.
Proof.
  unfold sideOf. rewrite <- Z.testbit_odd.
  apply Z.bits_inj'. intros n Hn.
  rewrite Z.land_spec. change 0x80000000 with (2 ^ 31).
  rewrite Z.pow2_bits_eqb by lia.
  destruct (Z.testbit a 31) eqn:E.
  - rewrite Z.pow2_bits_eqb by lia.
    destruct (Z.eqb_spec 31 n) as [<-|]; [by rewrite E | by rewrite andb_false_r].
  - rewrite Z.bits_0.
    destruct (Z.eqb_spec 31 n) as [<-|]; [by rewrite E | by rewrite andb_false_r].
Qed.

Lemma reserve_no_carry a :
  0 <= a < 2 ^ 32 -> writersOf a < 0x7FFFFFFF ->
  u32 (a + 1) = a + 1 /\ sideOf (a + 1) = sideOf a
  /\ writersOf (a + 1) = writersOf a + 1 /\ a + 1 < 2 ^ 32.
Proof.
  rewrite !writersOf_mod, !sideOf_div. unfold u32. intros.
  Z.to_euclidean_division_equations. lia.
Qed.

(** Reading a side back after writing one. *)
Lemma queue_setQueue_same batch idx q : queue (setQueue batch idx q) idx = q.
Proof. unfold queue, setQueue. destruct (idx =? 0) eqn:E; simpl; rewrite ?E; reflexivity. Qed.

Lemma queue_setQueue_other batch idx idx' q :
  (idx =? 0) <> (idx' =? 0) -> queue (setQueue batch idx q) idx' = queue batch idx'.
Proof.
  unfold queue, setQueue. intros H.
  destruct (idx =? 0), (idx' =? 0); simpl; congruence.
Qed.

Lemma activeSet_setQueue batch idx q : activeSet (setQueue batch idx q) = activeSet batch.
Proof. unfold setQueue. destruct (idx =? 0); reflexivity. Qed.

Section Complete.
Context {Msg : Type} (format : Formatter Msg).

(** Whatever way [Append] leaves, the side of its slot has one more
    writer done, the other side and the coordination word are as before. *)
Lemma complete_doneCount batch a msg category :
  let batch' := (complete format batch a msg category).1.1 in
  doneCount (queue batch' (sideOf a)) = u32 (doneCount (queue batch (sideOf a)) + 1)
  /\ activeSet batch' = activeSet batch
  /\ forall idx, (sideOf a =? 0) <> (idx =? 0) -> queue batch' idx = queue batch idx.
Proof.
  unfold complete.
  repeat match goal with
  | |- context [if ?c then _ else _] => destruct c
  | |- context [match ?l !! ?i with _ => _ end] => destruct (l !! i)
  end; cbn [fst snd]; rewrite queue_setQueue_same, activeSet_setQueue;
  (split; [reflexivity | split; [reflexivity | intros; by apply queue_setQueue_other]]).
Qed.

End Complete.

#[local] Arguments u32 : simpl never.
#[local] Arguments i64 : simpl never.
#[local] Arguments sideOf : simpl never.
#[local] Arguments writersOf : simpl never.
#[local] Arguments Z.pow : simpl never.
#[local] Arguments complete : simpl never.

Section Balance.
Context {Msg : Type} (format : Formatter Msg).
Implicit Types (s : System Msg) (ts : list (Ticket Msg)) (t : Ticket Msg).

Lemma pendingOn_nonneg idx ts : 0 <= pendingOn idx ts.
Proof. unfold pendingOn. lia. Qed.

Lemma pendingOn_cons idx t ts : pendingOn idx (t :: ts) = hit idx t + pendingOn idx ts.
Proof.
  unfold pendingOn, hit. rewrite filter_cons.
  destruct (decide (sideOf (t_set t) = idx)); simpl; lia.
Qed.

Lemma pendingOn_snoc idx ts t : pendingOn idx (ts ++ [t]) = pendingOn idx ts + hit idx t.
Proof.
  induction ts as [|t' ts IH]; simpl.
  - rewrite pendingOn_cons. unfold pendingOn. simpl. lia.
  - rewrite !pendingOn_cons, IH. lia.
Qed.

Lemma pendingOn_delete idx ts i t :
  ts !! i = Some t -> pendingOn idx (delete i ts) = pendingOn idx ts - hit idx t.
Proof.
  revert i. induction ts as [|t' ts IH]; intros [|i] H; simpl in *; try discriminate.
  - injection H as ->. rewrite pendingOn_cons. lia.
  - rewrite !pendingOn_cons, (IH i H). lia.
Qed.

Lemma queue_setActiveSet batch a idx : queue (setActiveSet batch a) idx = queue batch idx.
Proof. reflexivity. Qed.

Lemma initial_balanced maxLen : balanced (initial (Msg := Msg) maxLen).
Proof.
  unfold balanced, wordOk. simpl. repeat split; try lia; try reflexivity. constructor.
Qed.

Lemma Forall_delete {A} (P : A -> Prop) (l : list A) i : Forall P l -> Forall P (delete i l).
Proof.
  intros H. revert i. induction H; intros [|i]; simpl; auto.
Qed.



Lemma writersOf_range a : 0 <= writersOf a < 2 ^ 31.
Proof. rewrite writersOf_mod. apply Z.mod_pos_bound. lia. Qed.

Lemma hit_same idx t : sideOf (t_set t) = idx -> hit idx t = 1.
Proof. unfold hit. intros. destruct (decide _); [reflexivity | contradiction]. Qed.

Lemma hit_other idx t : sideOf (t_set t) <> idx -> hit idx t = 0.
Proof. unfold hit. intros. destruct (decide _); [contradiction | reflexivity]. Qed.

Lemma step_balanced s op s' :
  balanced s ->
  (match op with
   | OpReserve _ _ => writersOf (activeSet (sys_batch s)) < 0x7FFFFFFF
   | _ => True
   end) ->
  step format s op = Some s' ->
  balanced s'.
Proof.
  destruct s as [b ts fl sunk]. unfold balanced. cbn [sys_batch sys_inflight sys_flushing].
  intros (Hw & Hts & Hd & Hsum & Hfl) Hguard Hstep.
  destruct op as [msg category | i | | ]; cbn [step sys_batch sys_inflight sys_flushing] in Hstep.
  - (* an appender takes a slot *)
    unfold reserve in Hstep. apply (inj Some) in Hstep; subst s'.
    cbn [sys_batch sys_inflight sys_flushing activeSet setActiveSet].
    destruct (reserve_no_carry _ Hw Hguard) as (Hu & Hs & Hwr & Hlt).
    rewrite Hu, Hs, Hwr, !queue_setActiveSet, !pendingOn_snoc.
    rewrite (hit_same (sideOf (activeSet b))) by (cbn [t_set]; congruence).
    rewrite (hit_other (1 - sideOf (activeSet b))) by (cbn [t_set]; rewrite Hs; lia).
    pose proof (writersOf_range (activeSet b + 1)).
    unfold wordOk in *. refine (conj _ (conj _ (conj _ (conj _ _)))); try lia.
    + apply Forall_app. split; [assumption|]. constructor; [cbn [t_set]; lia | constructor].
    + destruct fl; rewrite ?Z.add_0_r; intuition lia.
  - (* an appender returns *)
    destruct (ts !! i) as [t|] eqn:Hi; [|discriminate].
    pose proof (complete_doneCount format b (t_set t) (t_msg t) (t_category t))
      as (Hdone & Hword & Hother).
    destruct (complete format b (t_set t) (t_msg t) (t_category t)) as [[b' r] lg].
    cbn [fst] in Hdone, Hword, Hother. apply (inj Some) in Hstep; subst s'.
    cbn [sys_batch sys_inflight sys_flushing]. rewrite Hword.
    assert (Ht : wordOk (t_set t)) by (eapply Forall_lookup_1 in Hts; eauto).
    pose proof (pendingOn_delete (sideOf (activeSet b)) _ _ _ Hi) as Hp.
    pose proof (pendingOn_delete (1 - sideOf (activeSet b)) _ _ _ Hi) as Hq.
    pose proof (pendingOn_nonneg (sideOf (activeSet b)) (delete i ts)).
    pose proof (pendingOn_nonneg (1 - sideOf (activeSet b)) (delete i ts)).
    pose proof (writersOf_range (activeSet b)).
    unfold hit in Hp, Hq.
    split; [assumption|]. split; [by apply Forall_delete|].
    destruct (sideOf_cases _ Hw) as [Hact | Hact], (sideOf_cases _ Ht) as [Hst | Hst];
      rewrite Hact, Hst in *; change (1 - 0) with 1 in *; change (1 - 1) with 0 in *;
      repeat case_decide; try lia;
      rewrite ?Hdone, ?(Hother 0), ?(Hother 1) by done;
      destruct fl as [flushSet|];
      try pose proof (writersOf_range flushSet);
      rewrite ?u32_small by (unfold wordOk in *; lia);
      unfold wordOk in *; intuition lia.
  - (* the flusher swaps the sides *)
    destruct fl as [flushSet|]; [discriminate|].
    unfold swapActiveSet in Hstep. rewrite land_topbit in Hstep.
    destruct Hfl as (Hidle & Hnone).
    pose proof (pendingOn_nonneg (sideOf (activeSet b)) ts).
    destruct (sideOf_cases _ Hw) as [Hact | Hact]; rewrite Hact in *;
      cbn [Z.odd Z.eqb] in Hstep; apply (inj Some) in Hstep; subst s';
      cbn [sys_batch sys_inflight sys_flushing activeSet setActiveSet];
      rewrite !queue_setActiveSet;
      [ change (sideOf 0x80000000) with 1; change (writersOf 0x80000000) with 0
      | change (sideOf 0) with 0; change (writersOf 0) with 0 ];
      change (1 - 0) with 1 in *; change (1 - 1) with 0 in *;
      unfold wordOk in *; intuition lia.
  - (* the worker of the flusher sends and clears *)
    destruct fl as [flushSet|]; [|discriminate].
    destruct Hfl as (Hfw & Hfs & Hfd & Hfsum).
    destruct (writersOf flushSet =? doneCount (queue b (sideOf flushSet))) eqn:Heq;
      [|discriminate].
    apply Z.eqb_eq in Heq. unfold send in Hstep.
    destruct (sliceTo _ _) as [entries|]; [|discriminate].
    apply (inj Some) in Hstep; subst s'. cbn [sys_batch sys_inflight sys_flushing].
    rewrite activeSet_setQueue. rewrite Hfs in *.
    pose proof (pendingOn_nonneg (1 - sideOf (activeSet b)) ts).
    rewrite queue_setQueue_same.
    rewrite queue_setQueue_other
      by (destruct (sideOf_cases _ Hw) as [-> | ->]; done).
    cbn [doneCount]. unfold wordOk in *. intuition lia.
Qed.

Lemma run_balanced ops : forall s s',
  balanced s -> noCarry format s ops = true -> run format s ops = Some s' -> balanced s'.
Proof.
  induction ops as [|op ops IH]; intros s s' Hs Hc Hr; cbn [run noCarry] in *.
  - by injection Hr as <-.
  - apply andb_prop in Hc as [Hg Hc].
    destruct (step format s op) as [s1|] eqn:Hstep; [|discriminate].
    apply (IH s1 s'); [|assumption|assumption].
    eapply step_balanced; [eassumption| |eassumption].
    destruct op; [by apply Z.ltb_lt|done..].
Qed.

(** In a balanced system the counter of a side that has an appender in
    flight is below 2^31, so the increment at the return of the appender
    does not wrap. *)
Lemma balanced_room s i t :
  balanced s -> sys_inflight s !! i = Some t ->
  0 <= doneCount (queue (sys_batch s) (sideOf (t_set t))) < 2 ^ 31 - 1.
Proof.
  destruct s as [b ts fl sunk]. unfold balanced. cbn [sys_batch sys_inflight sys_flushing].
  intros (Hw & Hts & Hd & Hsum & Hfl) Hi.
  assert (Ht : wordOk (t_set t)) by (eapply Forall_lookup_1 in Hts; eauto).
  pose proof (pendingOn_delete (sideOf (activeSet b)) _ _ _ Hi) as Hp.
  pose proof (pendingOn_delete (1 - sideOf (activeSet b)) _ _ _ Hi) as Hq.
  pose proof (pendingOn_nonneg (sideOf (activeSet b)) (delete i ts)).
  pose proof (pendingOn_nonneg (1 - sideOf (activeSet b)) (delete i ts)).
  pose proof (writersOf_range (activeSet b)).
  unfold hit in Hp, Hq.
  destruct (sideOf_cases _ Hw) as [Hact | Hact], (sideOf_cases _ Ht) as [Hst | Hst];
    rewrite Hact, Hst in *; change (1 - 0) with 1 in *; change (1 - 1) with 0 in *;
    repeat case_decide; try lia;
    destruct fl as [flushSet|];
    try pose proof (writersOf_range flushSet);
    unfold wordOk in *; intuition lia.
Qed.

End Balance.

(** *** The deferred increment as a read and a write *)

Section Count.
Context {A : Type} (P : A -> Prop) `{!forall x, Decision (P x)}.

Lemma countZ_nonneg l : 0 <= countZ P l.
Proof. unfold countZ. lia. Qed.

Lemma countZ_nil : countZ P [] = 0.
Proof. reflexivity. Qed.

Lemma countZ_cons x l :
  countZ P (x :: l) = (if decide (P x) then 1 else 0) + countZ P l.
Proof. unfold countZ. rewrite filter_cons. destruct (decide (P x)); cbn [length]; lia. Qed.

Lemma countZ_app l1 l2 : countZ P (l1 ++ l2) = countZ P l1 + countZ P l2.
Proof.
  induction l1 as [|x l1 IH]; [reflexivity|].
  cbn [app]. rewrite !countZ_cons, IH. lia.
Qed.

Lemma countZ_delete l : forall i x,
  l !! i = Some x ->
  countZ P (delete i l) = countZ P l - (if decide (P x) then 1 else 0).
Proof.
  induction l as [|y l IH]; intros [|i] x Hi; try discriminate.
  - apply (inj Some) in Hi. subst y. simpl. rewrite countZ_cons. lia.
  - simpl in *. rewrite !countZ_cons, (IH i x Hi). lia.
Qed.

Lemma countZ_insert l : forall i x y,
  l !! i = Some x ->
  countZ P (<[i := y]> l)
  = countZ P l - (if decide (P x) then 1 else 0) + (if decide (P y) then 1 else 0).
Proof.
  induction l as [|z l IH]; intros [|i] x y Hi; try discriminate.
  - apply (inj Some) in Hi. subst z. simpl. rewrite !countZ_cons. lia.
  - simpl in *. rewrite !countZ_cons, (IH i x y Hi). lia.
Qed.

Lemma countZ_zero l : countZ P l = 0 -> Forall (fun x => ~ P x) l.
Proof.
  induction l as [|x l IH]; [constructor|].
  rewrite countZ_cons. pose proof (countZ_nonneg l).
  destruct (decide (P x)); [lia|]. intros Hzero. constructor; [assumption | apply IH; lia].
Qed.

End Count.

Section Race.
Context {Msg : Type} (format : Formatter Msg).
Implicit Types (s : Race Msg) (aps : list (Appender Msg)) (ap : Appender Msg).

(** The body of [Append] leaves the coordination word and both counters
    of writers done alone. *)
Lemma body_keeps batch a msg category :
  activeSet (body format batch a msg category).1.1 = activeSet batch
  /\ forall idx,
       doneCount (queue (body format batch a msg category).1.1 idx)
       = doneCount (queue batch idx).
Proof.
  unfold body.
  repeat match goal with
  | |- context [if ?c then _ else _] => destruct c
  | |- context [match ?l !! ?i with _ => _ end] => destruct (l !! i)
  end; cbn [fst snd]; rewrite ?activeSet_setQueue; (split; [reflexivity|]); intros idx;
    try reflexivity;
    unfold queue, setQueue; destruct (sideOf a =? 0), (idx =? 0); reflexivity.
Qed.

(** The rest of [Append] behind the atomic increment is its body followed
    by the read and the write of the deferred increment. *)
Lemma complete_body batch a msg category :
  complete format batch a msg category
  = (let '(b, returned, logged) := body format batch a msg category in
     (setDoneCount b (sideOf a) (u32 (doneCount (queue b (sideOf a)) + 1)),
      returned, logged)).
Proof.
  unfold complete, body, setDoneCount, bumpDone.
  repeat match goal with
  | |- context [if ?c then _ else _] => destruct c
  | |- context [match ?l !! ?i with _ => _ end] => destruct (l !! i)
  end; try reflexivity;
    unfold queue, setQueue; destruct (sideOf a =? 0); reflexivity.
Qed.

Lemma covering_active s :
  covering s (sideOf (activeSet (race_batch s))) = writersOf (activeSet (race_batch s)).
Proof. unfold covering. by rewrite Z.eqb_refl. Qed.

Lemma covering_other s idx :
  idx <> sideOf (activeSet (race_batch s)) ->
  covering s idx = match race_flushing s with
                   | Some flushSet => writersOf flushSet
                   | None => 0
                   end.
Proof. unfold covering. intros H. by destruct (Z.eqb_spec idx (sideOf (activeSet (race_batch s)))). Qed.

Lemma both (Q : Z -> Prop) : Q 0 /\ Q 1 <-> forall idx, idx = 0 \/ idx = 1 -> Q idx.
Proof.
  split.
  - intros [H0 H1] idx [-> | ->]; assumption.
  - intros H. split; apply H; auto.
Qed.

Lemma inflightOn_nonneg idx aps : 0 <= inflightOn idx aps.
Proof. apply countZ_nonneg. Qed.

Lemma inflightOn_snoc idx aps ap :
  inflightOn idx (aps ++ [ap])
  = inflightOn idx aps + (if decide (apSide ap = idx) then 1 else 0).
Proof. unfold inflightOn. rewrite countZ_app, countZ_cons, countZ_nil. lia. Qed.

Lemma inflightOn_insert idx aps i ap ap' :
  aps !! i = Some ap -> apSide ap' = apSide ap ->
  inflightOn idx (<[i := ap']> aps) = inflightOn idx aps.
Proof.
  intros Hi Hside. unfold inflightOn. rewrite (countZ_insert _ aps i ap ap' Hi), Hside.
  destruct (decide (apSide ap = idx)); lia.
Qed.

Lemma inflightOn_delete idx aps i ap :
  aps !! i = Some ap ->
  inflightOn idx (delete i aps)
  = inflightOn idx aps - (if decide (apSide ap = idx) then 1 else 0).
Proof. intros Hi. unfold inflightOn. by rewrite (countZ_delete _ aps i ap Hi). Qed.

Lemma inflightOn_none idx aps :
  inflightOn idx aps = 0 -> Forall (fun ap => apSide ap <> idx) aps.
Proof. apply countZ_zero. Qed.

(** The counters of a side carry over to a state in which the counter is
    the same and no fewer appenders of the side have returned. *)
Lemma sideCounts_transfer s s' idx :
  sideCounts s idx ->
  doneCount (queue (race_batch s') idx) = doneCount (queue (race_batch s) idx) ->
  covering s idx - inflightOn idx (race_inflight s)
    <= covering s' idx - inflightOn idx (race_inflight s') ->
  Forall (fun ap => apSide ap = idx ->
                    forall d, ap_stage ap = Loaded d ->
                              0 <= d <= covering s idx - inflightOn idx (race_inflight s))
    (race_inflight s') ->
  sideCounts s' idx.
Proof.
  unfold sideCounts. intros [Hdone _] Hsame Hle Hloaded. rewrite Hsame. split; [lia|].
  eapply Forall_impl; [exact Hloaded|]. cbv beta.
  intros ap Hap Hside d Hd. specialize (Hap Hside d Hd). lia.
Qed.

Lemma side_of_word a : wordOk a -> sideOf a = 0 \/ sideOf a = 1.
Proof. apply sideOf_cases. Qed.

(** An appender takes a slot. *)
Lemma reserve_balanced s msg category s' :
  raceBalanced s ->
  writersOf (activeSet (race_batch s)) < 0x7FFFFFFF ->
  raceStep format s (RaceReserve msg category) = Some s' ->
  raceBalanced s'.
Proof.
  unfold raceBalanced, raceWords.
  intros ((Hw & Haps & Hfl) & Hsides) Hguard Hstep. rewrite both in Hsides.
  cbn [raceStep] in Hstep. unfold reserve in Hstep. apply (inj Some) in Hstep. subst s'.
  cbn [race_batch race_inflight race_flushing activeSet setActiveSet].
  destruct (reserve_no_carry _ Hw Hguard) as (Hu & Hs & Hwr & Hlt).
  rewrite Hu. split.
  - unfold wordOk in *. split; [lia|]. split; [|destruct (race_flushing s); [rewrite Hs|]; exact Hfl].
    apply Forall_app. split; [assumption|]. constructor; [cbn [ap_ticket t_set]; lia | constructor].
  - apply both. intros idx Hidx. specialize (Hsides idx Hidx).
    apply (sideCounts_transfer s _ idx Hsides); cbn [race_batch race_inflight race_flushing].
    + reflexivity.
    + rewrite inflightOn_snoc.
      match goal with |- context [decide (apSide ?ap = idx)] =>
        assert (Hnew : apSide ap = sideOf (activeSet (race_batch s))) by exact Hs;
        destruct (decide (apSide ap = idx)) as [Hd | Hd]; rewrite Hnew in Hd
      end;
        unfold covering; cbn [race_batch race_flushing activeSet setActiveSet];
        rewrite Hs, Hwr;
        destruct (Z.eqb_spec idx (sideOf (activeSet (race_batch s)))); try congruence; lia.
    + apply Forall_app. split; [apply Hsides|].
      constructor; [|constructor]. intros _ d Hd. discriminate Hd.
Qed.

(** The body of an appender runs. *)
Lemma body_balanced s i s' :
  raceBalanced s -> raceStep format s (RaceBody i) = Some s' -> raceBalanced s'.
Proof.
  unfold raceBalanced, raceWords.
  intros ((Hw & Haps & Hfl) & Hsides) Hstep. rewrite both in Hsides.
  cbn [raceStep] in Hstep.
  destruct (race_inflight s !! i) as [[t [| |d]]|] eqn:Hi; try discriminate.
  pose proof (body_keeps (race_batch s) (t_set t) (t_msg t) (t_category t))
    as [Hword Hdone].
  destruct (body format (race_batch s) (t_set t) (t_msg t) (t_category t)) as [[b r] lg].
  cbn [fst] in Hword, Hdone. apply (inj Some) in Hstep. subst s'.
  cbn [race_batch race_inflight race_flushing]. rewrite Hword. split.
  - split; [exact Hw|]. split; [|exact Hfl].
    apply Forall_insert; [exact Haps|]. cbn [ap_ticket].
    eapply Forall_lookup_1 in Haps; [|exact Hi]. exact Haps.
  - apply both. intros idx Hidx. specialize (Hsides idx Hidx).
    apply (sideCounts_transfer s _ idx Hsides); cbn [race_batch race_inflight race_flushing].
    + apply Hdone.
    + rewrite (inflightOn_insert idx _ i _ _ Hi) by reflexivity.
      unfold covering. cbn [race_batch race_flushing]. rewrite Hword. lia.
    + apply Forall_insert; [apply Hsides|]. intros _ d Hd. discriminate Hd.
Qed.

(** An appender reads [doneCount]. *)
Lemma load_balanced s i s' :
  raceBalanced s -> raceStep format s (RaceLoad i) = Some s' -> raceBalanced s'.
Proof.
  unfold raceBalanced, raceWords.
  intros ((Hw & Haps & Hfl) & Hsides) Hstep. rewrite both in Hsides.
  cbn [raceStep] in Hstep.
  destruct (race_inflight s !! i) as [[t [| |d]]|] eqn:Hi; try discriminate.
  apply (inj Some) in Hstep. subst s'.
  cbn [race_batch race_inflight race_flushing]. split.
  - split; [exact Hw|]. split; [|exact Hfl].
    apply Forall_insert; [exact Haps|]. cbn [ap_ticket].
    eapply Forall_lookup_1 in Haps; [|exact Hi]. exact Haps.
  - apply both. intros idx Hidx. specialize (Hsides idx Hidx).
    apply (sideCounts_transfer s _ idx Hsides); cbn [race_batch race_inflight race_flushing].
    + reflexivity.
    + rewrite (inflightOn_insert idx _ i _ _ Hi) by reflexivity.
      unfold covering. cbn [race_batch race_flushing]. lia.
    + apply Forall_insert; [apply Hsides|]. unfold apSide. cbn [ap_ticket ap_stage].
      intros <- d Hd.
      apply (f_equal (fun st => match st with Loaded x => x | _ => 0 end)) in Hd.
      cbv beta iota in Hd. subst d. apply Hsides.
Qed.

Lemma doneCount_setDoneCount batch idx d :
  doneCount (queue (setDoneCount batch idx d) idx) = d.
Proof. unfold setDoneCount. by rewrite queue_setQueue_same. Qed.

Lemma queue_setDoneCount_other batch idx idx' d :
  (idx =? 0) <> (idx' =? 0) -> queue (setDoneCount batch idx d) idx' = queue batch idx'.
Proof. unfold setDoneCount. apply queue_setQueue_other. Qed.

Lemma activeSet_setDoneCount batch idx d :
  activeSet (setDoneCount batch idx d) = activeSet batch.
Proof. unfold setDoneCount. apply activeSet_setQueue. Qed.

Lemma covering_range s idx : raceWords s -> 0 <= covering s idx < 2 ^ 31.
Proof.
  intros (_ & _ & Hfl). unfold covering.
  destruct (idx =? _); [apply writersOf_range|].
  destruct (race_flushing s); [apply writersOf_range | lia].
Qed.

Lemma sides_differ (a c : Z) :
  a = 0 \/ a = 1 -> c = 0 \/ c = 1 -> a <> c -> (a =? 0) <> (c =? 0).
Proof. intros [-> | ->] [-> | ->] H; cbn; congruence. Qed.

(** An appender writes [doneCount] back and returns. *)
Lemma store_balanced s i s' :
  raceBalanced s -> raceStep format s (RaceStore i) = Some s' -> raceBalanced s'.
Proof.
  intros Hbal Hstep. pose proof Hbal as (Hwords & Hsides). rewrite both in Hsides.
  pose proof Hwords as (Hw & Haps & Hfl).
  cbn [raceStep] in Hstep.
  destruct (race_inflight s !! i) as [[t [| |d]]|] eqn:Hi; try discriminate.
  apply (inj Some) in Hstep. subst s'.
  assert (Ht : wordOk (t_set t)) by exact (Forall_lookup_1 _ _ _ _ Haps Hi).
  pose proof (side_of_word _ Ht) as Hst.
  destruct (Hsides _ Hst) as [Hdone Hloaded].
  pose proof (Forall_lookup_1 _ _ _ _ Hloaded Hi eq_refl d eq_refl) as Hd.
  pose proof (inflightOn_delete (sideOf (t_set t)) _ i _ Hi) as Hp.
  unfold apSide at 2 in Hp. cbn [ap_ticket] in Hp.
  rewrite decide_True in Hp by reflexivity.
  pose proof (inflightOn_nonneg (sideOf (t_set t)) (delete i (race_inflight s))) as Hp0.
  pose proof (covering_range s (sideOf (t_set t)) Hwords) as Hcov.
  split.
  - unfold raceWords. cbn [race_batch race_inflight race_flushing].
    rewrite activeSet_setDoneCount.
    split; [exact Hw|]. split; [by apply Forall_delete | exact Hfl].
  - apply both. intros idx Hidx.
    destruct (decide (idx = sideOf (t_set t))) as [-> | Hne].
    + unfold sideCounts. cbn [race_batch race_inflight race_flushing].
      rewrite doneCount_setDoneCount, Hp.
      assert (Hcover : covering
                         {| race_batch := setDoneCount (race_batch s) (sideOf (t_set t))
                                            (u32 (d + 1));
                            race_inflight := delete i (race_inflight s);
                            race_flushing := race_flushing s |} (sideOf (t_set t))
                       = covering s (sideOf (t_set t))).
      { unfold covering. cbn [race_batch race_flushing].
        by rewrite activeSet_setDoneCount. }
      rewrite Hcover, u32_small by lia. split; [lia|].
      apply Forall_delete. eapply Forall_impl; [exact Hloaded|]. cbv beta.
      intros ap Hap Hside d' Hd'. specialize (Hap Hside d' Hd'). lia.
    + apply (sideCounts_transfer s _ idx (Hsides idx Hidx));
        cbn [race_batch race_inflight race_flushing].
      * rewrite queue_setDoneCount_other; [reflexivity|].
        apply sides_differ; [exact Hst | exact Hidx | congruence].
      * rewrite (inflightOn_delete idx _ i _ Hi).
        rewrite decide_False by (unfold apSide; cbn [ap_ticket]; congruence).
        unfold covering. cbn [race_batch race_flushing].
        rewrite activeSet_setDoneCount. lia.
      * apply Forall_delete. apply (Hsides idx Hidx).
Qed.

(** The flusher swaps the sides. *)
Lemma swap_covering s s' :
  raceWords s ->
  raceStep format s RaceSwap = Some s' ->
  raceWords s'
  /\ race_inflight s' = race_inflight s
  /\ (forall idx, queue (race_batch s') idx = queue (race_batch s) idx)
  /\ forall idx, idx = 0 \/ idx = 1 -> covering s' idx = covering s idx.
Proof.
  intros (Hw & Haps & Hfl) Hstep. cbn [raceStep] in Hstep.
  destruct (race_flushing s) as [flushSet|] eqn:Hflush; [discriminate|].
  unfold swapActiveSet in Hstep. rewrite land_topbit in Hstep.
  destruct (side_of_word _ Hw) as [Hact | Hact]; rewrite Hact in Hstep;
    cbn [Z.odd Z.eqb] in Hstep; apply (inj Some) in Hstep; subst s';
    unfold raceWords, covering;
    cbn [race_batch race_inflight race_flushing activeSet setActiveSet];
    rewrite Hflush, Hact;
    [ change (sideOf 0x80000000) with 1; change (writersOf 0x80000000) with 0
    | change (sideOf 0) with 0; change (writersOf 0) with 0 ];
    (split; [unfold wordOk in *; repeat split; try assumption; lia|]);
    (split; [reflexivity|]); (split; [reflexivity|]);
    intros idx [-> | ->]; reflexivity.
Qed.

Lemma swap_balanced s s' :
  raceBalanced s -> raceStep format s RaceSwap = Some s' -> raceBalanced s'.
Proof.
  intros (Hwords & Hsides) Hstep. rewrite both in Hsides.
  destruct (swap_covering s s' Hwords Hstep) as (Hwords' & Haps & Hq & Hcov).
  split; [exact Hwords'|]. apply both. intros idx Hidx.
  apply (sideCounts_transfer s s' idx (Hsides idx Hidx)).
  - by rewrite Hq.
  - rewrite Haps, (Hcov idx Hidx). lia.
  - rewrite Haps. apply (Hsides idx Hidx).
Qed.

(** What the worker of the flusher does to the two sides. *)
Lemma send_sides s s' :
  raceWords s ->
  raceStep format s RaceSend = Some s' ->
  exists flushSet,
    race_flushing s = Some flushSet
    /\ writersOf flushSet = doneCount (queue (race_batch s) (sideOf flushSet))
    /\ sideOf flushSet = 1 - sideOf (activeSet (race_batch s))
    /\ raceWords s'
    /\ race_inflight s' = race_inflight s
    /\ race_flushing s' = None
    /\ activeSet (race_batch s') = activeSet (race_batch s)
    /\ doneCount (queue (race_batch s') (sideOf flushSet)) = 0
    /\ queue (race_batch s') (sideOf (activeSet (race_batch s)))
       = queue (race_batch s) (sideOf (activeSet (race_batch s))).
Proof.
  intros (Hw & Haps & Hfl) Hstep. cbn [raceStep] in Hstep.
  destruct (race_flushing s) as [flushSet|] eqn:Hflush; [|discriminate].
  destruct Hfl as [Hfw Hfs].
  destruct (Z.eqb_spec (writersOf flushSet)
              (doneCount (queue (race_batch s) (sideOf flushSet)))) as [Heq|];
    [|discriminate].
  unfold send in Hstep. destruct (sliceTo _ _) as [entries|]; [|discriminate].
  apply (inj Some) in Hstep. subst s'. exists flushSet.
  cbn [race_batch race_inflight race_flushing].
  rewrite activeSet_setQueue, queue_setQueue_same.
  rewrite queue_setQueue_other
    by (rewrite Hfs; destruct (side_of_word _ Hw) as [-> | ->]; done).
  split; [reflexivity|]. split; [exact Heq|]. split; [exact Hfs|].
  split.
  { unfold raceWords. cbn [race_batch race_inflight race_flushing].
    rewrite activeSet_setQueue. auto. }
  repeat split.
Qed.

Lemma send_balanced s s' :
  raceBalanced s -> raceStep format s RaceSend = Some s' -> raceBalanced s'.
Proof.
  intros (Hwords & Hsides) Hstep. rewrite both in Hsides.
  pose proof Hwords as (Hw & _).
  destruct (send_sides s s' Hwords Hstep)
    as (flushSet & Hflush & Heq & Hfs & Hwords' & Haps & Hnone & Hword & Hzero & Hkeep).
  split; [exact Hwords'|]. apply both. intros idx Hidx.
  destruct (decide (idx = sideOf (activeSet (race_batch s)))) as [-> | Hne].
  - apply (sideCounts_transfer s s' _ (Hsides _ Hidx)).
    + by rewrite Hkeep.
    + rewrite Haps. unfold covering. rewrite Hword, !Z.eqb_refl. lia.
    + rewrite Haps. apply (Hsides _ Hidx).
  - assert (Hidx' : idx = sideOf flushSet)
      by (rewrite Hfs; destruct Hidx as [-> | ->], (side_of_word _ Hw) as [Ha | Ha];
          rewrite Ha in *; lia).
    subst idx. destruct (Hsides _ Hidx) as [Hdone Hloaded].
    rewrite (covering_other s _ Hne), Hflush in Hdone.
    pose proof (inflightOn_nonneg (sideOf flushSet) (race_inflight s)) as Hp0.
    assert (Hp : inflightOn (sideOf flushSet) (race_inflight s) = 0) by lia.
    unfold sideCounts. rewrite Hzero, Haps, Hp.
    rewrite (covering_other s') by (rewrite Hword; exact Hne). rewrite Hnone.
    split; [lia|].
    eapply Forall_impl; [exact (inflightOn_none _ _ Hp)|]. cbv beta.
    intros ap Hap Hside. contradiction.
Qed.

Lemma raceStep_balanced s op s' :
  raceBalanced s -> keepsCount s op = true -> raceStep format s op = Some s' ->
  raceBalanced s'.
Proof.
  intros Hbal Hguard Hstep. destruct op as [msg category | i | i | i | |].
  - apply (reserve_balanced s msg category s' Hbal); [|exact Hstep].
    by apply Z.ltb_lt.
  - exact (body_balanced s i s' Hbal Hstep).
  - exact (load_balanced s i s' Hbal Hstep).
  - exact (store_balanced s i s' Hbal Hstep).
  - exact (swap_balanced s s' Hbal Hstep).
  - exact (send_balanced s s' Hbal Hstep).
Qed.

Lemma raceInitial_balanced maxLen : raceBalanced (raceInitial (Msg := Msg) maxLen).
Proof.
  split.
  - unfold raceWords, wordOk, raceInitial, createScribeStreamBuffer.
    cbn [race_batch race_inflight race_flushing activeSet].
    split; [lia|]. split; [constructor | exact I].
  - split; unfold sideCounts, covering, inflightOn, raceInitial, createScribeStreamBuffer;
      cbn [race_batch race_inflight race_flushing activeSet];
      rewrite countZ_nil; change (sideOf 0) with 0;
      (split; [|constructor]);
      [change (doneCount (queue _ 0)) with 0 | change (doneCount (queue _ 1)) with 0];
      change (writersOf 0) with 0; cbn [Z.eqb]; lia.
Qed.

Lemma raceRun_balanced ops : forall s s',
  raceBalanced s -> guarded format keepsCount s ops = true ->
  raceRun format s ops = Some s' -> raceBalanced s'.
Proof.
  induction ops as [|op ops IH]; intros s s' Hs Hg Hr; cbn [raceRun guarded] in *.
  - apply (inj Some) in Hr. by subst s'.
  - apply andb_prop in Hg as [Hg Hrest].
    destruct (raceStep format s op) as [s1|] eqn:Hstep; [|discriminate].
    apply (IH s1 s'); [|assumption|assumption].
    exact (raceStep_balanced s op s1 Hs Hg Hstep).
Qed.

(** *** Increments that do not overlap *)

Lemma loadedOn_nonneg idx aps : 0 <= loadedOn idx aps.
Proof. apply countZ_nonneg. Qed.

Lemma loadedOn_snoc idx aps ap :
  isLoaded ap = false -> loadedOn idx (aps ++ [ap]) = loadedOn idx aps.
Proof.
  intros Hap. unfold loadedOn. rewrite countZ_app, countZ_cons, countZ_nil.
  rewrite decide_False by (rewrite Hap; intros [_ ?]; discriminate). lia.
Qed.

Lemma loadedOn_insert idx aps i ap ap' :
  aps !! i = Some ap -> isLoaded ap = false ->
  loadedOn idx (<[i := ap']> aps)
  = loadedOn idx aps + (if decide (apSide ap' = idx /\ isLoaded ap' = true) then 1 else 0).
Proof.
  intros Hi Hap. unfold loadedOn. rewrite (countZ_insert _ aps i ap ap' Hi).
  rewrite (decide_False (P := apSide ap = idx /\ isLoaded ap = true))
    by (rewrite Hap; intros [_ ?]; discriminate).
  lia.
Qed.

Lemma loadedOn_delete idx aps i ap :
  aps !! i = Some ap ->
  loadedOn idx (delete i aps)
  = loadedOn idx aps - (if decide (apSide ap = idx /\ isLoaded ap = true) then 1 else 0).
Proof. intros Hi. unfold loadedOn. by rewrite (countZ_delete _ aps i ap Hi). Qed.

Lemma loadedOn_none idx aps (q : Z -> Prop) :
  loadedOn idx aps = 0 ->
  Forall (fun ap => apSide ap = idx -> forall d, ap_stage ap = Loaded d -> q d) aps.
Proof.
  intros H0. eapply Forall_impl; [exact (countZ_zero _ _ H0)|]. cbv beta.
  intros ap Hap Hside d Hd. exfalso. apply Hap. split; [exact Hside|].
  unfold isLoaded. by rewrite Hd.
Qed.

Lemma sideExact_transfer s s' idx :
  sideExact s idx ->
  doneCount (queue (race_batch s') idx) = doneCount (queue (race_batch s) idx) ->
  covering s' idx - inflightOn idx (race_inflight s')
    = covering s idx - inflightOn idx (race_inflight s) ->
  loadedOn idx (race_inflight s') <= 1 ->
  Forall (fun ap => apSide ap = idx ->
                    forall d, ap_stage ap = Loaded d ->
                              d = doneCount (queue (race_batch s) idx))
    (race_inflight s') ->
  sideExact s' idx.
Proof.
  unfold sideExact. intros (Hdone & Hsum & _) Hsame Hcov Hone Hloaded. rewrite Hsame.
  split; [exact Hdone|]. split; [lia|]. split; [exact Hone | exact Hloaded].
Qed.

Lemma reserve_exact s msg category s' :
  raceExact s ->
  writersOf (activeSet (race_batch s)) < 0x7FFFFFFF ->
  raceStep format s (RaceReserve msg category) = Some s' ->
  raceExact s'.
Proof.
  unfold raceExact, raceWords.
  intros ((Hw & Haps & Hfl) & Hsides) Hguard Hstep. rewrite both in Hsides.
  cbn [raceStep] in Hstep. unfold reserve in Hstep. apply (inj Some) in Hstep. subst s'.
  cbn [race_batch race_inflight race_flushing activeSet setActiveSet].
  destruct (reserve_no_carry _ Hw Hguard) as (Hu & Hs & Hwr & Hlt).
  rewrite Hu. split.
  - unfold wordOk in *. split; [lia|]. split; [|destruct (race_flushing s); [rewrite Hs|]; exact Hfl].
    apply Forall_app. split; [assumption|]. constructor; [cbn [ap_ticket t_set]; lia | constructor].
  - apply both. intros idx Hidx. specialize (Hsides idx Hidx).
    apply (sideExact_transfer s _ idx Hsides); cbn [race_batch race_inflight race_flushing].
    + reflexivity.
    + rewrite inflightOn_snoc.
      match goal with |- context [decide (apSide ?ap = idx)] =>
        assert (Hnew : apSide ap = sideOf (activeSet (race_batch s))) by exact Hs;
        destruct (decide (apSide ap = idx)) as [Hd | Hd]; rewrite Hnew in Hd
      end;
        unfold covering; cbn [race_batch race_flushing activeSet setActiveSet];
        rewrite Hs, Hwr;
        destruct (Z.eqb_spec idx (sideOf (activeSet (race_batch s)))); try congruence; lia.
    + rewrite loadedOn_snoc by reflexivity. apply Hsides.
    + apply Forall_app. split; [apply Hsides|].
      constructor; [|constructor]. intros _ d Hd. discriminate Hd.
Qed.

Lemma body_exact s i s' :
  raceExact s -> raceStep format s (RaceBody i) = Some s' -> raceExact s'.
Proof.
  unfold raceExact, raceWords.
  intros ((Hw & Haps & Hfl) & Hsides) Hstep. rewrite both in Hsides.
  cbn [raceStep] in Hstep.
  destruct (race_inflight s !! i) as [[t [| |d]]|] eqn:Hi; try discriminate.
  pose proof (body_keeps (race_batch s) (t_set t) (t_msg t) (t_category t))
    as [Hword Hdone].
  destruct (body format (race_batch s) (t_set t) (t_msg t) (t_category t)) as [[b r] lg].
  cbn [fst] in Hword, Hdone. apply (inj Some) in Hstep. subst s'.
  cbn [race_batch race_inflight race_flushing]. rewrite Hword. split.
  - split; [exact Hw|]. split; [|exact Hfl].
    apply Forall_insert; [exact Haps|]. exact (Forall_lookup_1 _ _ _ _ Haps Hi).
  - apply both. intros idx Hidx. specialize (Hsides idx Hidx).
    apply (sideExact_transfer s _ idx Hsides); cbn [race_batch race_inflight race_flushing].
    + apply Hdone.
    + rewrite (inflightOn_insert idx _ i _ _ Hi) by reflexivity.
      unfold covering. cbn [race_batch race_flushing]. rewrite Hword. lia.
    + rewrite (loadedOn_insert idx _ i _ _ Hi) by reflexivity.
      rewrite decide_False by (intros [_ ?]; discriminate).
      destruct Hsides as (_ & _ & Hone & _). lia.
    + apply Forall_insert; [apply Hsides|]. intros _ d Hd. discriminate Hd.
Qed.

Lemma load_exact s i s' :
  raceExact s -> keepsApart s (RaceLoad i) = true ->
  raceStep format s (RaceLoad i) = Some s' -> raceExact s'.
Proof.
  unfold raceExact, raceWords.
  intros ((Hw & Haps & Hfl) & Hsides) Hguard Hstep. rewrite both in Hsides.
  cbn [raceStep] in Hstep. cbn [keepsApart] in Hguard.
  destruct (race_inflight s !! i) as [[t [| |d]]|] eqn:Hi; try discriminate.
  apply Z.eqb_eq in Hguard. unfold apSide in Hguard. cbn [ap_ticket] in Hguard.
  apply (inj Some) in Hstep. subst s'.
  cbn [race_batch race_inflight race_flushing]. split.
  - split; [exact Hw|]. split; [|exact Hfl].
    apply Forall_insert; [exact Haps|]. exact (Forall_lookup_1 _ _ _ _ Haps Hi).
  - apply both. intros idx Hidx. specialize (Hsides idx Hidx).
    apply (sideExact_transfer s _ idx Hsides); cbn [race_batch race_inflight race_flushing].
    + reflexivity.
    + rewrite (inflightOn_insert idx _ i _ _ Hi) by reflexivity.
      unfold covering. cbn [race_batch race_flushing]. lia.
    + rewrite (loadedOn_insert idx _ i _ _ Hi) by reflexivity.
      destruct (decide _) as [[Hside _] | _].
      * unfold apSide in Hside. cbn [ap_ticket] in Hside. subst idx. lia.
      * destruct Hsides as (_ & _ & Hone & _). lia.
    + apply Forall_insert; [apply Hsides|]. unfold apSide. cbn [ap_ticket ap_stage].
      intros <- d Hd.
      apply (f_equal (fun st => match st with Loaded x => x | _ => 0 end)) in Hd.
      cbv beta iota in Hd. by subst d.
Qed.

Lemma store_exact s i s' :
  raceExact s -> raceStep format s (RaceStore i) = Some s' -> raceExact s'.
Proof.
  intros Hex Hstep. pose proof Hex as (Hwords & Hsides). rewrite both in Hsides.
  pose proof Hwords as (Hw & Haps & Hfl).
  cbn [raceStep] in Hstep.
  destruct (race_inflight s !! i) as [[t [| |d]]|] eqn:Hi; try discriminate.
  apply (inj Some) in Hstep. subst s'.
  assert (Ht : wordOk (t_set t)) by exact (Forall_lookup_1 _ _ _ _ Haps Hi).
  pose proof (side_of_word _ Ht) as Hst.
  destruct (Hsides _ Hst) as (Hdone & Hsum & Hone & Hloaded).
  pose proof (Forall_lookup_1 _ _ _ _ Hloaded Hi eq_refl d eq_refl) as Hd.
  pose proof (inflightOn_delete (sideOf (t_set t)) _ i _ Hi) as Hp.
  rewrite decide_True in Hp by reflexivity.
  pose proof (loadedOn_delete (sideOf (t_set t)) _ i _ Hi) as Hl.
  rewrite decide_True in Hl by (split; reflexivity).
  pose proof (inflightOn_nonneg (sideOf (t_set t)) (delete i (race_inflight s))) as Hp0.
  pose proof (loadedOn_nonneg (sideOf (t_set t)) (delete i (race_inflight s))) as Hl0.
  pose proof (covering_range s (sideOf (t_set t)) Hwords) as Hcov.
  split.
  - unfold raceWords. cbn [race_batch race_inflight race_flushing].
    rewrite activeSet_setDoneCount.
    split; [exact Hw|]. split; [by apply Forall_delete | exact Hfl].
  - apply both. intros idx Hidx.
    destruct (decide (idx = sideOf (t_set t))) as [-> | Hne].
    + unfold sideExact. cbn [race_batch race_inflight race_flushing].
      rewrite doneCount_setDoneCount, Hp, Hl.
      assert (Hcover : covering
                         {| race_batch := setDoneCount (race_batch s) (sideOf (t_set t))
                                            (u32 (d + 1));
                            race_inflight := delete i (race_inflight s);
                            race_flushing := race_flushing s |} (sideOf (t_set t))
                       = covering s (sideOf (t_set t))).
      { unfold covering. cbn [race_batch race_flushing].
        by rewrite activeSet_setDoneCount. }
      rewrite Hcover, u32_small by lia.
      split; [lia|]. split; [lia|]. split; [lia|].
      apply loadedOn_none. lia.
    + apply (sideExact_transfer s _ idx (Hsides idx Hidx));
        cbn [race_batch race_inflight race_flushing].
      * rewrite queue_setDoneCount_other; [reflexivity|].
        apply sides_differ; [exact Hst | exact Hidx | congruence].
      * rewrite (inflightOn_delete idx _ i _ Hi).
        rewrite decide_False by (unfold apSide; cbn [ap_ticket]; congruence).
        unfold covering. cbn [race_batch race_flushing].
        rewrite activeSet_setDoneCount. lia.
      * rewrite (loadedOn_delete idx _ i _ Hi).
        destruct (Hsides idx Hidx) as (_ & _ & Hone' & _).
        destruct (decide _); lia.
      * apply Forall_delete. apply (Hsides idx Hidx).
Qed.

Lemma swap_exact s s' :
  raceExact s -> raceStep format s RaceSwap = Some s' -> raceExact s'.
Proof.
  intros (Hwords & Hsides) Hstep. rewrite both in Hsides.
  destruct (swap_covering s s' Hwords Hstep) as (Hwords' & Haps & Hq & Hcov).
  split; [exact Hwords'|]. apply both. intros idx Hidx.
  apply (sideExact_transfer s s' idx (Hsides idx Hidx)).
  - by rewrite Hq.
  - rewrite Haps, (Hcov idx Hidx). lia.
  - rewrite Haps. apply (Hsides idx Hidx).
  - rewrite Haps. apply (Hsides idx Hidx).
Qed.

Lemma send_exact s s' :
  raceExact s -> raceStep format s RaceSend = Some s' -> raceExact s'.
Proof.
  intros (Hwords & Hsides) Hstep. rewrite both in Hsides.
  pose proof Hwords as (Hw & _).
  destruct (send_sides s s' Hwords Hstep)
    as (flushSet & Hflush & Heq & Hfs & Hwords' & Haps & Hnone & Hword & Hzero & Hkeep).
  split; [exact Hwords'|]. apply both. intros idx Hidx.
  destruct (decide (idx = sideOf (activeSet (race_batch s)))) as [-> | Hne].
  - apply (sideExact_transfer s s' _ (Hsides _ Hidx)).
    + by rewrite Hkeep.
    + rewrite Haps. unfold covering. rewrite Hword, !Z.eqb_refl. lia.
    + rewrite Haps. apply (Hsides _ Hidx).
    + rewrite Haps. apply (Hsides _ Hidx).
  - assert (Hidx' : idx = sideOf flushSet)
      by (rewrite Hfs; destruct Hidx as [-> | ->], (side_of_word _ Hw) as [Ha | Ha];
          rewrite Ha in *; lia).
    subst idx. destruct (Hsides _ Hidx) as (Hdone & Hsum & Hone & Hloaded).
    rewrite (covering_other s _ Hne), Hflush in Hsum.
    assert (Hp : inflightOn (sideOf flushSet) (race_inflight s) = 0) by lia.
    unfold sideExact. rewrite Hzero, Haps, Hp.
    rewrite (covering_other s') by (rewrite Hword; exact Hne). rewrite Hnone.
    split; [lia|]. split; [lia|]. split; [exact Hone|].
    eapply Forall_impl; [exact (inflightOn_none _ _ Hp)|]. cbv beta.
    intros ap Hap Hside. contradiction.
Qed.

Lemma raceStep_exact s op s' :
  raceExact s -> keepsCount s op = true -> keepsApart s op = true ->
  raceStep format s op = Some s' -> raceExact s'.
Proof.
  intros Hex Hcount Hapart Hstep. destruct op as [msg category | i | i | i | |].
  - apply (reserve_exact s msg category s' Hex); [|exact Hstep].
    by apply Z.ltb_lt.
  - exact (body_exact s i s' Hex Hstep).
  - exact (load_exact s i s' Hex Hapart Hstep).
  - exact (store_exact s i s' Hex Hstep).
  - exact (swap_exact s s' Hex Hstep).
  - exact (send_exact s s' Hex Hstep).
Qed.

Lemma raceInitial_exact maxLen : raceExact (raceInitial (Msg := Msg) maxLen).
Proof.
  split.
  - unfold raceWords, wordOk, raceInitial, createScribeStreamBuffer.
    cbn [race_batch race_inflight race_flushing activeSet].
    split; [lia|]. split; [constructor | exact I].
  - split; unfold sideExact, covering, inflightOn, loadedOn, raceInitial,
             createScribeStreamBuffer;
      cbn [race_batch race_inflight race_flushing activeSet];
      rewrite !countZ_nil; change (sideOf 0) with 0;
      [change (doneCount (queue _ 0)) with 0 | change (doneCount (queue _ 1)) with 0];
      change (writersOf 0) with 0; cbn [Z.eqb];
      (split; [lia|]); (split; [lia|]); (split; [lia | constructor]).
Qed.

Lemma raceRun_exact ops : forall s s',
  raceExact s -> guarded format keepsCount s ops = true ->
  guarded format keepsApart s ops = true ->
  raceRun format s ops = Some s' -> raceExact s'.
Proof.
  induction ops as [|op ops IH]; intros s s' Hs Hc Ha Hr; cbn [raceRun guarded] in *.
  - apply (inj Some) in Hr. by subst s'.
  - apply andb_prop in Hc as [Hc Hcrest]. apply andb_prop in Ha as [Ha Harest].
    destruct (raceStep format s op) as [s1|] eqn:Hstep; [|discriminate].
    apply (IH s1 s'); [|assumption|assumption|assumption].
    exact (raceStep_exact s op s1 Hs Hc Ha Hstep).
Qed.

(** An appender whose increment nobody interrupts: the body, the read and
    the write in a row add one to the counter of its side. *)
Lemma undisturbed_increment s i t :
  raceBalanced s ->
  race_inflight s !! i = Some (mkAppender t Acquired) ->
  exists s',
    raceRun format s [RaceBody i; RaceLoad i; RaceStore i] = Some s'
    /\ doneCount (queue (race_batch s') (sideOf (t_set t)))
       = doneCount (queue (race_batch s) (sideOf (t_set t))) + 1
    /\ doneCount (queue (race_batch s') (1 - sideOf (t_set t)))
       = doneCount (queue (race_batch s) (1 - sideOf (t_set t))).
Proof.
  intros (Hwords & Hsides) Hi. rewrite both in Hsides.
  pose proof Hwords as (Hw & Haps & Hfl).
  assert (Ht : wordOk (t_set t)) by exact (Forall_lookup_1 _ _ _ _ Haps Hi).
  pose proof (side_of_word _ Ht) as Hst.
  destruct (Hsides _ Hst) as [Hdone _].
  pose proof (inflightOn_delete (sideOf (t_set t)) _ i _ Hi) as Hp.
  rewrite decide_True in Hp by reflexivity.
  pose proof (inflightOn_nonneg (sideOf (t_set t)) (delete i (race_inflight s))) as Hp0.
  pose proof (covering_range s (sideOf (t_set t)) Hwords) as Hcov.
  pose proof (lookup_lt_Some _ _ _ Hi) as Hlt.
  cbn [raceRun raceStep]. rewrite Hi.
  pose proof (body_keeps (race_batch s) (t_set t) (t_msg t) (t_category t))
    as [Hword Hkeep].
  destruct (body format (race_batch s) (t_set t) (t_msg t) (t_category t)) as [[b r] lg].
  cbn [fst] in Hword, Hkeep. cbn [race_batch race_inflight race_flushing].
  rewrite list_lookup_insert_eq by exact Hlt.
  cbn [race_batch race_inflight race_flushing].
  rewrite list_lookup_insert_eq by (by rewrite length_insert).
  eexists. split; [reflexivity|]. cbn [race_batch].
  rewrite doneCount_setDoneCount, Hkeep, u32_small by lia. split; [reflexivity|].
  rewrite queue_setDoneCount_other; [apply Hkeep|].
  destruct Hst as [-> | ->]; done.
Qed.

End Race.



(** Two appenders on one side that read [doneCount] before either of
    them has written it back: both return, one increment is lost, and
    the flush that follows waits for ever. *)
Lemma overlapping_increments_lose_one :
  exists s,
    raceRun plainFormat (raceInitial 10)
      [RaceReserve "a"%string "c"%string; RaceReserve "b"%string "c"%string;
       RaceBody 0; RaceBody 1; RaceLoad 0; RaceLoad 1; RaceStore 0; RaceStore 0] = Some s
    /\ guarded plainFormat keepsCount (raceInitial 10)
         [RaceReserve "a"%string "c"%string; RaceReserve "b"%string "c"%string;
          RaceBody 0; RaceBody 1; RaceLoad 0; RaceLoad 1; RaceStore 0; RaceStore 0] = true
    /\ race_inflight s = []
    /\ sideOf (activeSet (race_batch s)) = 0
    /\ writersOf (activeSet (race_batch s)) = 2
    /\ doneCount (queue (race_batch s) 0) = 1
    /\ raceRun plainFormat s [RaceSwap; RaceSend] = None.
Proof.
  eexists. split; [vm_compute; reflexivity|]. repeat split.
Qed.

(** *** The decision of [Append] *)

Lemma i64_small z : minInt64 <= z <= maxInt64 -> i64 z = z.
Proof.
  unfold i64, minInt64, maxInt64. intros.
  rewrite Z.mod_small by lia. lia.
Qed.

Lemma grow_lookup buf :
  Z.of_nat (length buf) < 2 ^ 31 + 1 ->
  grow buf (Z.of_nat (length buf)) !! length buf = Some None.
Proof.
  intros Hlen. unfold grow, scribeBufferGrowSize.
  rewrite u32_small by lia.
  rewrite firstn_all2 by lia.
  rewrite lookup_app_r by lia. rewrite Nat.sub_diag.
  replace (Z.to_nat (Z.of_nat (length buf) + 256) - length buf)%nat with (S 255) by lia.
  reflexivity.
Qed.

Section Decision.
Context {Msg : Type} (format : Formatter Msg).

(** X1. The three rows of the decision of [Append], for a message length
    and a content length that are not negative and whose sum fits an
    [int]. A message longer than [maxContentLen] is dropped: [Append]
    returns true, logs its size and stores nothing. A message that fits the
    limit but not the room left is refused: false, no log line, nothing
    stored. Otherwise the entry is stored in the slot of the appender, when
    that lies inside the array or right behind its end, where the array
    grows; the content length grows by the length of the message and
    [Append] returns true. *)
Lemma Append_decision (batch : scribeStreamBuffer) (msg : Msg) (category : string) :
  let a := u32 (activeSet batch + 1) in
  let q := queue batch (sideOf a) in
  let n := Len format msg in
  let slot := u32 (writersOf a - 1) in
  let after := (Append format batch msg category).1.1 in
  let returned := (Append format batch msg category).1.2 in
  let logged := (Append format batch msg category).2 in
  0 <= contentLen q -> 0 <= n -> contentLen q + n <= maxInt64 ->
  (maxContentLen batch < n ->
     returned = Returns true /\ logged = [ScribeMessageTooLarge n]
     /\ buffer (queue after (sideOf a)) = buffer q
     /\ contentLen (queue after (sideOf a)) = contentLen q)
  /\ (n <= maxContentLen batch -> maxContentLen batch <= contentLen q + n ->
     returned = Returns false /\ logged = []
     /\ buffer (queue after (sideOf a)) = buffer q
     /\ contentLen (queue after (sideOf a)) = contentLen q)
  /\ (contentLen q + n < maxContentLen batch ->
     slot <= Z.of_nat (length (buffer q)) < 2 ^ 31 ->
     returned = Returns true /\ logged = []
     /\ buffer (queue after (sideOf a)) !! Z.to_nat slot
        = Some (Some {| Category := category; Message := String format msg |})
     /\ contentLen (queue after (sideOf a)) = contentLen q + n).
Proof.
  intros a q n slot after returned logged Hc Hn Hsum.
  subst after returned logged. unfold Append, reserve. cbv beta iota zeta.
  fold a. unfold complete. rewrite queue_setActiveSet. fold q n slot.
  change (maxContentLen (setActiveSet batch a)) with (maxContentLen batch).
  rewrite i64_small by (unfold minInt64, maxInt64 in *; lia).
  assert (Hslot : 0 <= slot) by (apply Z.mod_pos_bound; lia).
  split; [|split].
  - intros Hbig.
    destruct (Z.leb_spec (maxContentLen batch) (contentLen q + n)); [|lia].
    destruct (Z.ltb_spec (maxContentLen batch) n); [|lia].
    cbn [fst snd]. rewrite queue_setQueue_same. by repeat split.
  - intros Hfit Hfull.
    destruct (Z.leb_spec (maxContentLen batch) (contentLen q + n)); [|lia].
    destruct (Z.ltb_spec (maxContentLen batch) n); [lia|].
    cbn [fst snd]. rewrite queue_setQueue_same. by repeat split.
  - intros Hroom [Hin Hlen].
    destruct (Z.leb_spec (maxContentLen batch) (contentLen q + n)); [lia|].
    rewrite (u32_small (Z.of_nat (length (buffer q)))) by lia.
    destruct (Z.eqb_spec slot (Z.of_nat (length (buffer q)))) as [Heq | Hne].
    + rewrite Heq, Nat2Z.id, grow_lookup by lia.
      cbn [fst snd]. rewrite queue_setQueue_same. cbn [buffer contentLen].
      repeat split. apply list_lookup_insert_eq.
      unfold grow, scribeBufferGrowSize. rewrite u32_small by lia.
      rewrite length_app, length_take, length_replicate. lia.
    + destruct (buffer q !! Z.to_nat slot) as [old|] eqn:Hold.
      * cbn [fst snd]. rewrite queue_setQueue_same. cbn [buffer contentLen].
        repeat split. apply list_lookup_insert_eq. by eapply lookup_lt_Some.
      * apply lookup_ge_None in Hold. lia.
Qed.

End Decision.

(** C1. [Append] grows the entry array only when its slot is exactly the
    length of the array. A slot behind that arises when the appender of
    the slot at the end left without storing: a limit of 1000 bytes, 256
    messages of one byte stored in the slots 0 to 255, a message of 2000
    bytes dropped as too large on slot 256, then a message of one byte on
    slot 257. This last call fits the limit and yet neither stores the
    entry nor returns: it panics on the index, the array and the content
    length left as they were. *)
Theorem Append_panics_behind_unfilled_slot :
  let '(batch1, dropped, logged) := Append plainFormat firstBlockStored (payload 2000) "c" in
  let '(batch2, stored, _) := Append plainFormat batch1 "y" "c" in
  dropped = Returns true
  /\ logged = [ScribeMessageTooLarge 2000]
  /\ Len plainFormat "y"%string <= maxContentLen batch1
  /\ contentLen (queue0 batch1) + Len plainFormat "y"%string < maxContentLen batch1
  /\ stored = Panics
  /\ buffer (queue0 batch2) = buffer (queue0 batch1)
  /\ contentLen (queue0 batch2) = contentLen (queue0 batch1)
  /\ doneCount (queue0 batch2) = 258.
Proof. vm_compute. repeat split; discriminate. Qed.

(** C2. A slot whose appender left without storing is still inside the
    slice that [flush] hands to the sink, with whatever it held before.
    For a limit of 10 bytes: (1) a message of 20 bytes is dropped, and the
    flush sends one nil entry; (2) two messages of 4 bytes are stored, a
    third is refused, and the flush sends the two entries and a nil one;
    (3) when the side is active again, a message of 10 bytes is refused on
    slot 0, and the flush sends the entry that the first flush had already
    sent from that slot. *)
Theorem flush_sends_unfilled_slots :
  (let '(batch1, dropped, logged) :=
     Append plainFormat (createScribeStreamBuffer 10) (payload 20) "c" in
   dropped = Returns true
   /\ logged = [ScribeMessageTooLarge 20]
   /\ (flush batch1).2 = Sent [None])
  /\ (let batch2 :=
        appended plainFormat "bbbb" "c" (appended plainFormat "aaaa" "c"
          (createScribeStreamBuffer 10)) in
      (Append plainFormat batch2 "cccc" "c").1.2 = Returns false
      /\ (flush (appended plainFormat "cccc" "c" batch2)).2
         = Sent [Some {| Category := "c"; Message := "aaaa" |};
                 Some {| Category := "c"; Message := "bbbb" |};
                 None])
  /\ (let batch3 := (flush (appended plainFormat "aaaa" "c" (createScribeStreamBuffer 10))).1 in
      let batch4 := (flush (appended plainFormat "bbbb" "c" batch3)).1 in
      (flush (appended plainFormat "aaaa" "c" (createScribeStreamBuffer 10))).2
        = Sent [Some {| Category := "c"; Message := "aaaa" |}]
      /\ (Append plainFormat batch4 (payload 10) "c").1.2 = Returns false
      /\ (flush (appended plainFormat (payload 10) "c" batch4)).2
         = Sent [Some {| Category := "c"; Message := "aaaa" |}]).
Proof. vm_compute. repeat split. Qed.

(** *** A writer count that carries into the side bit *)


Lemma sideOf_low a : 0 <= a < 2 ^ 31 -> sideOf a = 0.
Proof. intros. rewrite sideOf_div. apply Z.div_small. lia. Qed.

Lemma refused_once p :
  0 <= p -> p + 1 < 2 ^ 31 ->
  appended emptyFormat tt EmptyString (refusedTimes p) = refusedTimes (p + 1).
Proof.
  intros H0 H1. unfold appended, Append, reserve, complete, refusedTimes.
  cbv beta iota zeta. cbn [activeSet setActiveSet fst snd].
  rewrite !(u32_small (p + 1)) by lia. rewrite !(sideOf_low (p + 1)) by lia.
  unfold setActiveSet, queue, setQueue, bumpDone, emptyFormat.
  cbn [Z.eqb queue0 queue1 contentLen maxContentLen doneCount buffer Len activeSet].
  change (0 <=? i64 (0 + 0)) with true. change (0 <? 0) with false.
  cbv beta iota. cbn [fst snd queue0 queue1 contentLen maxContentLen doneCount buffer activeSet].
  rewrite (u32_small (p + 1)) by lia. reflexivity.
Qed.

Lemma refused_many (p : positive) :
  Z.pos p < 2 ^ 31 ->
  Pos.iter (appended emptyFormat tt EmptyString) (createScribeStreamBuffer 0) p
  = refusedTimes (Z.pos p).
Proof.
  apply (Pos.iter_ind _ (appended emptyFormat tt EmptyString) (createScribeStreamBuffer 0)
           (fun p b => Z.pos p < 2 ^ 31 -> b = refusedTimes (Z.pos p))).
  - intros _. change (createScribeStreamBuffer 0) with (refusedTimes 0).
    apply (refused_once 0); lia.
  - intros q b IH Hq. rewrite Pos2Z.inj_succ in *. rewrite IH by lia.
    unfold Z.succ. apply refused_once; lia.
Qed.

(** 2^31 appends that no flush interrupts carry the writer count into the
    side bit: the last of them finds side 1 active with a writer count of
    0 and still counts itself done there. *)
Lemma doneCount_exceeds_writers_after_carry :
  let batch :=
    Z.iter 0x80000000 (appended emptyFormat tt EmptyString) (createScribeStreamBuffer 0) in
  sideOf (activeSet batch) = 1
  /\ writersOf (activeSet batch) = 0
  /\ doneCount (queue batch (sideOf (activeSet batch))) = 1
  /\ ~ doneCount (queue batch (sideOf (activeSet batch))) <= writersOf (activeSet batch).
Proof.
  cbv zeta.
  change (Z.iter 0x80000000 ?f ?x) with (Pos.iter f x (Pos.succ 2147483647)).
  rewrite Pos.iter_succ, refused_many by reflexivity.
  set (batch := appended emptyFormat tt EmptyString (refusedTimes 2147483647)).
  assert (Hside : sideOf (activeSet batch) = 1) by (vm_compute; reflexivity).
  assert (Hwriters : writersOf (activeSet batch) = 0) by (vm_compute; reflexivity).
  assert (Hdone : doneCount (queue batch 1) = 1) by (vm_compute; reflexivity).
  rewrite Hside, Hwriters, Hdone. repeat split. lia.
Qed.


End ScribeFacts.

(** ** The file consumer *)

Module FileFacts.
Import GoInt FileConsumer.

#[local] Arguments Z.pow : simpl never.

Lemma HasValue_false conf key : HasValue conf key = false <-> Settings conf !! key = None.
Proof.
  unfold HasValue. rewrite bool_decide_eq_false, <- eq_None_not_Some. reflexivity.
Qed.

Lemma HasValue_true conf key :
  HasValue conf key = true <-> exists value, Settings conf !! key = Some value.
Proof. unfold HasValue. rewrite bool_decide_eq_true. reflexivity. Qed.

Section Configure.
Variable baseConfigure : PluginConfig -> option ConfigError.

(** What [Configure] leaves behind when it succeeds, by the value of the
    [Offset] option. *)
Lemma Configure_ok cons conf :
  baseConfigure conf = None -> HasValue conf "File" = true ->
  let offset := GetString conf "Offset" fileOffsetEnd in
  Configure baseConfigure cons conf =
    ({| file := None;
        fileName := GetString conf "File" "";
        continueFileName := continueFileName cons;
        delimiter := escapeChars (GetString conf "Delimiter" (String LF EmptyString));
        seek := if String.eqb offset fileOffsetStart || String.eqb offset fileOffsetContinue
                then 1 else 2;
        seekOffset := 0;
        persistSeek := String.eqb offset fileOffsetContinue;
        state := state cons |}, None).
Proof.
  intros Hbase Hfile offset. unfold Configure. rewrite Hbase, Hfile. cbn [negb].
  fold offset.
  destruct (String.eqb_spec offset fileOffsetEnd) as [-> | HE]; [reflexivity|].
  destruct (String.eqb_spec offset fileOffsetStart) as [-> | HS]; [reflexivity|].
  destruct (String.eqb_spec offset fileOffsetContinue) as [-> | HC]; reflexivity.
Qed.

End Configure.

(** C7. Given that the [Configure] of the embedded base succeeds,
    [File.Configure] returns an error if and only if the configuration has
    no value for the key File; the error is the consumer error of the
    missing file, and the consumer is left as it was, none of its fields
    configured. *)
Theorem Configure_fails_iff_File_missing
    (baseConfigure : PluginConfig -> option ConfigError) (cons : File) (conf : PluginConfig) :
  baseConfigure conf = None ->
  ((Configure baseConfigure cons conf).2 <> None <-> HasValue conf "File" = false)
  /\ (HasValue conf "File" = false ->
      Configure baseConfigure cons conf
      = (cons, Some (ConsumerError "No file configured for consumer.File"))).
Proof.
  intros Hbase. destruct (HasValue conf "File") eqn:Hfile.
  - rewrite (Configure_ok baseConfigure cons conf Hbase Hfile). cbn [snd].
    split; [|discriminate]. split; [congruence | discriminate].
  - unfold Configure. rewrite Hbase, Hfile. cbn [negb snd].
    split; [|reflexivity]. split; [reflexivity | discriminate].
Qed.

(** A configuration without the key File. *)
Lemma Configure_fails_iff_File_missing_witness :
  (Configure baseAccepts zeroFile {| Settings := {[ "Offset"%string := "Start"%string ]} |}).2
    <> None
  /\ Configure baseAccepts zeroFile {| Settings := {[ "Offset"%string := "Start"%string ]} |}
     = (zeroFile, Some (ConsumerError "No file configured for consumer.File")).
Proof.
  destruct (Configure_fails_iff_File_missing baseAccepts zeroFile
              {| Settings := {[ "Offset"%string := "Start"%string ]} |} eq_refl)
    as [Hiff Herr].
  split; [apply Hiff; reflexivity | apply Herr; reflexivity].
Defined.

(** *** strconv.ParseInt *)

Lemma parseUintLoop_range s : forall n,
  0 <= n <= maxUint64 -> 0 <= (parseUintLoop s n).1 <= maxUint64.
Proof.
  induction s as [|c s IH]; intros n Hn; cbn [parseUintLoop fst]; [assumption|].
  destruct (digitOf c) as [d|] eqn:Hd; [|cbn [fst]; unfold maxUint64; lia].
  assert (0 <= d).
  { unfold digitOf in Hd.
    match type of Hd with context [if ?c then _ else _] => destruct c eqn:E end;
      [|discriminate].
    injection Hd as <-. lia. }
  destruct (Z.leb_spec (maxUint64 / 10 + 1) n); [cbn [fst]; unfold maxUint64; lia|].
  destruct (Z.ltb_spec maxUint64 (n * 10 + d)); [cbn [fst]; unfold maxUint64; lia|].
  apply IH. lia.
Qed.

Lemma ParseUint_range s : 0 <= (ParseUint s).1 <= maxUint64.
Proof.
  destruct s; [cbn; unfold maxUint64; lia|].
  apply parseUintLoop_range. unfold maxUint64. lia.
Qed.

(** The value of [ParseInt] is an [int64]; after a syntax error it is 0. *)
Lemma ParseInt_range s : minInt64 <= (ParseInt s).1 <= maxInt64.
Proof.
  unfold ParseInt. destruct s as [|c rest]; [cbn; unfold minInt64, maxInt64; lia|].
  set (digits := if (Ascii.eqb c "+" || Ascii.eqb c "-")%bool then rest else String c rest).
  pose proof (ParseUint_range digits) as Hr.
  destruct (ParseUint digits) as [un [[]|]]; cbn [fst] in *;
    try (unfold minInt64, maxInt64; lia);
    destruct (Ascii.eqb c "-"); cbn [negb andb];
    repeat match goal with
    | |- context [if ?a <=? ?b then _ else _] => destruct (Z.leb_spec a b)
    | |- context [if ?a <? ?b then _ else _] => destruct (Z.ltb_spec a b)
    end; cbn [fst]; unfold minInt64, maxInt64 in *; lia.
Qed.

Lemma ParseInt_syntax s : (ParseInt s).2 = Some ErrSyntax -> (ParseInt s).1 = 0.
Proof.
  unfold ParseInt. destruct s as [|c rest]; [reflexivity|].
  set (digits := if (Ascii.eqb c "+" || Ascii.eqb c "-")%bool then rest else String c rest).
  destruct (ParseUint digits) as [un [[]|]]; cbn [fst snd]; try reflexivity;
    destruct (Ascii.eqb c "-"); cbn [negb andb];
    repeat match goal with
    | |- context [if ?a <=? ?b then _ else _] => destruct (Z.leb_spec a b)
    | |- context [if ?a <? ?b then _ else _] => destruct (Z.ltb_spec a b)
    end; cbn [fst snd]; discriminate.
Qed.

(** *** The file handle *)

Lemma Seek_current w f offset :
  0 <= f_pos f + offset <= maxInt64 ->
  Seek w f offset 1 = ({| f_path := f_path f; f_pos := f_pos f + offset |}, f_pos f + offset).
Proof.
  intros H. unfold Seek. cbn [Z.eqb Pos.eqb].
  destruct (Z.leb_spec 0 (f_pos f + offset)); [|lia].
  destruct (Z.leb_spec (f_pos f + offset) maxInt64); [|lia]. reflexivity.
Qed.

Lemma Seek_end w f content :
  files w !! f_path f = Some content ->
  Z.of_nat (String.length content) <= maxInt64 ->
  Seek w f 0 2
  = ({| f_path := f_path f; f_pos := Z.of_nat (String.length content) |},
     Z.of_nat (String.length content)).
Proof.
  intros Hc Hlen. unfold Seek. cbn [Z.eqb Pos.eqb]. rewrite Hc, Z.add_0_r.
  destruct (Z.leb_spec 0 (Z.of_nat (String.length content))); [|lia].
  destruct (Z.leb_spec (Z.of_nat (String.length content)) maxInt64); [|lia]. reflexivity.
Qed.

(** *** [initFile] *)

Lemma realFileName_fileName w cons cons' :
  fileName cons' = fileName cons -> realFileName w cons' = realFileName w cons.
Proof. unfold realFileName. intros ->. reflexivity. Qed.

(** [initFile] on a consumer that holds no file. *)
Lemma initFile_closed w cons :
  file cons = None ->
  initFile w cons
  = (setState
       (if persistSeek cons
        then withSeekOffset
               (withContinueFileName cons
                  ("/tmp/gollum" ++ pathDelimiter (realFileName w cons) ++ ".idx")%string)
               (indexOffset w cons)
        else cons)
       fileStateRead, []).
Proof.
  intros Hf. unfold initFile, indexOffset. rewrite Hf.
  destruct (persistSeek cons); [|reflexivity].
  cbn [continueFileName withSeekOffset withContinueFileName].
  destruct (ReadFile w _); reflexivity.
Qed.

(** *** The first pass of the loop *)

(** The pass that opens the file: [Consume] has set the state to
    [fileStateOpen], no file is held, and the file can be opened. The pass
    runs [initFile], opens the file, seeks by the configured mode from the
    offset [initFile] left, and only then reads. *)
Lemma first_pass w cons content :
  file cons = None ->
  files w !! realFileName w cons = Some content ->
  let opened := (initFile w (setState cons fileStateOpen)).1 in
  let name := realFileName w cons in
  let sought := Seek w {| f_path := name; f_pos := 0 |} (seekOffset opened) (seek cons) in
  readIter w (Consume cons)
  = (let '(w', l', ev) :=
       tryRead w
         {| loopCons := withSeekOffset (withFile opened (Some sought.1)) sought.2;
            loopBuffer :=
              Reset (NewBufferedReader fileBufferGrowSize 0 (delimiter cons))
                (u64 (seekOffset opened));
            loopPersist := persistSeek cons;
            printFileOpenError := true |} in
     (w', l', [EvOpen name true; EvSeek name (seekOffset opened) (seek cons)] ++ ev)).
Proof.
  intros Hf Hc opened name sought.
  unfold readIter, Consume, readEnter, openStage.
  cbn [loopCons loopBuffer loopPersist printFileOpenError state setState file
       fileState_eqb persistSeek delimiter].
  rewrite Hf.
  assert (Hinit : initFile w (setState cons fileStateOpen) = (opened, [])).
  { subst opened. rewrite initFile_closed by exact Hf. reflexivity. }
  rewrite Hinit.
  assert (Hopened : state opened = fileStateRead /\ file opened = None
                    /\ fileName opened = fileName cons /\ seek opened = seek cons).
  { subst opened. rewrite initFile_closed by exact Hf. cbn [fst].
    destruct (persistSeek (setState cons fileStateOpen)); cbn; auto. }
  destruct Hopened as (Hst & Hfile & Hname & Hseek).
  unfold tryOpen. cbn [loopCons loopBuffer loopPersist printFileOpenError].
  rewrite Hst, Hfile. cbn [fileState_eqb andb]. rewrite bool_decide_eq_true_2 by reflexivity.
  rewrite (realFileName_fileName w cons opened Hname). fold name.
  unfold OpenFile. fold name in Hc. rewrite Hc, Hseek. fold sought.
  destruct sought as [f' pos] eqn:Hs. cbn [fst snd app].
  destruct (tryRead w _) as [[w3 l3] ev3]. reflexivity.
Qed.

Lemma Seek_path w f offset whence : f_path (Seek w f offset whence).1 = f_path f.
Proof.
  unfold Seek.
  repeat match goal with
  | |- context [if ?c then _ else _] => destruct c
  | |- context [match ?o with Some _ => _ | None => _ end] => destruct o
  end; reflexivity.
Qed.

Lemma indexOffset_range w cons : minInt64 <= indexOffset w cons <= maxInt64.
Proof.
  unfold indexOffset. destruct (ReadFile w _); [apply ParseInt_range|].
  unfold minInt64, maxInt64. lia.
Qed.

(** The same pass, with the offset that [initFile] leaves spelled out:
    the offset of the index file when the consumer persists, the
    configured one otherwise. *)
Lemma first_pass_seek w cons content :
  file cons = None ->
  files w !! realFileName w cons = Some content ->
  let name := realFileName w cons in
  let from := if persistSeek cons then indexOffset w cons else seekOffset cons in
  exists l : ReadLoop,
    readIter w (Consume cons)
    = (let '(w', l', ev) := tryRead w l in
       (w', l', [EvOpen name true; EvSeek name from (seek cons)] ++ ev))
    /\ file (loopCons l)
       = Some (Seek w {| f_path := name; f_pos := 0 |} from (seek cons)).1
    /\ loopPersist l = persistSeek cons.
Proof.
  intros Hnone Hc name from.
  pose proof (first_pass w cons content Hnone Hc) as Hpass. cbv zeta in Hpass.
  rewrite (initFile_closed w (setState cons fileStateOpen) Hnone) in Hpass.
  cbn [fst] in Hpass. fold name in Hpass.
  assert (Hfrom :
    seekOffset
      (setState
         (if persistSeek (setState cons fileStateOpen)
          then withSeekOffset
                 (withContinueFileName (setState cons fileStateOpen)
                    ("/tmp/gollum"
                     ++ pathDelimiter (realFileName w (setState cons fileStateOpen))
                     ++ ".idx")%string)
                 (indexOffset w (setState cons fileStateOpen))
          else setState cons fileStateOpen)
         fileStateRead) = from).
  { subst from. cbn [persistSeek setState]. destruct (persistSeek cons); reflexivity. }
  rewrite Hfrom in Hpass.
  eexists. split; [exact Hpass|]. split; reflexivity.
Qed.



(** C8. With Offset End a later opening of the file does not seek to its
    end. [Configure] gives whence 2 with offset 0, and the first opening
    seeks to the end of a.log, which is 4 bytes long, so that a line
    appended afterwards is delivered. The loop stores the position that
    [Seek] returned, 4, in [seekOffset], and [initFile] resets
    [seekOffset] only for a consumer that persists: after a roll the file
    is opened again with [Seek(4, 2)], the offset is 8 in a file of 4
    bytes, and the line appended afterwards is not delivered. *)
Theorem reopen_in_End_mode_seeks_past_the_end :
  (seek (tailing "End") = 2 /\ seekOffset (tailing "End") = 0
   /\ persistSeek (tailing "End") = false)
  /\ (readLoop [idle; changed (appendTo "/var/log/a.log" (String "c" (String LF EmptyString)))]
        (logDir "a.log" ∅) (Consume (tailing "End"))).2
     = [EvOpen "/var/log/a.log" true; EvSeek "/var/log/a.log" 0 2; EvGosched;
        EvPost "c" 0]
  /\ (readLoop [idle; roll id;
                changed (appendTo "/var/log/a.log" (String "c" (String LF EmptyString)))]
        (logDir "a.log" ∅) (Consume (tailing "End"))).2
     = [EvOpen "/var/log/a.log" true; EvSeek "/var/log/a.log" 0 2; EvGosched;
        EvClose "/var/log/a.log";
        EvOpen "/var/log/a.log" true; EvSeek "/var/log/a.log" 4 2; EvGosched;
        EvGosched]
  /\ file (loopCons (readLoop [idle; roll id] (logDir "a.log" ∅)
                       (Consume (tailing "End"))).1.2)
     = Some {| f_path := "/var/log/a.log"; f_pos := 8 |}
  /\ files (logDir "a.log" ∅) !! "/var/log/a.log"%string
     = Some (String "a" (String LF (String "b" (String LF EmptyString)))).
Proof. repeat split; vm_compute; reflexivity. Qed.

(** C10. A value of the Offset option that is none of the strings Start,
    End and Current, compared byte by byte, is read as End: [Configure]
    reports no error and sets whence 2 from offset 0 without persistence,
    and the pass of the loop that opens the file starts to read at the end
    of the file. *)
Theorem unknown_Offset_is_read_as_End
    (baseConfigure : PluginConfig -> option ConfigError) (cons : File) (conf : PluginConfig)
    (value : string) (w : World) (content : string) :
  baseConfigure conf = None ->
  HasValue conf "File" = true ->
  Settings conf !! "Offset"%string = Some value ->
  value <> fileOffsetStart -> value <> fileOffsetEnd -> value <> fileOffsetContinue ->
  files w !! realFileName w (Configure baseConfigure cons conf).1 = Some content ->
  Z.of_nat (String.length content) <= maxInt64 ->
  let configured := (Configure baseConfigure cons conf).1 in
  let name := realFileName w configured in
  (Configure baseConfigure cons conf).2 = None
  /\ seek configured = 2 /\ seekOffset configured = 0 /\ persistSeek configured = false
  /\ exists l : ReadLoop,
      readIter w (Consume configured)
      = (let '(w', l', ev) := tryRead w l in
         (w', l', [EvOpen name true; EvSeek name 0 2] ++ ev))
      /\ file (loopCons l)
         = Some {| f_path := name; f_pos := Z.of_nat (String.length content) |}
      /\ loopPersist l = false.
Proof.
  intros Hbase Hfile Hvalue HS HE HC Hc Hlen configured name.
  assert (Hconf := Configure_ok baseConfigure cons conf Hbase Hfile).
  cbv zeta in Hconf.
  assert (Hoff : GetString conf "Offset" fileOffsetEnd = value)
    by (unfold GetString; rewrite Hvalue; reflexivity).
  rewrite Hoff in Hconf.
  apply String.eqb_neq in HS, HC. rewrite HS, HC in Hconf. cbn [orb] in Hconf.
  assert (Hnone : file configured = None) by (subst configured; rewrite Hconf; reflexivity).
  destruct (first_pass_seek w configured content Hnone Hc) as (l & Hpass & Hheld & Hpersist).
  fold name in Hpass, Hheld.
  assert (Hcontent : files w !! f_path {| f_path := name; f_pos := 0 |} = Some content)
    by exact Hc.
  subst configured. rewrite Hconf in *. cbn [fst snd seek seekOffset persistSeek] in *.
  repeat (split; [reflexivity|]).
  exists l. rewrite (Seek_end _ _ content Hcontent Hlen) in Hheld. auto.
Qed.

(** Offset: end, in lower case. *)
Lemma unknown_Offset_is_read_as_End_witness :
  (Configure baseAccepts zeroFile
     {| Settings := {[ "File"%string := "current.log"%string;
                       "Offset"%string := "end"%string ]} |}).2 = None
  /\ seek (tailing "end") = 2 /\ persistSeek (tailing "end") = false.
Proof.
  destruct (unknown_Offset_is_read_as_End baseAccepts zeroFile
              {| Settings := {[ "File"%string := "current.log"%string;
                                "Offset"%string := "end"%string ]} |}
              "end" (logDir "a.log" ∅)
              (String "a" (String LF (String "b" (String LF EmptyString)))))
    as (Herr & Hseek & _ & Hpersist & _);
    [reflexivity | vm_compute; reflexivity | vm_compute; reflexivity
    | discriminate | discriminate | discriminate
    | vm_compute; reflexivity | vm_compute; discriminate |].
  split; [exact Herr|]. split; [exact Hseek | exact Hpersist].
Defined.

(** *** Failed opens *)

Lemma tryRead_keeps_flag w l :
  printFileOpenError (tryRead w l).1.2 = printFileOpenError l.
Proof.
  unfold tryRead. destruct (file (loopCons l)); [|reflexivity].
  destruct (fileState_eqb (state (loopCons l)) fileStateRead); [|reflexivity].
  destruct (bufferRead _ _ _ _) as [[[[w' cons'] buf'] err] ev].
  destruct err; try reflexivity;
    destruct (fileState_eqb (state cons') fileStateRead); reflexivity.
Qed.

Lemma countOf_app p ev1 ev2 : countOf p (ev1 ++ ev2) = (countOf p ev1 + countOf p ev2)%nat.
Proof. unfold countOf. rewrite List.filter_app, length_app. reflexivity. Qed.

Lemma initFile_state w cons : state (initFile w cons).1 = fileStateRead.
Proof.
  unfold initFile. destruct (file cons); destruct (persistSeek _); reflexivity.
Qed.

Section Silent.
(** Events that neither the callbacks of the reader nor [initFile] give. *)
Variable q : Event -> bool.
Hypothesis q_post : forall data seq, q (EvPost data seq) = false.
Hypothesis q_seek : forall name offset whence, q (EvSeek name offset whence) = false.
Hypothesis q_write : forall name content mode, q (EvWriteFile name content mode) = false.
Hypothesis q_close : forall name, q (EvClose name) = false.

Lemma onMessageOf_silent p w cons data seq :
  countOf q (onMessageOf p w cons data seq).2 = 0%nat.
Proof.
  destruct p; cbn [onMessageOf].
  - unfold postAndPersist.
    destruct (file cons) as [f|]; [destruct (Seek w f 0 1) as [f' pos]|];
      destruct (WriteFile _ _ _); cbn [snd]; unfold countOf; cbn [List.filter app];
      rewrite ?q_post, ?q_seek, ?q_write; reflexivity.
  - unfold postOnly, countOf. cbn [snd List.filter]. rewrite q_post. reflexivity.
Qed.

Lemma deliver_silent p frames : forall w cons seq,
  countOf q (deliver (onMessageOf p) w cons seq frames).2 = 0%nat.
Proof.
  induction frames as [|frame frames IH]; intros w cons seq; [reflexivity|].
  cbn [deliver].
  pose proof (onMessageOf_silent p w cons frame seq) as Hq.
  destruct (onMessageOf p w cons frame seq) as [[w1 cons1] ev1].
  specialize (IH w1 cons1 (u64 (seq + 1))).
  destruct (deliver (onMessageOf p) w1 cons1 (u64 (seq + 1)) frames)
    as [[[w2 cons2] seq2] ev2].
  cbn [fst snd] in *. by rewrite countOf_app, Hq, IH.
Qed.

Lemma bufferRead_silent p w cons buf :
  countOf q (bufferRead (onMessageOf p) w cons buf).2 = 0%nat.
Proof.
  unfold bufferRead. destruct (file cons) as [f|]; [|reflexivity].
  destruct (_ && _); [reflexivity|].
  destruct (files w !! f_path f); [|reflexivity].
  destruct (substring _ _ _); [reflexivity|].
  destruct (splitFrames _ _) as [frames partial].
  match goal with |- context [deliver (onMessageOf p) w ?c ?seq frames] =>
    pose proof (deliver_silent p frames w c seq) as Hq;
    destruct (deliver (onMessageOf p) w c seq frames) as [[[w' cons'] seq'] events]
  end.
  exact Hq.
Qed.

Lemma initFile_silent w cons :
  countOf q (initFile w cons).2 = 0%nat /\ file (initFile w cons).1 = None.
Proof.
  unfold initFile. destruct (file cons) as [f|] eqn:Hf; cbn [fst snd].
  - unfold countOf. cbn [List.filter]. rewrite q_close. split; [reflexivity|].
    cbn [persistSeek withFile]. destruct (persistSeek cons); [|reflexivity].
    destruct (ReadFile w _); reflexivity.
  - split; [reflexivity|]. destruct (persistSeek cons); [|exact Hf].
    destruct (ReadFile w _); exact Hf.
Qed.

(** The stage of [fileStateOpen] in a pass that comes to the open. *)
Lemma openStage_comes w l :
  comesToOpen l ->
  state (loopCons (openStage w l).1.2) = fileStateRead
  /\ file (loopCons (openStage w l).1.2) = None
  /\ printFileOpenError (openStage w l).1.2 = printFileOpenError l
  /\ loopPersist (openStage w l).1.2 = loopPersist l
  /\ countOf q (openStage w l).2 = 0%nat.
Proof.
  intros [Hopen | [Hread Hnone]]; unfold openStage.
  - rewrite Hopen. cbn [fileState_eqb].
    destruct (file (loopCons l)) as [f|] eqn:Hf.
    + pose proof (bufferRead_silent (loopPersist l) w (loopCons l) (loopBuffer l)) as Hq.
      destruct (bufferRead _ w (loopCons l) (loopBuffer l)) as [[[[w' cons'] buf'] err] ev].
      cbn [snd] in Hq. cbv beta iota zeta.
      pose proof (initFile_state w' cons') as Hs.
      pose proof (initFile_silent w' cons') as [Hq2 Hf2].
      destruct (initFile w' cons') as [cons2 ev2]. cbn [fst snd loopCons] in *.
      rewrite countOf_app, Hq, Hq2. auto.
    + cbv beta iota zeta.
      pose proof (initFile_state w (loopCons l)) as Hs.
      pose proof (initFile_silent w (loopCons l)) as [Hq2 Hf2].
      destruct (initFile w (loopCons l)) as [cons2 ev2]. cbn [fst snd loopCons] in *.
      cbn [app]. rewrite Hq2. auto.
  - rewrite Hread. cbn [fileState_eqb fst snd]. auto.
Qed.

End Silent.

Lemma controlled_flag l c : printFileOpenError (controlled l c) = printFileOpenError l.
Proof. destruct c; reflexivity. Qed.

(** A pass that comes to the open, and whose open fails. *)
Lemma failed_pass w l :
  comesToOpen l ->
  OpenFile (openStage w l).1.1
    (realFileName (openStage w l).1.1 (loopCons (openStage w l).1.2)) = None ->
  readIter w l
  = ((openStage w l).1.1,
     {| loopCons := loopCons (openStage w l).1.2;
        loopBuffer := loopBuffer (openStage w l).1.2;
        loopPersist := loopPersist l; printFileOpenError := false |},
     (openStage w l).2
     ++ EvOpen (realFileName (openStage w l).1.1 (loopCons (openStage w l).1.2)) false
        :: (if printFileOpenError l then [EvLogError "File open error"] else [])
        ++ [EvSleep 3]).
Proof.
  intros Hcome Hfail. unfold readIter.
  destruct (openStage_comes isSleep ltac:(reflexivity) ltac:(reflexivity)
              ltac:(reflexivity) ltac:(reflexivity) w l Hcome)
    as (Hst & Hnone & Hflag & Hpersist & _).
  destruct (openStage w l) as [[w1 l1] ev1]. cbn [fst snd] in *.
  unfold tryOpen. rewrite Hst, Hnone. cbn [fileState_eqb andb].
  rewrite bool_decide_eq_true_2 by reflexivity. rewrite Hfail, Hflag, Hpersist.
  reflexivity.
Qed.

(** A pass that comes to the open, and whose open succeeds. *)
Lemma opened_pass w l :
  comesToOpen l ->
  OpenFile (openStage w l).1.1
    (realFileName (openStage w l).1.1 (loopCons (openStage w l).1.2)) <> None ->
  printFileOpenError (readIter w l).1.2 = true
  /\ countOf isOpenErrorLog (readIter w l).2 = 0%nat
  /\ countOf isSleep (readIter w l).2 = 0%nat.
Proof.
  intros Hcome Hok. unfold readIter.
  destruct (openStage_comes isSleep ltac:(reflexivity) ltac:(reflexivity)
              ltac:(reflexivity) ltac:(reflexivity) w l Hcome)
    as (Hst & Hnone & _ & _ & Hsleep1).
  destruct (openStage_comes isOpenErrorLog ltac:(reflexivity) ltac:(reflexivity)
              ltac:(reflexivity) ltac:(reflexivity) w l Hcome)
    as (_ & _ & _ & _ & Hlog1).
  destruct (openStage w l) as [[w1 l1] ev1]. cbn [fst snd] in *.
  unfold tryOpen. rewrite Hst, Hnone. cbn [fileState_eqb andb].
  rewrite bool_decide_eq_true_2 by reflexivity.
  destruct (OpenFile w1 _) as [f|]; [|contradiction].
  destruct (Seek w1 f _ _) as [f' pos].
  match goal with |- context [tryRead w1 ?l2] =>
    pose proof (tryRead_keeps_flag w1 l2) as Hkeep;
    assert (Hread : countOf isOpenErrorLog (tryRead w1 l2).2 = 0%nat
                    /\ countOf isSleep (tryRead w1 l2).2 = 0%nat);
    [|destruct (tryRead w1 l2) as [[w3 l3] ev3]]
  end.
  { unfold tryRead. cbn [loopCons file withSeekOffset withFile].
    destruct (fileState_eqb _ _); [|split; reflexivity].
    match goal with |- context [bufferRead (onMessageOf ?p) w1 ?c ?b] =>
      pose proof (bufferRead_silent isOpenErrorLog ltac:(reflexivity) ltac:(reflexivity)
                    ltac:(reflexivity) p w1 c b) as Hq1;
      pose proof (bufferRead_silent isSleep ltac:(reflexivity) ltac:(reflexivity)
                    ltac:(reflexivity) p w1 c b) as Hq2;
      destruct (bufferRead (onMessageOf p) w1 c b) as [[[[w' cons'] buf'] err] ev]
    end.
    cbn [snd] in Hq1, Hq2.
    destruct err; cbn [snd]; rewrite ?countOf_app, ?Hq1, ?Hq2; try (split; reflexivity);
      destruct (fileState_eqb (state cons') fileStateRead); cbn [snd];
      rewrite ?countOf_app, ?Hq1, ?Hq2; split; reflexivity. }
  cbn [fst snd] in *. destruct Hread as [Hlog3 Hsleep3].
  rewrite !countOf_app, Hlog1, Hsleep1, Hlog3, Hsleep3. auto.
Qed.

(** A streak of failed opens: one sleep for each, the flag down behind
    the first, and one log line when the flag was up. *)
Lemma failed_streak stimuli : forall w l,
  failedOpens stimuli w l ->
  printFileOpenError (readLoop stimuli w l).1.2
  = (printFileOpenError l && bool_decide (stimuli = []))
  /\ countOf isOpenErrorLog (readLoop stimuli w l).2
     = (if printFileOpenError l && negb (bool_decide (stimuli = [])) then 1 else 0)%nat
  /\ countOf isSleep (readLoop stimuli w l).2 = length stimuli
  /\ (stimuli <> [] ->
      state (loopCons (readLoop stimuli w l).1.2) = fileStateRead
      /\ file (loopCons (readLoop stimuli w l).1.2) = None).
Proof.
  induction stimuli as [|s stimuli IH]; intros w l Hfail.
  - cbn [readLoop fst snd length].
    rewrite (bool_decide_eq_true_2 (@nil Stimulus = [])) by reflexivity.
    rewrite andb_true_r, andb_false_r. repeat split; try reflexivity; congruence.
  - cbn [failedOpens] in Hfail. destruct Hfail as (Hcome & Hopen & Hrest).
    cbn [readLoop].
    assert (Hdone : fileState_eqb (state (loopCons (controlled l (control s))))
                      fileStateDone = false).
    { destruct Hcome as [-> | [-> _]]; reflexivity. }
    rewrite Hdone.
    destruct (openStage_comes isSleep ltac:(reflexivity) ltac:(reflexivity)
                ltac:(reflexivity) ltac:(reflexivity) (env s w) _ Hcome)
      as (Hst & Hnone & _ & _ & Hsleep1).
    destruct (openStage_comes isOpenErrorLog ltac:(reflexivity) ltac:(reflexivity)
                ltac:(reflexivity) ltac:(reflexivity) (env s w) _ Hcome)
      as (_ & _ & _ & _ & Hlog1).
    rewrite (failed_pass (env s w) _ Hcome Hopen) in Hrest |- *.
    cbn [fst snd] in Hrest. rewrite controlled_flag.
    match type of Hrest with failedOpens _ ?w1 ?l1 =>
      destruct (IH w1 l1 Hrest) as (Hflag & Hlogs & Hsleeps & Hend);
      destruct (readLoop stimuli w1 l1) as [[w2 l2] ev2] eqn:Hloop
    end.
    cbn [fst snd printFileOpenError andb] in *.
    rewrite (bool_decide_eq_false_2 (s :: stimuli = [])) by discriminate.
    rewrite andb_false_r. cbn [negb]. rewrite andb_true_r.
    rewrite !countOf_app, Hlog1, Hsleep1, Hflag.
    change (EvOpen ?n false :: ?a ++ ?b) with ([EvOpen n false] ++ a ++ b).
    rewrite !countOf_app, Hlogs, Hsleeps.
    split; [reflexivity|]. split; [|split].
    + destruct (printFileOpenError l); reflexivity.
    + destruct (printFileOpenError l); cbn [length]; reflexivity.
    + intros _. destruct stimuli as [|s' stimuli'].
      * cbn [readLoop] in Hloop. injection Hloop as _ <- _. cbn [loopCons]. auto.
      * apply Hend. discriminate.
Qed.



(** *** Which file a later open finds *)

(** C4. [read] calls [realFileName], and with it [filepath.EvalSymlinks],
    for every open, so that nothing binds the consumer to the path found
    first. The link current.log points to a.log when the consumer starts
    and is pointed to b.log afterwards: (1) on a roll the consumer closes
    a.log and opens b.log; (2) when a.log is removed and the read fails,
    the consumer closes a.log and opens b.log. *)
Theorem reopen_follows_the_retargeted_link :
  (readLoop [idle; {| env := retarget "b.log"; control := Some fileStateOpen |}]
     (logDir "a.log" ∅) (Consume (tailing "Start"))).2
  = [EvOpen "/var/log/a.log" true; EvSeek "/var/log/a.log" 0 1;
     EvPost "a" 0; EvPost "b" 1;
     EvClose "/var/log/a.log";
     EvOpen "/var/log/b.log" true; EvSeek "/var/log/b.log" 0 1;
     EvPost "c" 0]
  /\ (readLoop [idle; changed (fun w => removed "/var/log/a.log" (retarget "b.log" w)); idle]
        (logDir "a.log" ∅) (Consume (tailing "Start"))).2
     = [EvOpen "/var/log/a.log" true; EvSeek "/var/log/a.log" 0 1;
        EvPost "a" 0; EvPost "b" 1;
        EvLogError "Error reading file"; EvClose "/var/log/a.log";
        EvOpen "/var/log/b.log" true; EvSeek "/var/log/b.log" 0 1;
        EvPost "c" 2].
Proof. split; vm_compute; reflexivity. Qed.

(** *** The persisted offset *)

Lemma Seek_here w f :
  0 <= f_pos f <= maxInt64 -> Seek w f 0 1 = (f, f_pos f).
Proof.
  intros H. rewrite Seek_current by lia. rewrite Z.add_0_r. destruct f. reflexivity.
Qed.

(** C5, as amended. A consumer that persists has [postAndPersist] for the
    callback of its reader. For every frame handed to it, the callback
    (1) asks the file for its current offset, which is the offset behind
    the last byte read from the file, and records it, (2) posts the frame
    with the sequence number it was given, (3) writes the recorded offset
    in decimal to the index file with mode 0644. The result of the write
    is dropped: when it fails the file system is as before, and the
    consumer and the posted message are the same either way. *)
Theorem postAndPersist_seeks_posts_writes
    (w : World) (cons : File) (f : OsFile) (data : string) (sequence : Z) :
  persistSeek cons = true ->
  file cons = Some f ->
  0 <= f_pos f <= maxInt64 ->
  onMessageOf (loopPersist (Consume cons)) w cons data sequence
  = ((WriteFile w (continueFileName cons) (FormatInt (f_pos f))).1,
     withSeekOffset cons (f_pos f),
     [EvSeek (f_path f) 0 1;
      EvPost data sequence;
      EvWriteFile (continueFileName cons) (FormatInt (f_pos f)) indexFileMode])
  /\ indexFileMode = 6 * 8 ^ 2 + 4 * 8 + 4
  /\ (writable w (continueFileName cons) = false ->
      (WriteFile w (continueFileName cons) (FormatInt (f_pos f))).1 = w)
  /\ (writable w (continueFileName cons) = true ->
      files (WriteFile w (continueFileName cons) (FormatInt (f_pos f))).1
        !! continueFileName cons = Some (FormatInt (f_pos f))).
Proof.
  intros Hpersist Hfile Hpos. split; [|split; [reflexivity|split]].
  - unfold Consume, readEnter. cbn [loopPersist persistSeek setState].
    rewrite Hpersist. unfold onMessageOf, postAndPersist.
    rewrite Hfile, (Seek_here w f Hpos).
    assert (Hsame : withSeekOffset (withFile cons (Some f)) (f_pos f)
                    = withSeekOffset cons (f_pos f)).
    { destruct cons. cbn in Hfile |- *. by rewrite Hfile. }
    rewrite Hsame. cbn [seekOffset continueFileName withSeekOffset].
    destruct (WriteFile w (continueFileName cons) (FormatInt (f_pos f))). reflexivity.
  - intros Hro. unfold WriteFile. rewrite Hro. reflexivity.
  - intros Hrw. unfold WriteFile. rewrite Hrw. cbn [fst files]. apply lookup_insert_eq.
Qed.

(** The callback at offset 4 of a.log, with an index file that cannot be
    written. *)
Lemma postAndPersist_seeks_posts_writes_witness :
  onMessageOf true
    {| EvalSymlinks := fun name => Some name; Abs := fun name => Some name;
       files := ∅; writable := fun _ => false |}
    (withFile (tailing "Current") (Some {| f_path := "/var/log/a.log"; f_pos := 4 |}))
    "b" 1
  = ({| EvalSymlinks := fun name => Some name; Abs := fun name => Some name;
        files := ∅; writable := fun _ => false |},
     withSeekOffset
       (withFile (tailing "Current") (Some {| f_path := "/var/log/a.log"; f_pos := 4 |})) 4,
     [EvSeek "/var/log/a.log" 0 1; EvPost "b" 1; EvWriteFile "" "4" 420]).
Proof.
  destruct (postAndPersist_seeks_posts_writes
              {| EvalSymlinks := fun name => Some name; Abs := fun name => Some name;
                 files := ∅; writable := fun _ => false |}
              (withFile (tailing "Current") (Some {| f_path := "/var/log/a.log"; f_pos := 4 |}))
              {| f_path := "/var/log/a.log"; f_pos := 4 |} "b" 1)
    as (Hcall & _ & Hfail & _);
    [reflexivity | reflexivity | vm_compute; split; discriminate |].
  rewrite Hfail in Hcall by reflexivity. exact Hcall.
Defined.

(** C5, counterexample. The consumer persists and finds a.log with the
    two lines a and b. One read takes the four bytes, and the callback
    runs for each of the two frames behind it: for the frame a, whose
    delimiter ends at byte 2, it writes 4 to the index file. *)
Lemma persisted_offset_is_not_the_end_of_the_frame :
  (readIter (logDir "a.log" ∅) (Consume (tailing "Current"))).2
  = [EvOpen "/var/log/a.log" true; EvSeek "/var/log/a.log" 0 1;
     EvSeek "/var/log/a.log" 0 1; EvPost "a" 0;
     EvWriteFile "/tmp/gollum_var_log_a_log.idx" "4" 420;
     EvSeek "/var/log/a.log" 0 1; EvPost "b" 1;
     EvWriteFile "/tmp/gollum_var_log_a_log.idx" "4" 420]
  /\ Z.of_nat (String.length (String "a" (String LF EmptyString))) = 2
  /\ FormatInt 2 <> "4"%string.
Proof. split; [vm_compute; reflexivity | split; [reflexivity | discriminate]]. Qed.

(** *** The offset that [initFile] loads *)

(** In persisting mode [initFile] leaves the value of [ParseInt] on the
    content of the index file, and 0 when there is no such file; the value
    is 0 when the content is not a decimal number. *)
Lemma initFile_offset w cons :
  persistSeek cons = true ->
  seekOffset (initFile w cons).1 = indexOffset w cons
  /\ (forall contents,
        ReadFile w ("/tmp/gollum" ++ pathDelimiter (realFileName w cons) ++ ".idx")%string
          = Some contents ->
        (ParseInt contents).2 = Some ErrSyntax -> indexOffset w cons = 0)
  /\ (ReadFile w ("/tmp/gollum" ++ pathDelimiter (realFileName w cons) ++ ".idx")%string = None ->
      indexOffset w cons = 0).
Proof.
  intros Hp. split; [|split].
  - unfold initFile, indexOffset.
    destruct (file cons); cbn [persistSeek withFile]; rewrite Hp;
      cbn [continueFileName withSeekOffset withContinueFileName];
      (destruct (ReadFile w _); reflexivity).
  - intros contents Hread Hsyntax. unfold indexOffset. rewrite Hread.
    by apply ParseInt_syntax.
  - intros Hread. unfold indexOffset. by rewrite Hread.
Qed.

(** C6. [initFile] sets [seekOffset] to 0 and then assigns to it whatever
    [strconv.ParseInt] returns for the content of the index file, the
    error unchecked. For a decimal number that does not fit 64 bits
    [ParseInt] fails with a range error and returns the largest [int64]:
    with 9223372036854775808 in the index file the parse fails and
    [seekOffset] is 9223372036854775807, not 0. *)
Theorem initFile_keeps_the_clamped_offset :
  ReadFile
    (logDir "a.log" {[ "/tmp/gollum_var_log_a_log.idx"%string := "9223372036854775808"%string ]})
    "/tmp/gollum_var_log_a_log.idx" = Some "9223372036854775808"%string
  /\ ParseInt "9223372036854775808" = (9223372036854775807, Some ErrRange)
  /\ seekOffset
       (initFile
          (logDir "a.log"
             {[ "/tmp/gollum_var_log_a_log.idx"%string := "9223372036854775808"%string ]})
          (tailing "Current")).1 = 9223372036854775807
  /\ state
       (initFile
          (logDir "a.log"
             {[ "/tmp/gollum_var_log_a_log.idx"%string := "9223372036854775808"%string ]})
          (tailing "Current")).1 = fileStateRead.
Proof. repeat split; vm_compute; reflexivity. Qed.

End FileFacts.

(** ** More on the scribe stream buffer *)

Module ScribeMore.
Import GoInt Scribe ScribeFacts.

#[local] Arguments u32 : simpl never.
#[local] Arguments i64 : simpl never.
#[local] Arguments sideOf : simpl never.
#[local] Arguments writersOf : simpl never.
#[local] Arguments Z.pow : simpl never.
#[local] Arguments complete : simpl never.

(** The array after the growth step of [Append] on slot [slot]. *)
Lemma grow_at_end buf :
  Z.of_nat (length buf) < 2 ^ 31 ->
  grow buf (Z.of_nat (length buf)) = buf ++ replicate 256 None.
Proof.
  intros Hlen. unfold grow, scribeBufferGrowSize. rewrite u32_small by lia.
  rewrite firstn_all2 by lia. f_equal. f_equal. lia.
Qed.

Section Stored.
Context {Msg : Type} (format : Formatter Msg).

(** The whole effect of an [Append] that stores. *)
Lemma Append_stored (batch : scribeStreamBuffer) (msg : Msg) (category : string) :
  let a := u32 (activeSet batch + 1) in
  let q := queue batch (sideOf a) in
  let n := Len format msg in
  let slot := u32 (writersOf a - 1) in
  0 <= contentLen q -> 0 <= n -> contentLen q + n <= maxInt64 ->
  contentLen q + n < maxContentLen batch ->
  slot <= Z.of_nat (length (buffer q)) < 2 ^ 31 ->
  Append format batch msg category
  = (setQueue (setActiveSet batch a) (sideOf a)
       {| buffer :=
            <[Z.to_nat slot := Some {| Category := category; Message := String format msg |}]>
              (if slot =? Z.of_nat (length (buffer q))
               then buffer q ++ replicate 256 None else buffer q);
          contentLen := contentLen q + n;
          doneCount := u32 (doneCount q + 1) |},
     Returns true, []).
Proof.
  intros a q n slot Hc Hn Hsum Hroom [Hin Hlen].
  unfold Append, reserve. cbv beta iota zeta. fold a. unfold complete.
  rewrite queue_setActiveSet. fold q n slot.
  change (maxContentLen (setActiveSet batch a)) with (maxContentLen batch).
  rewrite i64_small by (unfold minInt64, maxInt64 in *; lia).
  assert (Hslot : 0 <= slot) by (apply Z.mod_pos_bound; lia).
  destruct (Z.leb_spec (maxContentLen batch) (contentLen q + n)); [lia|].
  rewrite (u32_small (Z.of_nat (length (buffer q)))) by lia.
  destruct (Z.eqb_spec slot (Z.of_nat (length (buffer q)))) as [Heq | Hne].
  - rewrite Heq, grow_at_end by lia. rewrite Nat2Z.id.
    rewrite lookup_app_r by lia. rewrite Nat.sub_diag. cbn [replicate lookup list_lookup].
    unfold bumpDone. cbn [buffer contentLen doneCount]. reflexivity.
  - destruct (buffer q !! Z.to_nat slot) as [old|] eqn:Hold.
    + unfold bumpDone. cbn [buffer contentLen doneCount]. reflexivity.
    + apply lookup_ge_None in Hold. lia.
Qed.

Lemma writersOf_low a : 0 <= a < 2 ^ 31 -> writersOf a = a.
Proof. intros. rewrite writersOf_mod. apply Z.mod_small. lia. Qed.

Lemma totalLen_nonneg (msgs : list (Msg * string)) :
  Forall (fun mc => 0 <= Len format mc.1) msgs -> 0 <= totalLen format msgs.
Proof.
  induction 1 as [|mc msgs Hmc _ IH]; cbn [totalLen foldr]; [lia|].
  fold (totalLen format msgs). lia.
Qed.

(** Messages that fit, appended to side 0 with no flush in between: each
    is stored in the slot behind the ones before it. *)
Lemma appendAll_fits (msgs : list (Msg * string)) :
  forall (batch : scribeStreamBuffer) (entries : list LogEntry) (bytes : Z),
    filledWith batch entries bytes ->
    0 <= bytes ->
    Forall (fun mc => 0 <= Len format mc.1) msgs ->
    bytes + totalLen format msgs < maxContentLen batch ->
    maxContentLen batch <= maxInt64 ->
    Z.of_nat (length entries + length msgs) < 2 ^ 31 - 256 ->
    filledWith (appendAll format batch msgs).1
      (entries ++ map (entryOf format) msgs) (bytes + totalLen format msgs)
    /\ (appendAll format batch msgs).2 = replicate (length msgs) (Returns true)
    /\ queue1 (appendAll format batch msgs).1 = queue1 batch
    /\ maxContentLen (appendAll format batch msgs).1 = maxContentLen batch.
Proof.
  induction msgs as [|mc msgs IH]; intros batch entries bytes Hfill Hb Hlens Hsum Hmax Hcount.
  - cbn. rewrite app_nil_r, Z.add_0_r. auto.
  - apply Forall_cons in Hlens as [Hlen Hlens].
    pose proof (totalLen_nonneg msgs Hlens) as Htot.
    cbn [totalLen foldr] in Hsum |- *. fold (totalLen format msgs) in Hsum |- *.
    destruct Hfill as (Hword & Htake & Hsize & Hcontent & Hdone).
    cbn [length] in Hcount.
    set (k := length entries) in *.
    assert (Ha : u32 (activeSet batch + 1) = Z.of_nat k + 1)
      by (rewrite Hword; apply u32_small; lia).
    assert (Hside : sideOf (Z.of_nat k + 1) = 0) by (apply sideOf_low; lia).
    assert (Hslot : u32 (writersOf (Z.of_nat k + 1) - 1) = Z.of_nat k).
    { rewrite writersOf_low by lia. rewrite u32_small by lia. lia. }
    pose proof (Append_stored batch mc.1 mc.2) as Hstored. cbv zeta in Hstored.
    rewrite Ha, Hside, Hslot in Hstored. change (queue batch 0) with (queue0 batch) in Hstored.
    rewrite Hcontent in Hstored.
    specialize (Hstored ltac:(lia) ltac:(lia) ltac:(lia) ltac:(lia) ltac:(lia)).
    cbn [appendAll]. rewrite Hstored. clear Hstored.
    set (buf := if Z.of_nat k =? Z.of_nat (length (buffer (queue0 batch)))
                then buffer (queue0 batch) ++ replicate 256 None
                else buffer (queue0 batch)).
    set (batch1 := setQueue _ 0 _).
    assert (Hbuf : take k buf = map Some entries
                   /\ (k < length buf <= k + 1 + 256)%nat).
    { subst buf. destruct (Z.eqb_spec (Z.of_nat k) (Z.of_nat (length (buffer (queue0 batch))))).
      - rewrite take_app_le by lia. rewrite length_app, length_replicate. split; [exact Htake | lia].
      - split; [exact Htake | lia]. }
    destruct Hbuf as [Hbtake Hblen].
    assert (Hfill1 : filledWith batch1 (entries ++ [entryOf format mc]) (bytes + Len format mc.1)).
    { unfold filledWith. subst batch1. unfold setQueue, setActiveSet.
      cbn [Z.eqb activeSet queue0 buffer contentLen doneCount].
      rewrite length_app. cbn [length]. fold k. rewrite Nat2Z.id.
      rewrite length_insert.
      replace (k + 1)%nat with (S k) by lia.
      split; [lia|]. split.
      { erewrite take_S_r by (apply list_lookup_insert_eq; lia).
        rewrite take_insert_ge by lia. rewrite Hbtake, map_app. reflexivity. }
      split; [lia|]. split; [reflexivity|].
      rewrite Hdone. rewrite u32_small by lia. lia. }
    specialize (IH batch1 (entries ++ [entryOf format mc]) (bytes + Len format mc.1) Hfill1).
    assert (Hmax1 : maxContentLen batch1 = maxContentLen batch) by reflexivity.
    assert (Hq1 : queue1 batch1 = queue1 batch) by reflexivity.
    rewrite Hmax1 in IH.
    destruct IH as (Hfill2 & Hret & Hother & Hmax2);
      [lia | exact Hlens | lia | exact Hmax | rewrite length_app; cbn [length]; lia |].
    destruct (appendAll format batch1 msgs) as [batch2 returns].
    cbn [fst snd length replicate map] in *.
    rewrite <- app_assoc in Hfill2. cbn [app] in Hfill2.
    rewrite Z.add_assoc. rewrite Hret, Hother, Hmax2. auto.
Qed.

End Stored.

(** X3. Messages appended one after the other to a fresh batch, their
    lengths not negative and summing to less than [maxContentLen], are all
    accepted ([Append] returns true for each), and the [flush] that
    follows hands exactly their entries to scribe, in the order of the
    appends, however often the array had to grow on the way. *)
Theorem fitting_batch_is_flushed_whole
    {Msg : Type} (format : Formatter Msg) (maxLen : Z) (msgs : list (Msg * string)) :
  msgs <> [] ->
  Forall (fun mc => 0 <= Len format mc.1) msgs ->
  totalLen format msgs < maxLen ->
  maxLen <= maxInt64 ->
  Z.of_nat (length msgs) < 2 ^ 31 - 256 ->
  (appendAll format (createScribeStreamBuffer maxLen) msgs).2
    = replicate (length msgs) (Returns true)
  /\ (flush (appendAll format (createScribeStreamBuffer maxLen) msgs).1).2
     = Sent (map (fun mc => Some (entryOf format mc)) msgs).
Proof.
  intros Hne Hlens Hsum Hmax Hcount.
  assert (Hfresh : filledWith (createScribeStreamBuffer maxLen) [] 0).
  { unfold filledWith, createScribeStreamBuffer, newMessageQueue, scribeBufferGrowSize.
    cbn [queue0 buffer activeSet contentLen doneCount length take map].
    rewrite length_replicate. repeat split; lia. }
  destruct (appendAll_fits format msgs (createScribeStreamBuffer maxLen) [] 0 Hfresh)
    as (Hfill & Hret & _ & _); [lia | exact Hlens | exact Hsum | exact Hmax | cbn [length]; lia |].
  split; [exact Hret|].
  destruct (appendAll format (createScribeStreamBuffer maxLen) msgs) as [batch returns].
  cbn [fst snd app] in *.
  destruct Hfill as (Hword & Htake & Hsize & _ & Hdone).
  rewrite length_map in *.
  assert (Hk : 0 < Z.of_nat (length msgs)) by (destruct msgs; [contradiction | cbn [length]; lia]).
  unfold flush, isEmpty. fold (writersOf (activeSet batch)).
  rewrite Hword, writersOf_low by lia.
  destruct (Z.eqb_spec (Z.of_nat (length msgs)) 0); [lia|].
  unfold swapActiveSet. rewrite land_topbit, Hword, sideOf_low by lia.
  cbn [Z.odd Z.eqb]. rewrite writersOf_low, sideOf_low by lia.
  rewrite queue_setActiveSet. change (queue batch 0) with (queue0 batch).
  rewrite Hdone, Z.eqb_refl. unfold send. rewrite writersOf_low, sideOf_low by lia.
  rewrite queue_setActiveSet. change (queue batch 0) with (queue0 batch).
  unfold sliceTo. destruct (Z.leb_spec (Z.of_nat (length msgs)) (Z.of_nat (length (buffer (queue0 batch)))));
    [|lia].
  cbn [snd]. rewrite Nat2Z.id, Htake, map_map. reflexivity.
Qed.

Lemma fitting_batch_is_flushed_whole_witness :
  (flush (appendAll twoSizes (createScribeStreamBuffer 30)
            [(true, "a"%string); (false, "b"%string); (true, "c"%string)]).1).2
  = Sent [Some {| Category := "a"; Message := payload 4 |};
          Some {| Category := "b"; Message := payload 20 |};
          Some {| Category := "c"; Message := payload 4 |}].
Proof.
  apply (fitting_batch_is_flushed_whole twoSizes 30
           [(true, "a"%string); (false, "b"%string); (true, "c"%string)]).
  - discriminate.
  - repeat constructor; cbn; lia.
  - reflexivity.
  - vm_compute. discriminate.
  - vm_compute. reflexivity.
Defined.

Lemma swapActiveSet_word batch :
  wordOk (activeSet batch) ->
  swapActiveSet batch
  = (setActiveSet batch (if sideOf (activeSet batch) =? 0 then 0x80000000 else 0),
     activeSet batch).
Proof.
  intros Hw. unfold swapActiveSet. rewrite land_topbit.
  destruct (sideOf_cases _ Hw) as [-> | ->]; reflexivity.
Qed.

(** X4. A [flush] that sends switches the active side and starts it with
    no writers; it sends the first [writerCount] slots of the side that was
    active, resets the content length and the done count of that side,
    keeps its array (the entries are reused, not cleared) and leaves the
    other side alone. A second [flush] right behind it finds the batch
    empty and does nothing. *)
Theorem flush_switches_sides_and_clears
    (batch batch' : scribeStreamBuffer) (entries : list (option LogEntry)) :
  wordOk (activeSet batch) ->
  flush batch = (batch', Sent entries) ->
  let side := sideOf (activeSet batch) in
  sideOf (activeSet batch') = 1 - side
  /\ writersOf (activeSet batch') = 0
  /\ entries = take (Z.to_nat (writersOf (activeSet batch))) (buffer (queue batch side))
  /\ Z.of_nat (length entries) = writersOf (activeSet batch)
  /\ contentLen (queue batch' side) = 0
  /\ doneCount (queue batch' side) = 0
  /\ buffer (queue batch' side) = buffer (queue batch side)
  /\ queue batch' (1 - side) = queue batch (1 - side)
  /\ flush batch' = (batch', NothingToDo).
Proof.
  intros Hw Hflush side. unfold flush in Hflush.
  destruct (isEmpty batch); [discriminate|].
  rewrite (swapActiveSet_word batch Hw) in Hflush. fold side in Hflush.
  rewrite queue_setActiveSet in Hflush.
  destruct (writersOf (activeSet batch) =? doneCount (queue batch side)); [|discriminate].
  unfold send in Hflush. fold side in Hflush. rewrite queue_setActiveSet in Hflush.
  unfold sliceTo in Hflush.
  destruct (Z.leb_spec (writersOf (activeSet batch))
              (Z.of_nat (length (buffer (queue batch side))))) as [Hfit|]; [|discriminate].
  apply pair_equal_spec in Hflush as [Hbatch Hsent].
  apply (f_equal (fun r => match r with Sent sent => sent | _ => [] end)) in Hsent.
  subst batch' entries.
  pose proof (writersOf_range (activeSet batch)) as Hwr.
  rewrite activeSet_setQueue. cbn [activeSet setActiveSet].
  rewrite queue_setQueue_same. cbn [contentLen doneCount buffer].
  rewrite length_take.
  assert (Hother : queue (setQueue (setActiveSet batch
                      (if side =? 0 then 0x80000000 else 0)) side
                      {| buffer := buffer (queue batch side); contentLen := 0; doneCount := 0 |})
                     (1 - side) = queue batch (1 - side)).
  { rewrite queue_setQueue_other; [apply queue_setActiveSet|].
    destruct (sideOf_cases _ Hw) as [Hs | Hs]; fold side in Hs; rewrite Hs; done. }
  assert (Hnew : sideOf (if side =? 0 then 0x80000000 else 0) = 1 - side
                 /\ writersOf (if side =? 0 then 0x80000000 else 0) = 0).
  { destruct (sideOf_cases _ Hw) as [Hs | Hs]; fold side in Hs; rewrite Hs; split; reflexivity. }
  destruct Hnew as [Hnside Hnwr].
  repeat (split; [first [assumption | reflexivity | lia]|]).
  unfold flush, isEmpty. rewrite activeSet_setQueue. cbn [activeSet setActiveSet].
  fold (writersOf (if side =? 0 then 0x80000000 else 0)). rewrite Hnwr. reflexivity.
Qed.

Lemma flush_switches_sides_and_clears_witness :
  flush (flush (appended plainFormat "aaaa" "c" (createScribeStreamBuffer 10))).1
  = ((flush (appended plainFormat "aaaa" "c" (createScribeStreamBuffer 10))).1, NothingToDo).
Proof.
  destruct (flush_switches_sides_and_clears
              (appended plainFormat "aaaa" "c" (createScribeStreamBuffer 10))
              (flush (appended plainFormat "aaaa" "c" (createScribeStreamBuffer 10))).1
              [Some {| Category := "c"; Message := "aaaa" |}])
    as (_ & _ & _ & _ & _ & _ & _ & _ & Hagain).
  - vm_compute. split; [discriminate | reflexivity].
  - vm_compute. reflexivity.
  - exact Hagain.
Defined.

Section Limit.
Context {Msg : Type} (format : Formatter Msg) (maxLen : Z).
Hypothesis lengths : forall msg, 0 <= Len format msg <= maxInt64 /\ Len format msg + maxLen <= maxInt64.

Lemma complete_belowLimit batch a msg category :
  maxContentLen batch = maxLen ->
  belowLimit maxLen (queue0 batch) -> belowLimit maxLen (queue1 batch) ->
  maxContentLen (complete format batch a msg category).1.1 = maxLen
  /\ belowLimit maxLen (queue0 (complete format batch a msg category).1.1)
  /\ belowLimit maxLen (queue1 (complete format batch a msg category).1.1).
Proof.
  intros Hmax H0 H1. unfold complete.
  destruct (lengths msg) as [[Hn Hint] Hbound].
  assert (Hq : belowLimit maxLen (queue batch (sideOf a)))
    by (unfold queue; destruct (sideOf a =? 0); assumption).
  destruct Hq as [Hc Hlt].
  rewrite i64_small by (unfold minInt64, maxInt64 in *; lia).
  rewrite Hmax.
  unfold setQueue, queue, bumpDone, belowLimit in *.
  repeat match goal with
  | |- context [if ?c then _ else _] => destruct c eqn:?
  | |- context [match ?l !! ?i with _ => _ end] => destruct (l !! i)
  end; cbn [fst snd maxContentLen queue0 queue1 contentLen];
  repeat split; try assumption; try tauto; try lia.
Qed.

Lemma step_belowLimit (s s' : System Msg) op :
  maxContentLen (sys_batch s) = maxLen ->
  belowLimit maxLen (queue0 (sys_batch s)) -> belowLimit maxLen (queue1 (sys_batch s)) ->
  step format s op = Some s' ->
  maxContentLen (sys_batch s') = maxLen
  /\ belowLimit maxLen (queue0 (sys_batch s'))
  /\ belowLimit maxLen (queue1 (sys_batch s')).
Proof.
  intros Hmax H0 H1 Hstep. destruct op as [msg category | i | |]; cbn [step] in Hstep.
  - unfold reserve in Hstep. apply (inj Some) in Hstep. subst s'. auto.
  - destruct (sys_inflight s !! i) as [t|]; [|discriminate].
    pose proof (complete_belowLimit (sys_batch s) (t_set t) (t_msg t) (t_category t) Hmax H0 H1)
      as Hc.
    destruct (complete format (sys_batch s) (t_set t) (t_msg t) (t_category t)) as [[b r] lg].
    apply (inj Some) in Hstep. subst s'. exact Hc.
  - destruct (sys_flushing s); [discriminate|].
    unfold swapActiveSet in Hstep.
    destruct (Z.land (activeSet (sys_batch s)) 0x80000000 =? 0);
      apply (inj Some) in Hstep; subst s'; auto.
  - destruct (sys_flushing s) as [flushSet|]; [|discriminate].
    destruct (writersOf flushSet =? _); [|discriminate].
    unfold send in Hstep. destruct (sliceTo _ _); [|discriminate].
    apply (inj Some) in Hstep. subst s'. cbn [sys_batch].
    unfold setQueue, belowLimit in *.
    destruct (sideOf flushSet =? 0); cbn [maxContentLen queue0 queue1 contentLen];
      repeat split; try assumption; try tauto; lia.
Qed.

Lemma run_belowLimit ops : forall (s s' : System Msg),
  maxContentLen (sys_batch s) = maxLen ->
  belowLimit maxLen (queue0 (sys_batch s)) -> belowLimit maxLen (queue1 (sys_batch s)) ->
  run format s ops = Some s' ->
  maxContentLen (sys_batch s') = maxLen
  /\ belowLimit maxLen (queue0 (sys_batch s'))
  /\ belowLimit maxLen (queue1 (sys_batch s')).
Proof.
  induction ops as [|op ops IH]; intros s s' Hmax H0 H1 Hrun; cbn [run] in Hrun.
  - apply (inj Some) in Hrun. subst s'. auto.
  - destruct (step format s op) as [s1|] eqn:Hstep; [|discriminate].
    destruct (step_belowLimit s s1 op Hmax H0 H1 Hstep) as (Hmax1 & H01 & H11).
    exact (IH s1 s' Hmax1 H01 H11 Hrun).
Qed.

Lemma reached_belowLimit (s : System Msg) ops :
  run format (initial maxLen) ops = Some s ->
  maxContentLen (sys_batch s) = maxLen
  /\ forall idx, belowLimit maxLen (queue (sys_batch s) idx).
Proof.
  intros Hrun.
  destruct (run_belowLimit ops (initial maxLen) s) as (Hmax & H0 & H1);
    [reflexivity | unfold belowLimit; cbn; lia | unfold belowLimit; cbn; lia | exact Hrun |].
  split; [exact Hmax|]. intros idx. unfold queue. destruct (idx =? 0); assumption.
Qed.

End Limit.

Section Calls.
Context {Msg : Type} (format : Formatter Msg) (maxLen : Z).
Hypothesis lengths :
  forall msg, 0 <= Len format msg <= maxInt64 /\ Len format msg + maxLen <= maxInt64.

Lemma flush_belowLimit batch :
  maxContentLen batch = maxLen ->
  belowLimit maxLen (queue0 batch) -> belowLimit maxLen (queue1 batch) ->
  maxContentLen (flush batch).1 = maxLen
  /\ belowLimit maxLen (queue0 (flush batch).1)
  /\ belowLimit maxLen (queue1 (flush batch).1).
Proof.
  intros Hmax H0 H1. unfold flush.
  destruct (isEmpty batch); [auto|].
  unfold swapActiveSet, send.
  destruct (Z.land (activeSet batch) 0x80000000 =? 0);
    cbv beta iota zeta; rewrite ?queue_setActiveSet;
    (destruct (writersOf (activeSet batch) =? _); [|auto]);
    (destruct (sliceTo _ _); [|auto]);
    cbn [fst]; unfold setQueue, belowLimit in *;
    (destruct (sideOf (activeSet batch) =? 0);
     cbn [maxContentLen queue0 queue1 contentLen setActiveSet];
     repeat split; try assumption; try tauto; lia).
Qed.

Lemma calls_belowLimit cs : forall batch batch',
  maxContentLen batch = maxLen ->
  belowLimit maxLen (queue0 batch) -> belowLimit maxLen (queue1 batch) ->
  calls format batch cs = Some batch' ->
  maxContentLen batch' = maxLen
  /\ belowLimit maxLen (queue0 batch') /\ belowLimit maxLen (queue1 batch').
Proof.
  induction cs as [|[msg category|] cs IH]; intros batch batch' Hmax H0 H1 Hrun;
    cbn [calls] in Hrun.
  - apply (inj Some) in Hrun. subst batch'. auto.
  - unfold Append, reserve in Hrun.
    pose proof (complete_belowLimit format maxLen lengths
                  (setActiveSet batch (u32 (activeSet batch + 1)))
                  (u32 (activeSet batch + 1)) msg category Hmax H0 H1) as Hc.
    destruct (complete format _ _ msg category) as [[b [accepted|]] logged];
      [|discriminate].
    destruct Hc as (Hmax' & H0' & H1'). exact (IH b batch' Hmax' H0' H1' Hrun).
  - pose proof (flush_belowLimit batch Hmax H0 H1) as Hf.
    destruct (flush batch) as [b [|entries| |]]; try discriminate;
      destruct Hf as (Hmax' & H0' & H1'); exact (IH b batch' Hmax' H0' H1' Hrun).
Qed.

End Calls.

(** X5. With one goroutine that calls [Append] and [flush] one after the
    other, each call run to its end before the next starts, the content
    length of either side is never negative and, for a positive limit,
    stays below [maxContentLen]: [Append] adds a length only when the sum
    stays below the limit, and [flush] sets it to 0. So
    [reachedSizeThreshold] is false for every size from the limit on. The
    message lengths are those of Go's [len]: not negative, and small
    enough for the sum with the limit to fit an [int]. *)
Theorem contentLen_stays_below_the_limit
    {Msg : Type} (format : Formatter Msg) (maxLen : Z) (cs : list (Call Msg))
    (batch : scribeStreamBuffer) :
  (forall msg, 0 <= Len format msg <= maxInt64 /\ Len format msg + maxLen <= maxInt64) ->
  calls format (createScribeStreamBuffer maxLen) cs = Some batch ->
  (forall idx,
     0 <= contentLen (queue batch idx)
     /\ (0 < maxLen -> contentLen (queue batch idx) < maxLen))
  /\ (forall size, 0 < size -> maxLen <= size -> reachedSizeThreshold batch size = false).
Proof.
  intros Hlen Hrun.
  destruct (calls_belowLimit format maxLen Hlen cs (createScribeStreamBuffer maxLen) batch)
    as (_ & H0 & H1);
    [reflexivity | unfold belowLimit; cbn; lia | unfold belowLimit; cbn; lia | exact Hrun |].
  assert (Hbelow : forall idx, belowLimit maxLen (queue batch idx))
    by (intros idx; unfold queue; destruct (idx =? 0); assumption).
  split.
  - intros idx. destruct (Hbelow idx) as [Hge Hlt]. split; [exact Hge | lia].
  - intros size Hpos Hsize. unfold reachedSizeThreshold.
    destruct (Hbelow (sideOf (activeSet batch))) as [Hge Hlt].
    apply Z.leb_gt. lia.
Qed.

Lemma contentLen_stays_below_the_limit_witness :
  exists batch,
    calls twoSizes (createScribeStreamBuffer 10)
      [CallAppend true "c"%string; CallAppend true "c"%string; CallAppend true "c"%string;
       CallFlush; CallAppend true "c"%string; CallAppend false "c"%string] = Some batch
    /\ contentLen (queue batch 1) = 4
    /\ reachedSizeThreshold batch 10 = false.
Proof.
  eexists. split; [vm_compute; reflexivity|]. split; [reflexivity|].
  match goal with |- reachedSizeThreshold ?b _ = _ =>
    destruct (contentLen_stays_below_the_limit twoSizes 10
                [CallAppend true "c"%string; CallAppend true "c"%string;
                 CallAppend true "c"%string; CallFlush; CallAppend true "c"%string;
                 CallAppend false "c"%string] b)
      as [_ Hsize]
  end.
  - intros [|]; vm_compute; repeat split; discriminate.
  - vm_compute. reflexivity.
  - apply Hsize; lia.
Defined.

(** X6. A message as long as [maxContentLen] is refused by [Append]
    with false in every reachable state of the batch, an empty one
    included, and without a log line: the test for dropping a message is
    [messageLength > maxContentLen], the test for storing it is
    [contentLen + messageLength < maxContentLen]. *)
Theorem message_of_limit_size_is_always_refused
    {Msg : Type} (format : Formatter Msg) (maxLen : Z) (ops : list (Op Msg)) (s : System Msg)
    (msg : Msg) (category : string) :
  (forall msg, 0 <= Len format msg <= maxInt64 /\ Len format msg + maxLen <= maxInt64) ->
  run format (initial maxLen) ops = Some s ->
  Len format msg = maxLen ->
  (Append format (sys_batch s) msg category).1.2 = Returns false
  /\ (Append format (sys_batch s) msg category).2 = [].
Proof.
  intros Hlen Hrun Hmsg.
  destruct (reached_belowLimit format maxLen Hlen s ops Hrun) as [Hmax Hbelow].
  unfold Append, reserve. cbv beta iota zeta. unfold complete.
  rewrite queue_setActiveSet.
  change (maxContentLen (setActiveSet (sys_batch s) _)) with (maxContentLen (sys_batch s)).
  rewrite Hmax, Hmsg.
  destruct (Hbelow (sideOf (u32 (activeSet (sys_batch s) + 1)))) as [H0 Hlt].
  destruct (Hlen msg) as [[Hn Hint] Hbound]. rewrite Hmsg in Hn, Hint, Hbound.
  rewrite i64_small by (unfold minInt64, maxInt64 in *; lia).
  destruct (Z.leb_spec maxLen (contentLen (queue (sys_batch s)
              (sideOf (u32 (activeSet (sys_batch s) + 1)))) + maxLen)); [|lia].
  rewrite Z.ltb_irrefl. split; reflexivity.
Qed.

Lemma message_of_limit_size_is_always_refused_witness :
  (Append twoSizes (createScribeStreamBuffer 4) true "c").1.2 = Returns false.
Proof.
  destruct (message_of_limit_size_is_always_refused twoSizes 4 [] (initial 4) true "c")
    as [Hrefused _].
  - intros [|]; vm_compute; repeat split; discriminate.
  - reflexivity.
  - reflexivity.
  - exact Hrefused.
Defined.

(** X7. In a run without a carry of the writer counter into the side bit,
    when the worker of [flush] gets to send (the spin loop has seen
    [writerCount == doneCount]), no [Append] is still at work on the side
    that is flushed, that side is not the active one, and what is sent is
    the first [writerCount] slots of its array; the sending releases the
    [flushing] mutex. *)
Theorem worker_sends_only_finished_slots
    {Msg : Type} (format : Formatter Msg) (maxLen : Z) (ops : list (Op Msg))
    (s s' : System Msg) (flushSet : Z) :
  run format (initial maxLen) ops = Some s ->
  noCarry format (initial maxLen) ops = true ->
  sys_flushing s = Some flushSet ->
  step format s OpSend = Some s' ->
  pendingOn (sideOf flushSet) (sys_inflight s) = 0
  /\ sideOf flushSet <> sideOf (activeSet (sys_batch s))
  /\ sys_sunk s'
     = sys_sunk s
       ++ [take (Z.to_nat (writersOf flushSet))
             (buffer (queue (sys_batch s) (sideOf flushSet)))]
  /\ sys_flushing s' = None.
Proof.
  intros Hrun Hcarry Hfl Hstep.
  assert (Hbal : balanced s).
  { eapply run_balanced; [apply initial_balanced | exact Hcarry | exact Hrun]. }
  destruct Hbal as (_ & _ & _ & _ & Hside). rewrite Hfl in Hside.
  destruct Hside as (_ & Hfs & Hd & Hsum).
  cbn [step] in Hstep. rewrite Hfl in Hstep.
  destruct (Z.eqb_spec (writersOf flushSet)
              (doneCount (queue (sys_batch s) (sideOf flushSet)))) as [Heq|]; [|discriminate].
  unfold send, sliceTo in Hstep.
  destruct (writersOf flushSet <=? _); [|discriminate].
  apply (inj Some) in Hstep. subst s'. cbn [sys_sunk sys_flushing].
  rewrite Hfs in *.
  pose proof (pendingOn_nonneg (1 - sideOf (activeSet (sys_batch s))) (sys_inflight s)).
  repeat split; lia.
Qed.

Lemma worker_sends_only_finished_slots_witness :
  pendingOn (sideOf 1)
    (sys_inflight
       {| sys_batch :=
            setActiveSet (appended plainFormat "aaaa" "c" (createScribeStreamBuffer 10))
              0x80000000;
          sys_inflight := @nil (Ticket string); sys_flushing := Some 1; sys_sunk := [] |}) = 0.
Proof.
  destruct (worker_sends_only_finished_slots plainFormat 10
              [OpReserve "aaaa"%string "c"%string; OpComplete 0; OpSwap]
              {| sys_batch :=
                   setActiveSet (appended plainFormat "aaaa" "c" (createScribeStreamBuffer 10))
                     0x80000000;
                 sys_inflight := []; sys_flushing := Some 1; sys_sunk := [] |}
              {| sys_batch :=
                   (flush (appended plainFormat "aaaa" "c" (createScribeStreamBuffer 10))).1;
                 sys_inflight := []; sys_flushing := None;
                 sys_sunk := [[Some {| Category := "c"; Message := "aaaa" |}]] |}
              1)
    as (Hpending & _).
  - vm_compute. reflexivity.
  - vm_compute. reflexivity.
  - reflexivity.
  - vm_compute. reflexivity.
  - exact Hpending.
Defined.

(** X2. An [Append] that stores writes one slot of the array of its side
    and keeps every other one: the array keeps its length, or is 256 slots
    longer when the slot was the first one behind its end; the old slots
    are as they were, the new ones nil, and the slot of the appender holds
    the entry with the category and the formatted message. *)
Theorem storing_Append_fills_one_slot
    {Msg : Type} (format : Formatter Msg) (batch : scribeStreamBuffer)
    (msg : Msg) (category : string) :
  let a := u32 (activeSet batch + 1) in
  let q := queue batch (sideOf a) in
  let n := Len format msg in
  let slot := Z.to_nat (u32 (writersOf a - 1)) in
  let after := queue (Append format batch msg category).1.1 (sideOf a) in
  0 <= contentLen q -> 0 <= n -> contentLen q + n <= maxInt64 ->
  contentLen q + n < maxContentLen batch ->
  (slot <= length (buffer q))%nat -> Z.of_nat (length (buffer q)) < 2 ^ 31 ->
  length (buffer after)
  = (if decide (slot = length (buffer q)) then length (buffer q) + 256 else length (buffer q))%nat
  /\ (forall i, i <> slot -> (i < length (buffer q))%nat ->
      buffer after !! i = buffer q !! i)
  /\ (forall i, i <> slot -> (length (buffer q) <= i < length (buffer after))%nat ->
      buffer after !! i = Some None)
  /\ buffer after !! slot
     = Some (Some {| Category := category; Message := String format msg |}).
Proof.
  intros a q n slot after Hc Hn Hsum Hroom Hin Hlen.
  assert (Hslot : 0 <= u32 (writersOf a - 1)) by (apply Z.mod_pos_bound; lia).
  pose proof (Append_stored format batch msg category) as Hstored. cbv zeta in Hstored.
  fold a q n in Hstored.
  specialize (Hstored Hc Hn Hsum Hroom ltac:(subst slot; lia)).
  subst after. rewrite Hstored. cbn [fst]. rewrite queue_setQueue_same. cbn [buffer].
  fold slot. rewrite length_insert.
  destruct (Z.eqb_spec (u32 (writersOf a - 1)) (Z.of_nat (length (buffer q)))) as [Heq | Hne].
  - assert (Hs : slot = length (buffer q)) by (subst slot; lia).
    rewrite decide_True by exact Hs. rewrite length_app, length_replicate.
    split; [reflexivity|]. split; [|split].
    + intros i Hi Hlt. rewrite list_lookup_insert_ne by congruence.
      by apply lookup_app_l.
    + intros i Hi [Hge Hlt]. rewrite list_lookup_insert_ne by congruence.
      rewrite lookup_app_r by exact Hge. apply lookup_replicate_2. lia.
    + apply list_lookup_insert_eq. rewrite length_app, length_replicate. lia.
  - assert (Hs : slot <> length (buffer q)) by (subst slot; lia).
    rewrite decide_False by exact Hs.
    split; [reflexivity|]. split; [|split].
    + intros i Hi Hlt. by rewrite list_lookup_insert_ne by congruence.
    + intros i Hi [Hge Hlt]. lia.
    + apply list_lookup_insert_eq. lia.
Qed.

Lemma storing_Append_fills_one_slot_witness :
  length (buffer (queue (Append plainFormat firstBlockStored "y" "c").1.1 0)) = 512%nat.
Proof.
  destruct (storing_Append_fills_one_slot plainFormat firstBlockStored "y" "c")
    as (Hlength & _).
  - vm_compute. discriminate.
  - vm_compute. discriminate.
  - vm_compute. discriminate.
  - vm_compute. reflexivity.
  - vm_compute. lia.
  - vm_compute. reflexivity.
  - change (sideOf (u32 (activeSet firstBlockStored + 1))) with 0 in Hlength.
    rewrite Hlength. vm_compute. reflexivity.
Defined.

(** The three rows of [Append_decision] on a limit of 10: a message of
    20 bytes is dropped, one of 4 bytes behind 8 stored ones is refused,
    one of 4 bytes is stored in the empty batch. *)
Lemma Append_decision_witness :
  (Append plainFormat (createScribeStreamBuffer 10) (payload 20) "c").1.2 = Returns true
  /\ (Append plainFormat (appended plainFormat (payload 8) "c" (createScribeStreamBuffer 10))
        "aaaa" "c").1.2 = Returns false
  /\ (Append plainFormat (createScribeStreamBuffer 10) "aaaa" "c").1.2 = Returns true.
Proof.
  split; [|split].
  - destruct (Append_decision plainFormat (createScribeStreamBuffer 10) (payload 20) "c")
      as (Hdrop & _ & _); [vm_compute; discriminate..|].
    apply Hdrop. vm_compute. reflexivity.
  - destruct (Append_decision plainFormat
                (appended plainFormat (payload 8) "c" (createScribeStreamBuffer 10)) "aaaa" "c")
      as (_ & Hrefuse & _); [vm_compute; discriminate..|].
    apply Hrefuse; vm_compute; discriminate.
  - destruct (Append_decision plainFormat (createScribeStreamBuffer 10) "aaaa" "c")
      as (_ & _ & Hstore); [vm_compute; discriminate..|].
    apply Hstore; [vm_compute; reflexivity | vm_compute; split; [discriminate | reflexivity]].
Defined.

End ScribeMore.

(** ** More on the file consumer *)

Module FileMore.
Import GoInt FileConsumer FileFacts.

#[local] Arguments Z.pow : simpl never.
#[local] Arguments Z.mul : simpl never.
#[local] Arguments Z.add : simpl never.
#[local] Arguments Z.div : simpl never.

Lemma decimalValue_grows d : forall acc, 0 <= acc -> acc <= decimalValue d acc.
Proof.
  induction d; intros acc Hacc; cbn [decimalValue]; [lia|..];
    (etransitivity; [|apply IHd; lia]); lia.
Qed.

(** The loop of [ParseUint] on a string of digits. *)
Lemma parseUintLoop_digits d : forall acc,
  0 <= acc -> decimalValue d acc <= maxUint64 ->
  parseUintLoop (NilEmpty.string_of_uint d) acc = (decimalValue d acc, None).
Proof.
  induction d; intros acc Hacc Hmax; cbn [NilEmpty.string_of_uint decimalValue parseUintLoop] in *;
    [reflexivity|..];
    match goal with
    | |- context [digitOf ?c] =>
        let v := eval vm_compute in (digitOf c) in change (digitOf c) with v
    end; cbv iota beta;
    match goal with
    | H : decimalValue d (acc * 10 + ?k) <= maxUint64 |- _ =>
        pose proof (decimalValue_grows d (acc * 10 + k) ltac:(lia)) as Hgrow
    end;
    assert (Hcut : maxUint64 / 10 + 1 = 1844674407370955162) by reflexivity;
    assert (Hval : maxUint64 = 18446744073709551615) by reflexivity;
    (destruct (Z.leb_spec (maxUint64 / 10 + 1) acc); [lia|]);
    match goal with
    | |- context [if ?a <? ?b then _ else _] => destruct (Z.ltb_spec a b); [lia|]
    end;
    apply IHd; lia.
Qed.

Lemma decimalValue_pos d : forall acc : positive,
  decimalValue d (Z.pos acc) = Z.pos (Pos.of_uint_acc d acc).
Proof.
  induction d; intros acc; cbn [decimalValue Pos.of_uint_acc]; [reflexivity|..];
    match goal with
    | |- decimalValue d ?z = Z.pos (Pos.of_uint_acc d ?q) =>
        replace z with (Z.pos q) by lia; apply IHd
    end.
Qed.

Lemma decimalValue_of_uint d : decimalValue d 0 = Z.of_N (Pos.of_uint d).
Proof.
  induction d; cbn [decimalValue Pos.of_uint]; [reflexivity|exact IHd|..];
    match goal with
    | |- decimalValue d ?z = Z.of_N (N.pos (Pos.of_uint_acc d ?q)) =>
        change z with (Z.pos q); apply decimalValue_pos
    end.
Qed.

Lemma to_uint_value p : decimalValue (Pos.to_uint p) 0 = Z.pos p.
Proof. rewrite decimalValue_of_uint, Unsigned.of_to. reflexivity. Qed.

(** The decimal digits of a positive number: not empty, and the first of
    them is no sign. *)
Lemma to_uint_string p :
  exists c rest,
    NilZero.string_of_uint (Pos.to_uint p) = String c rest
    /\ NilEmpty.string_of_uint (Pos.to_uint p) = String c rest
    /\ Ascii.eqb c "+" = false /\ Ascii.eqb c "-" = false.
Proof.
  pose proof (Unsigned.of_to p) as Hp.
  destruct (Pos.to_uint p); [discriminate|..];
    cbn [NilZero.string_of_uint NilEmpty.string_of_uint]; eauto 10.
Qed.

Lemma ParseUint_to_uint p :
  Z.pos p <= maxUint64 ->
  ParseUint (NilEmpty.string_of_uint (Pos.to_uint p)) = (Z.pos p, None).
Proof.
  intros Hp. destruct (to_uint_string p) as (c & rest & _ & Hs & _).
  unfold ParseUint. rewrite Hs. rewrite <- Hs.
  rewrite parseUintLoop_digits by (rewrite ?to_uint_value; lia).
  rewrite to_uint_value. reflexivity.
Qed.

(** What [strconv.FormatInt] writes for an [int64], [strconv.ParseInt]
    reads back without an error. *)
Lemma ParseInt_FormatInt z :
  minInt64 <= z <= maxInt64 -> ParseInt (FormatInt z) = (z, None).
Proof.
  intros Hz. unfold FormatInt. destruct z as [|p|p]; [reflexivity|..];
    cbn [Z.to_int NilZero.string_of_int];
    destruct (to_uint_string p) as (c & rest & Hzero & Hempty & Hplus & Hminus).
  - rewrite Hzero. unfold ParseInt. rewrite Hplus, Hminus. cbn [orb negb andb].
    rewrite <- Hempty, ParseUint_to_uint by (unfold maxInt64, maxUint64 in *; lia).
    destruct (Z.leb_spec (2 ^ 63) (Z.pos p)); [unfold maxInt64 in *; lia | reflexivity].
  - unfold ParseInt. change (Ascii.eqb "-" "-") with true. rewrite orb_true_r.
    rewrite Hzero, <- Hempty, ParseUint_to_uint by (unfold minInt64, maxUint64 in *; lia).
    cbn [negb andb].
    destruct (Z.ltb_spec (2 ^ 63) (Z.pos p)); [unfold minInt64 in *; lia | reflexivity].
Qed.

(** X8. The offset that [postAndPersist] writes is the one [initFile]
    reads back: with the index file writable and named as [initFile]
    names it, [postAndPersist] leaves the decimal form of the position of
    the file in the index file, [strconv.ParseInt] reads that text back as
    the same number without an error, and an [initFile] that follows sets
    [seekOffset] to that position. *)
Theorem persisted_offset_is_read_back
    (w : World) (cons : File) (f : OsFile) (data : string) (sequence : Z) :
  persistSeek cons = true ->
  file cons = Some f ->
  0 <= f_pos f <= maxInt64 ->
  continueFileName cons
    = ("/tmp/gollum" ++ pathDelimiter (realFileName w cons) ++ ".idx")%string ->
  writable w (continueFileName cons) = true ->
  ParseInt (FormatInt (f_pos f)) = (f_pos f, None)
  /\ ReadFile (postAndPersist w cons data sequence).1.1 (continueFileName cons)
     = Some (FormatInt (f_pos f))
  /\ seekOffset
       (initFile (postAndPersist w cons data sequence).1.1
          (postAndPersist w cons data sequence).1.2).1 = f_pos f.
Proof.
  intros Hpersist Hfile Hpos Hname Hrw.
  assert (Hround : ParseInt (FormatInt (f_pos f)) = (f_pos f, None))
    by (apply ParseInt_FormatInt; unfold minInt64, maxInt64 in *; lia).
  split; [exact Hround|].
  unfold postAndPersist. rewrite Hfile, (Seek_here w f Hpos).
  cbn [seekOffset continueFileName withSeekOffset withFile].
  unfold WriteFile. rewrite Hrw. cbn [fst snd].
  split.
  - unfold ReadFile. cbn [files]. apply lookup_insert_eq.
  - unfold initFile. cbn [file withSeekOffset withFile persistSeek]. rewrite Hpersist.
    cbn [continueFileName withSeekOffset withContinueFileName withFile].
    match goal with |- context [realFileName ?w' ?c'] =>
      replace (realFileName w' c') with (realFileName w cons) by reflexivity
    end.
    rewrite <- Hname.
    unfold ReadFile. cbn [files]. rewrite lookup_insert_eq.
    cbn [seekOffset setState withSeekOffset]. rewrite Hround. reflexivity.
Qed.

Lemma persisted_offset_is_read_back_witness :
  seekOffset
    (initFile
       (postAndPersist (logDir "a.log" ∅)
          (withFile (initFile (logDir "a.log" ∅) (tailing "Current")).1
             (Some {| f_path := "/var/log/a.log"; f_pos := 4 |}))
          "b" 1).1.1
       (postAndPersist (logDir "a.log" ∅)
          (withFile (initFile (logDir "a.log" ∅) (tailing "Current")).1
             (Some {| f_path := "/var/log/a.log"; f_pos := 4 |}))
          "b" 1).1.2).1 = 4.
Proof.
  destruct (persisted_offset_is_read_back (logDir "a.log" ∅)
              (withFile (initFile (logDir "a.log" ∅) (tailing "Current")).1
                 (Some {| f_path := "/var/log/a.log"; f_pos := 4 |}))
              {| f_path := "/var/log/a.log"; f_pos := 4 |} "b" 1)
    as (_ & _ & Hback).
  - reflexivity.
  - reflexivity.
  - vm_compute. split; discriminate.
  - vm_compute. reflexivity.
  - reflexivity.
  - exact Hback.
Defined.

(** *** The delimiter *)

Lemma escapeChars_plain s : mentions "\" s = false -> escapeChars s = s.
Proof.
  induction s as [|c tl IH]; [reflexivity|]. cbn [mentions]. intros H.
  apply orb_false_elim in H as [Hc Htl]. cbn [escapeChars]. rewrite Hc. cbn [andb].
  destruct tl; [reflexivity|]. by rewrite (IH Htl).
Qed.

Lemma escapeChars_two c e rest :
  escapeChars (String c (String e rest))
  = if Ascii.eqb c "\" && Ascii.eqb e "n" then String LF (escapeChars rest)
    else if Ascii.eqb c "\" && Ascii.eqb e "r" then String CR (escapeChars rest)
    else if Ascii.eqb c "\" && Ascii.eqb e "t" then String TAB (escapeChars rest)
    else String c (escapeChars (String e rest)).
Proof. reflexivity. Qed.

Lemma escapeChars_length_upto n : forall s,
  (String.length s <= n)%nat -> (String.length (escapeChars s) <= String.length s)%nat.
Proof.
  induction n as [|n IH]; intros s Hn.
  - destruct s; [cbn; lia | cbn in Hn; lia].
  - destruct s as [|c [|e rest]]; [cbn; lia | cbn; lia |].
    cbn [String.length] in Hn.
    assert (Hrest : (String.length (escapeChars rest) <= String.length rest)%nat)
      by (apply IH; lia).
    assert (Htl : (String.length (escapeChars (String e rest))
                   <= String.length (String e rest))%nat)
      by (apply IH; cbn [String.length]; lia).
    rewrite escapeChars_two.
    destruct (Ascii.eqb c "\" && Ascii.eqb e "n");
      [|destruct (Ascii.eqb c "\" && Ascii.eqb e "r");
        [|destruct (Ascii.eqb c "\" && Ascii.eqb e "t")]];
      cbn [String.length] in *; lia.
Qed.

Lemma escapeChars_backslash e rest :
  escapeChars (String "\" (String e rest))
  = if Ascii.eqb e "n" then String LF (escapeChars rest)
    else if Ascii.eqb e "r" then String CR (escapeChars rest)
    else if Ascii.eqb e "t" then String TAB (escapeChars rest)
    else String "\" (escapeChars (String e rest)).
Proof.
  rewrite escapeChars_two. change (Ascii.eqb "\" "\") with true. reflexivity.
Qed.

Lemma append_nil (s : string) : (EmptyString ++ s)%string = s.
Proof. reflexivity. Qed.

Lemma append_cons c (s t : string) : (String c s ++ t)%string = String c (s ++ t).
Proof. reflexivity. Qed.

(** The replacer works from left to right, so that what it does to a
    backslash does not depend on what stands before it. *)
Lemma escapeChars_app_upto n : forall before rest,
  (String.length before <= n)%nat ->
  escapeChars (before ++ String "\" rest)
  = (escapeChars before ++ escapeChars (String "\" rest))%string.
Proof.
  induction n as [|n IH]; intros before rest Hn.
  - destruct before; [reflexivity | cbn in Hn; lia].
  - destruct before as [|c [|e tl]]; [reflexivity | |].
    + rewrite append_cons, append_nil, escapeChars_two.
      change (Ascii.eqb "\" "n") with false. change (Ascii.eqb "\" "r") with false.
      change (Ascii.eqb "\" "t") with false. rewrite !andb_false_r. reflexivity.
    + cbn [String.length] in Hn.
      rewrite !append_cons, !escapeChars_two.
      assert (Htl : escapeChars (tl ++ String "\" rest)
                    = (escapeChars tl ++ escapeChars (String "\" rest))%string)
        by (apply IH; lia).
      assert (Hetl : escapeChars (String e tl ++ String "\" rest)
                     = (escapeChars (String e tl) ++ escapeChars (String "\" rest))%string)
        by (apply IH; cbn [String.length]; lia).
      rewrite append_cons in Hetl.
      destruct (Ascii.eqb c "\" && Ascii.eqb e "n"); [by rewrite Htl|].
      destruct (Ascii.eqb c "\" && Ascii.eqb e "r"); [by rewrite Htl|].
      destruct (Ascii.eqb c "\" && Ascii.eqb e "t"); [by rewrite Htl|].
      by rewrite Hetl.
Qed.

(** X9. [Configure] takes the delimiter from the setting [Delimiter]
    with the escapes replaced. Without the setting the delimiter is a line
    feed. With it, the delimiter is the value in which, from left to
    right, a backslash followed by n, r or t has become a line feed, a
    carriage return or a tab, while a backslash followed by another
    character, or at the end of the value, stays; a value without a
    backslash is taken over unchanged, and the delimiter is never longer
    than the value. *)
Theorem Delimiter_escapes_are_replaced
    (baseConfigure : PluginConfig -> option ConfigError) (cons : File) (conf : PluginConfig) :
  baseConfigure conf = None ->
  HasValue conf "File" = true ->
  let configured := delimiter (Configure baseConfigure cons conf).1 in
  (HasValue conf "Delimiter" = false -> configured = String LF EmptyString)
  /\ (forall value,
        Settings conf !! "Delimiter"%string = Some value ->
        configured = escapeChars value
        /\ (String.length configured <= String.length value)%nat)
  /\ (forall plain, mentions "\" plain = false -> escapeChars plain = plain)
  /\ (forall before after,
        escapeChars (before ++ String "\" (String "n" after))
        = (escapeChars before ++ String LF (escapeChars after))%string
        /\ escapeChars (before ++ String "\" (String "r" after))
           = (escapeChars before ++ String CR (escapeChars after))%string
        /\ escapeChars (before ++ String "\" (String "t" after))
           = (escapeChars before ++ String TAB (escapeChars after))%string)
  /\ (forall before e after,
        e <> "n"%char -> e <> "r"%char -> e <> "t"%char ->
        escapeChars (before ++ String "\" (String e after))
        = (escapeChars before ++ String "\" (escapeChars (String e after)))%string)
  /\ (forall before,
        escapeChars (before ++ String "\" EmptyString)
        = (escapeChars before ++ String "\" EmptyString)%string).
Proof.
  intros Hbase Hfile configured. subst configured.
  rewrite (Configure_ok baseConfigure cons conf Hbase Hfile). cbn [fst delimiter].
  split; [|split; [|split; [|split; [|split]]]].
  - intros Hno. apply HasValue_false in Hno. unfold GetString. rewrite Hno. reflexivity.
  - intros value Hvalue. unfold GetString. rewrite Hvalue. cbn [default].
    split; [reflexivity | by apply (escapeChars_length_upto (String.length value))].
  - exact escapeChars_plain.
  - intros before after.
    rewrite !(escapeChars_app_upto (String.length before)) by lia.
    rewrite !escapeChars_backslash. repeat split.
  - intros before e after Hn Hr Ht.
    rewrite (escapeChars_app_upto (String.length before)) by lia.
    rewrite escapeChars_backslash.
    apply Ascii.eqb_neq in Hn, Hr, Ht. by rewrite Hn, Hr, Ht.
  - intros before. by rewrite (escapeChars_app_upto (String.length before)) by lia.
Qed.

Lemma Delimiter_escapes_are_replaced_witness :
  delimiter
    (Configure baseAccepts zeroFile
       {| Settings := {[ "File"%string := "a.log"%string;
                         "Delimiter"%string := "|\r\n"%string ]} |}).1
  = String "|" (String CR (String LF EmptyString)).
Proof.
  destruct (Delimiter_escapes_are_replaced baseAccepts zeroFile
              {| Settings := {[ "File"%string := "a.log"%string;
                                "Delimiter"%string := "|\r\n"%string ]} |})
    as (_ & Hvalue & Hplain & Hescape & _).
  - reflexivity.
  - vm_compute. reflexivity.
  - destruct (Hvalue "|\r\n"%string) as [-> _]; [vm_compute; reflexivity|].
    change "|\r\n"%string with ("|" ++ String "\" (String "r" "\n"))%string.
    destruct (Hescape "|"%string "\n"%string) as (_ & -> & _).
    rewrite (Hplain "|"%string) by reflexivity. reflexivity.
Defined.

(** *** The name of the index file *)

Lemma pathDelimiter_length s : String.length (pathDelimiter s) = String.length s.
Proof. induction s as [|c s IH]; cbn; [reflexivity | by rewrite IH]. Qed.

Lemma pathDelimiter_clean s :
  mentions "/" (pathDelimiter s) = false /\ mentions "." (pathDelimiter s) = false.
Proof.
  induction s as [|c s [IH1 IH2]]; [split; reflexivity|].
  cbn [pathDelimiter mentions]. rewrite IH1, IH2, !orb_false_r.
  destruct (Ascii.eqb_spec c "/") as [->|Hs]; [split; reflexivity|].
  destruct (Ascii.eqb_spec c ".") as [->|Hd]; [split; reflexivity|].
  cbn [orb]. split; by apply Ascii.eqb_neq.
Qed.

Lemma pathDelimiter_again s : pathDelimiter (pathDelimiter s) = pathDelimiter s.
Proof.
  induction s as [|c s IH]; [reflexivity|]. cbn [pathDelimiter]. rewrite IH. f_equal.
  destruct (Ascii.eqb_spec c "/") as [->|Hs]; [reflexivity|].
  destruct (Ascii.eqb_spec c ".") as [->|Hd]; [reflexivity|].
  cbn [orb]. apply Ascii.eqb_neq in Hs, Hd. by rewrite Hs, Hd.
Qed.

(** X10. In persisting mode [initFile] names the index file
    [/tmp/gollum<flat>.idx], where [flat] is the resolved file name with
    every [/] and [.] replaced by [_]: [flat] is as long as the resolved
    name and holds no [/] and no [.], so the index file lies in [/tmp]
    itself, and flattening it again changes nothing. *)
Theorem index_file_lies_in_tmp (w : World) (cons : File) :
  persistSeek cons = true ->
  exists flat : string,
    continueFileName (initFile w cons).1 = ("/tmp/gollum" ++ flat ++ ".idx")%string
    /\ flat = pathDelimiter (realFileName w cons)
    /\ String.length flat = String.length (realFileName w cons)
    /\ mentions "/" flat = false
    /\ mentions "." flat = false
    /\ pathDelimiter flat = flat.
Proof.
  intros Hp. exists (pathDelimiter (realFileName w cons)).
  split.
  - unfold initFile.
    destruct (file cons); cbn [persistSeek withFile]; rewrite Hp;
      cbn [continueFileName withSeekOffset withContinueFileName];
      (destruct (ReadFile w _); reflexivity).
  - split; [reflexivity|]. split; [apply pathDelimiter_length|].
    destruct (pathDelimiter_clean (realFileName w cons)) as [H1 H2].
    split; [exact H1|]. split; [exact H2 | apply pathDelimiter_again].
Qed.

Lemma index_file_lies_in_tmp_witness :
  continueFileName (initFile (logDir "a.log" ∅) (tailing "Current")).1
  = "/tmp/gollum_var_log_a_log.idx"%string.
Proof.
  destruct (index_file_lies_in_tmp (logDir "a.log" ∅) (tailing "Current"))
    as (flat & Hname & Hflat & _); [reflexivity|].
  rewrite Hname, Hflat. vm_compute. reflexivity.
Defined.

(** *** A consumer that does not persist *)

Lemma deliver_postOnly frames : forall w cons seq,
  (deliver postOnly w cons seq frames).1.1.1 = w
  /\ (deliver postOnly w cons seq frames).1.1.2 = cons.
Proof.
  induction frames as [|frame frames IH]; intros w cons seq; [split; reflexivity|].
  cbn [deliver postOnly]. specialize (IH w cons (u64 (seq + 1))).
  destruct (deliver postOnly w cons (u64 (seq + 1)) frames) as [[[w2 cons2] seq2] ev2].
  exact IH.
Qed.

(** The reader of a consumer that does not persist leaves the file system
    and the consumer alone, but for the offset of the file it reads. *)
Lemma bufferRead_postOnly w cons buf :
  (bufferRead postOnly w cons buf).1.1.1.1 = w
  /\ ((bufferRead postOnly w cons buf).1.1.1.2 = cons
      \/ exists f pos,
           file cons = Some f
           /\ (bufferRead postOnly w cons buf).1.1.1.2
              = withFile cons (Some {| f_path := f_path f; f_pos := pos |})).
Proof.
  unfold bufferRead. destruct (file cons) as [f|] eqn:Hf; [|split; [reflexivity | by left]].
  destruct (_ && _); [split; [reflexivity | by left]|].
  destruct (files w !! f_path f); [|split; [reflexivity | by left]].
  destruct (substring _ _ _) as [|c chunk] eqn:Hchunk; [split; [reflexivity | by left]|].
  destruct (splitFrames _ _) as [frames partial].
  match goal with |- context [deliver postOnly w ?c ?seq frames] =>
    pose proof (deliver_postOnly frames w c seq) as [Hw Hc];
    destruct (deliver postOnly w c seq frames) as [[[w' cons'] seq'] events]
  end.
  cbn [fst snd] in *. subst w' cons'. split; [reflexivity|]. right.
  eexists f, _. split; reflexivity.
Qed.

Lemma tryRead_postOnly w l :
  loopPersist l = false ->
  (tryRead w l).1.1 = w
  /\ seekOffset (loopCons (tryRead w l).1.2) = seekOffset (loopCons l)
  /\ seek (loopCons (tryRead w l).1.2) = seek (loopCons l)
  /\ loopPersist (tryRead w l).1.2 = false.
Proof.
  intros Hp. unfold tryRead.
  destruct (file (loopCons l)) as [f|]; [|auto].
  destruct (fileState_eqb (state (loopCons l)) fileStateRead); [|auto].
  rewrite Hp. cbn [onMessageOf].
  pose proof (bufferRead_postOnly w (loopCons l) (loopBuffer l)) as [Hw Hcons].
  destruct (bufferRead postOnly w (loopCons l) (loopBuffer l))
    as [[[[w' cons'] buf'] err] ev].
  cbn [fst snd] in Hw, Hcons. subst w'.
  assert (Hkeep : seekOffset cons' = seekOffset (loopCons l) /\ seek cons' = seek (loopCons l)).
  { destruct Hcons as [-> | (f0 & pos & _ & ->)]; split; reflexivity. }
  destruct Hkeep as [Hoff Hseek].
  destruct err; try (cbn; auto);
    destruct (fileState_eqb (state cons') fileStateRead); cbn; auto.
Qed.



(** *** The end of [read] *)

Lemma onMessageOf_quiet p w cons data seq :
  countOf isMarkAsDone (onMessageOf p w cons data seq).2 = 0%nat
  /\ state (onMessageOf p w cons data seq).1.2 = state cons.
Proof.
  destruct p; cbn [onMessageOf]; [|split; reflexivity].
  unfold postAndPersist. destruct (file cons) as [f|].
  - destruct (Seek w f 0 1) as [f' pos]. destruct (WriteFile _ _ _). split; reflexivity.
  - destruct (WriteFile _ _ _). split; reflexivity.
Qed.

Lemma deliver_quiet p frames : forall w cons seq,
  countOf isMarkAsDone (deliver (onMessageOf p) w cons seq frames).2 = 0%nat
  /\ state (deliver (onMessageOf p) w cons seq frames).1.1.2 = state cons.
Proof.
  induction frames as [|frame frames IH]; intros w cons seq; [split; reflexivity|].
  cbn [deliver].
  pose proof (onMessageOf_quiet p w cons frame seq) as [Hq Hs].
  destruct (onMessageOf p w cons frame seq) as [[w1 cons1] ev1].
  specialize (IH w1 cons1 (u64 (seq + 1))).
  destruct (deliver (onMessageOf p) w1 cons1 (u64 (seq + 1)) frames)
    as [[[w2 cons2] seq2] ev2].
  cbn [fst snd] in *. rewrite countOf_app. destruct IH as [-> ->]. rewrite Hq. auto.
Qed.

Lemma bufferRead_quiet p w cons buf :
  countOf isMarkAsDone (bufferRead (onMessageOf p) w cons buf).2 = 0%nat
  /\ state (bufferRead (onMessageOf p) w cons buf).1.1.1.2 = state cons.
Proof.
  unfold bufferRead. destruct (file cons) as [f|]; [|split; reflexivity].
  destruct (_ && _); [split; reflexivity|].
  destruct (files w !! f_path f); [|split; reflexivity].
  destruct (substring _ _ _); [split; reflexivity|].
  destruct (splitFrames _ _) as [frames partial].
  match goal with |- context [deliver (onMessageOf p) w ?c ?seq frames] =>
    pose proof (deliver_quiet p frames w c seq) as [Hq Hs];
    destruct (deliver (onMessageOf p) w c seq frames) as [[[w' cons'] seq'] events]
  end.
  cbn [fst snd] in *. auto.
Qed.

(** A pass of the loop does not mark the consumer as done, and does not
    set the state to [fileStateDone]. *)
Lemma readIter_quiet w l :
  state (loopCons l) <> fileStateDone ->
  countOf isMarkAsDone (readIter w l).2 = 0%nat
  /\ state (loopCons (readIter w l).1.2) <> fileStateDone.
Proof.
  intros Hst. unfold readIter.
  assert (Hopen : countOf isMarkAsDone (openStage w l).2 = 0%nat
                  /\ state (loopCons (openStage w l).1.2) <> fileStateDone).
  { unfold openStage. destruct (fileState_eqb _ _); [|auto].
    destruct (file (loopCons l)) as [f|] eqn:Hf.
    - pose proof (bufferRead_quiet (loopPersist l) w (loopCons l) (loopBuffer l)) as [Hq Hs].
      destruct (bufferRead _ w (loopCons l) (loopBuffer l)) as [[[[w' cons'] buf'] err] ev].
      cbn [fst snd] in Hq, Hs.
      pose proof (initFile_state w' cons') as Hi.
      destruct (initFile w' cons') as [cons2 ev2] eqn:Hinit. cbn [fst snd loopCons] in *.
      rewrite countOf_app, Hq, Hi. split; [|discriminate].
      unfold initFile in Hinit. destruct (file cons'); injection Hinit as _ <-; reflexivity.
    - pose proof (initFile_state w (loopCons l)) as Hi.
      destruct (initFile w (loopCons l)) as [cons2 ev2] eqn:Hinit. cbn [fst snd loopCons] in *.
      rewrite Hi. split; [|discriminate].
      unfold initFile in Hinit. rewrite Hf in Hinit. injection Hinit as _ <-. reflexivity. }
  destruct (openStage w l) as [[w1 l1] ev1]. cbn [fst snd] in Hopen.
  destruct Hopen as [Hq1 Hs1].
  assert (Htry : countOf isMarkAsDone (tryOpen w1 l1).1.2 = 0%nat
                 /\ state (loopCons (tryOpen w1 l1).1.1) = state (loopCons l1)).
  { unfold tryOpen. destruct (_ && _); [|split; reflexivity].
    destruct (OpenFile w1 _) as [f|].
    - destruct (Seek w1 f _ _). split; reflexivity.
    - destruct (printFileOpenError l1); split; reflexivity. }
  destruct (tryOpen w1 l1) as [[l2 ev2] continue]. cbn [fst snd] in Htry.
  destruct Htry as [Hq2 Hs2].
  destruct continue; cbn [fst snd].
  - rewrite countOf_app, Hq1, Hq2. split; [reflexivity | congruence].
  - assert (Hread : countOf isMarkAsDone (tryRead w1 l2).2 = 0%nat
                    /\ state (loopCons (tryRead w1 l2).1.2) = state (loopCons l2)).
    { unfold tryRead. destruct (file (loopCons l2)) as [f|]; [|split; reflexivity].
      destruct (fileState_eqb _ _); [|split; reflexivity].
      pose proof (bufferRead_quiet (loopPersist l2) w1 (loopCons l2) (loopBuffer l2))
        as [Hq Hs].
      destruct (bufferRead _ w1 (loopCons l2) (loopBuffer l2)) as [[[[w' cons'] buf'] err] ev].
      cbn [fst snd] in Hq, Hs.
      destruct err; cbn [fst snd loopCons]; rewrite ?countOf_app, ?Hq; try (split; [reflexivity | exact Hs]);
        destruct (fileState_eqb (state cons') fileStateRead); cbn [fst snd loopCons];
        rewrite ?countOf_app, ?Hq; split; try reflexivity; exact Hs. }
    destruct (tryRead w1 l2) as [[w3 l3] ev3]. cbn [fst snd] in *.
    destruct Hread as [Hq3 Hs3].
    rewrite !countOf_app, Hq1, Hq2, Hq3. split; [reflexivity | congruence].
Qed.

Lemma not_Done st : st <> fileStateDone -> fileState_eqb st fileStateDone = false.
Proof. destruct st; [reflexivity | reflexivity | contradiction]. Qed.

(** X12. [read] marks the consumer as done once, as the last thing it
    does, and only when the state was set to [fileStateDone]: over any
    sequence of passes, started in another state, the trace holds one
    [MarkAsDone] when one of the passes saw [fileStateDone], and it is
    then the last event; otherwise it holds none. *)
Theorem read_marks_done_once_when_stopped (stimuli : list Stimulus) :
  forall (w : World) (l : ReadLoop),
    state (loopCons l) <> fileStateDone ->
    countOf isMarkAsDone (readLoop stimuli w l).2
    = (if existsb setsDone stimuli then 1 else 0)%nat
    /\ (existsb setsDone stimuli = true ->
        exists before, (readLoop stimuli w l).2 = before ++ [EvMarkAsDone]).
Proof.
  induction stimuli as [|s stimuli IH]; intros w l Hst.
  - cbn. split; [reflexivity | discriminate].
  - cbn [readLoop existsb].
    assert (Hgo : forall l0,
              state (loopCons l0) <> fileStateDone ->
              setsDone s = false ->
              countOf isMarkAsDone
                (let '(w1, l1, ev1) := readIter (env s w) l0 in
                 let '(w2, l2, ev2) := readLoop stimuli w1 l1 in (w2, l2, ev1 ++ ev2)).2
              = (if setsDone s || existsb setsDone stimuli then 1 else 0)%nat
              /\ (setsDone s || existsb setsDone stimuli = true ->
                  exists before,
                    (let '(w1, l1, ev1) := readIter (env s w) l0 in
                     let '(w2, l2, ev2) := readLoop stimuli w1 l1 in (w2, l2, ev1 ++ ev2)).2
                    = before ++ [EvMarkAsDone])).
    { intros l0 Hl0 Hs0. rewrite Hs0. cbn [orb].
      destruct (readIter_quiet (env s w) l0 Hl0) as [Hq Hs].
      destruct (readIter (env s w) l0) as [[w1 l1] ev1]. cbn [fst snd] in Hq, Hs.
      destruct (IH w1 l1 Hs) as [Hcount Hlast].
      destruct (readLoop stimuli w1 l1) as [[w2 l2] ev2]. cbn [fst snd] in *.
      rewrite countOf_app, Hq, Hcount. split; [reflexivity|].
      intros Hdone. destruct (Hlast Hdone) as [before ->].
      exists (ev1 ++ before). by rewrite app_assoc. }
    assert (Hsets : setsDone s = match control s with
                                 | Some fileStateDone => true
                                 | _ => false
                                 end) by reflexivity.
    destruct (control s) as [[| |]|] eqn:Hc; cbn [controlled]; rewrite Hsets in *.
    + cbn [loopCons state setState fileState_eqb]. apply Hgo; [discriminate | reflexivity].
    + cbn [loopCons state setState fileState_eqb]. apply Hgo; [discriminate | reflexivity].
    + cbn [loopCons state setState fileState_eqb orb]. unfold readExit.
      cbn [loopCons file setState].
      destruct (file (loopCons l)) as [f|]; cbn [fst snd]; split; try reflexivity; intros _.
      * by exists [EvClose (f_path f)].
      * by exists [].
    + rewrite (not_Done _ Hst). apply Hgo; [exact Hst | reflexivity].
Qed.

Lemma read_marks_done_once_when_stopped_witness :
  countOf isMarkAsDone
    (readLoop [idle; idle; {| env := fun w => w; control := Some fileStateDone |}; idle]
       (logDir "a.log" ∅) (Consume (tailing "Start"))).2 = 1%nat.
Proof.
  destruct (read_marks_done_once_when_stopped
              [idle; idle; {| env := fun w => w; control := Some fileStateDone |}; idle]
              (logDir "a.log" ∅) (Consume (tailing "Start")))
    as [Hcount _]; [discriminate|].
  exact Hcount.
Defined.

End FileMore.

(** ** The token and the resources of the cloudwatch producer *)

Module CloudwatchFacts.
Import Cloudwatch.

Lemma findToken_skips prod before : forall rest,
  Forall (otherStream prod) before ->
  findToken prod (before ++ rest) = findToken prod rest.
Proof.
  induction before as [|row before IH]; intros rest Hother; [reflexivity|].
  apply Forall_cons in Hother as [(name & Hname & Hne) Hother].
  cbn [app findToken]. rewrite Hname.
  destruct (String.eqb_spec (stream prod) name) as [Heq|_]; [congruence|].
  by apply IH.
Qed.

Lemma findToken_absent prod rows :
  Forall (otherStream prod) rows -> findToken prod rows = (prod, Some false).
Proof.
  intros Hother. rewrite <- (app_nil_r rows). by rewrite findToken_skips.
Qed.

Lemma findToken_found prod before after row :
  Forall (otherStream prod) before ->
  LogStreamName row = Some (stream prod) ->
  findToken prod (before ++ row :: after)
  = (setToken' prod (UploadSequenceToken row), Some true).
Proof.
  intros Hother Hname. rewrite findToken_skips by exact Hother.
  cbn [findToken]. rewrite Hname, String.eqb_refl. reflexivity.
Qed.

(** X13. [findToken] takes the token of the first row of the page that
    carries the name of the stream and returns true, whatever rows follow;
    it panics on a row without a name that it reaches before; and on a
    page that holds other streams only it returns false and leaves the
    producer as it was. *)
Theorem findToken_takes_the_first_match
    (prod : CloudwatchLogs) (before after : list LogStream) (row : LogStream) :
  Forall (otherStream prod) before ->
  (LogStreamName row = Some (stream prod) ->
   findToken prod (before ++ row :: after)
   = (setToken' prod (UploadSequenceToken row), Some true))
  /\ (LogStreamName row = None ->
      findToken prod (before ++ row :: after) = (prod, None))
  /\ findToken prod before = (prod, Some false).
Proof.
  intros Hother. split; [|split].
  - by apply findToken_found.
  - intros Hnil. rewrite findToken_skips by exact Hother.
    cbn [findToken]. rewrite Hnil. reflexivity.
  - by apply findToken_absent.
Qed.

Lemma findToken_takes_the_first_match_witness :
  findToken {| stream := "web"; group := "prod"; token := None |}
    [ {| LogStreamName := Some "api"%string; UploadSequenceToken := Some "1"%string |};
      {| LogStreamName := Some "web"%string; UploadSequenceToken := Some "2"%string |};
      {| LogStreamName := Some "web"%string; UploadSequenceToken := Some "3"%string |} ]
  = ({| stream := "web"; group := "prod"; token := Some "2"%string |}, Some true).
Proof.
  destruct (findToken_takes_the_first_match
              {| stream := "web"; group := "prod"; token := None |}
              [ {| LogStreamName := Some "api"%string; UploadSequenceToken := Some "1"%string |} ]
              [ {| LogStreamName := Some "web"%string; UploadSequenceToken := Some "3"%string |} ]
              {| LogStreamName := Some "web"%string; UploadSequenceToken := Some "2"%string |})
    as (Hfound & _).
  - repeat constructor. exists "api"%string. split; [reflexivity | discriminate].
  - apply Hfound. reflexivity.
Defined.

(** X14. [setToken] stops paging at the first page that holds the stream:
    after pages of other streams only, the token is that of the first
    matching row of the first page with one, and later pages are not
    looked at; when no page holds the stream the producer is left as it
    was. *)
Theorem setToken_stops_at_the_first_page_with_the_stream
    (prod : CloudwatchLogs) (pagesBefore pagesAfter : list (list LogStream))
    (before after : list LogStream) (row : LogStream) :
  Forall (Forall (otherStream prod)) pagesBefore ->
  Forall (otherStream prod) before ->
  (LogStreamName row = Some (stream prod) ->
   setToken prod (pagesBefore ++ (before ++ row :: after) :: pagesAfter)
   = Some (setToken' prod (UploadSequenceToken row)))
  /\ setToken prod pagesBefore = Some prod.
Proof.
  intros Hpages Hother.
  assert (Hskip : forall rest,
            setToken prod (pagesBefore ++ rest) = setToken prod rest).
  { induction Hpages as [|page pages Hpage _ IH]; intros rest; [reflexivity|].
    cbn [app setToken]. rewrite (findToken_absent prod page Hpage). apply IH. }
  split.
  - intros Hname. rewrite Hskip. cbn [setToken].
    by rewrite (findToken_found prod before after row Hother Hname).
  - rewrite <- (app_nil_r pagesBefore), Hskip. reflexivity.
Qed.

Lemma setToken_stops_at_the_first_page_with_the_stream_witness :
  setToken {| stream := "web"; group := "prod"; token := None |}
    [ [ {| LogStreamName := Some "api"%string; UploadSequenceToken := Some "1"%string |} ];
      [ {| LogStreamName := Some "web"%string; UploadSequenceToken := Some "2"%string |} ];
      [ {| LogStreamName := Some "web"%string; UploadSequenceToken := Some "3"%string |} ] ]
  = Some {| stream := "web"; group := "prod"; token := Some "2"%string |}.
Proof.
  destruct (setToken_stops_at_the_first_page_with_the_stream
              {| stream := "web"; group := "prod"; token := None |}
              [ [ {| LogStreamName := Some "api"%string;
                     UploadSequenceToken := Some "1"%string |} ] ]
              [ [ {| LogStreamName := Some "web"%string;
                     UploadSequenceToken := Some "3"%string |} ] ]
              [] []
              {| LogStreamName := Some "web"%string; UploadSequenceToken := Some "2"%string |})
    as (Hfound & _).
  - repeat constructor. exists "api"%string. split; [reflexivity | discriminate].
  - constructor.
  - apply Hfound. reflexivity.
Defined.

Lemma tolerated_None err :
  tolerated err = None
  <-> err = None \/ err = Some (AwsError "ResourceAlreadyExistsException").
Proof.
  unfold tolerated. destruct err as [[code | text]|].
  - destruct (String.eqb_spec code "ResourceAlreadyExistsException") as [-> | Hne].
    + split; [by right | reflexivity].
    + split; [discriminate | intros [H | H]; [discriminate | congruence]].
  - split; [discriminate | intros [H | H]; discriminate].
  - split; [by left | reflexivity].
Qed.

(** X15. [create] succeeds exactly when each of the two service calls
    either succeeds or fails with the code [ResourceAlreadyExistsException].
    When the creation of the group fails otherwise, that error is returned
    and the stream is not created; when the creation of the stream fails
    otherwise, its error is returned after both calls. *)
Theorem create_tolerates_existing_resources
    (answer : ServiceCall -> option GoError) (prod : CloudwatchLogs) :
  let groupAnswer := answer (CreateLogGroup (group prod)) in
  let streamAnswer := answer (CreateLogStream (group prod) (stream prod)) in
  let passes err := err = None \/ err = Some (AwsError "ResourceAlreadyExistsException") in
  ((create answer prod).1 = None <-> passes groupAnswer /\ passes streamAnswer)
  /\ (~ passes groupAnswer ->
      create answer prod = (groupAnswer, [CreateLogGroup (group prod)]))
  /\ (passes groupAnswer -> ~ passes streamAnswer ->
      create answer prod
      = (streamAnswer,
         [CreateLogGroup (group prod); CreateLogStream (group prod) (stream prod)])).
Proof.
  intros groupAnswer streamAnswer passes. unfold create, createGroup, createStream.
  pose proof (tolerated_None groupAnswer) as Hg.
  pose proof (tolerated_None streamAnswer) as Hs.
  fold groupAnswer streamAnswer. subst passes. cbv beta.
  assert (Hkeep : forall err, tolerated err <> None -> tolerated err = err).
  { intros err. unfold tolerated. destruct err as [[code | text]|]; try reflexivity.
    destruct (String.eqb code _); [contradiction | reflexivity]. }
  destruct (tolerated groupAnswer) as [e|] eqn:Htg.
  - assert (Hge : groupAnswer = Some e) by (rewrite <- (Hkeep groupAnswer); congruence).
    cbn [fst]. split; [|split].
    + split; [discriminate | intros [Hp _]; apply Hg in Hp; discriminate].
    + intros _. by rewrite Hge.
    + intros Hp. apply Hg in Hp. discriminate.
  - cbn [fst app]. split; [|split].
    + rewrite Hs. split; [intros H; split; [by apply Hg | exact H] | by intros [_ H]].
    + intros Hn. exfalso. apply Hn. by apply Hg.
    + intros _ Hn. rewrite Hkeep; [reflexivity|]. intros H. apply Hn. by apply Hs.
Qed.

Lemma create_tolerates_existing_resources_witness :
  create (fun call => match call with
                      | CreateLogGroup _ => Some (AwsError "ResourceAlreadyExistsException")
                      | CreateLogStream _ _ => Some (OtherError "timeout")
                      end)
    {| stream := "web"; group := "prod"; token := None |}
  = (Some (OtherError "timeout"), [CreateLogGroup "prod"; CreateLogStream "prod" "web"]).
Proof.
  destruct (create_tolerates_existing_resources
              (fun call => match call with
                           | CreateLogGroup _ => Some (AwsError "ResourceAlreadyExistsException")
                           | CreateLogStream _ _ => Some (OtherError "timeout")
                           end)
              {| stream := "web"; group := "prod"; token := None |})
    as (_ & _ & Hstream).
  apply Hstream.
  - by right.
  - intros [H | H]; discriminate.
Defined.

End CloudwatchFacts.
